(** * External photoevaporation of a protoplanetary disc

    Shallow embedding of [DiscEvolution/photoevaporation.py]: the raw
    mass-loss rates per annulus, the two removal schemes
    ([timescale_remove] and [weighted_removal]), the optically thin
    weighting, the Facchini entrainment limit and the dust entrainment.

    Numbers.  The arrays of the program hold IEEE doubles.  They are
    modelled by exact rationals [Q]: the four field operations and the
    comparisons are those of [Q], so rounding is not modelled, and every
    equation between computed values is stated up to [==].  A division
    whose divisor is zero, which numpy answers with [inf] or [nan] and a
    RuntimeWarning, has no value in [Q]: the model stops there with
    [FloatingPointError].  The only [nan] that the program tests for, the
    one a rate table returns outside its grid, is modelled by [fval].

    Arrays are lists, annuli ordered from the inner to the outer edge. *)

From Stdlib Require Import QArith Qminmax Qround Lqa ZArith Lia List Bool Sorted.
Import ListNotations.
Local Open Scope Q_scope.

(** ** Exceptions *)

Inductive exn : Type :=
| IndexError
| ValueError
| AttributeError
| FloatingPointError.

Inductive result (A : Type) : Type :=
| Ok (a : A)
| Raise (e : exn).
Arguments Ok {A} a.
Arguments Raise {A} e.

Definition bind {A B : Type} (r : result A) (k : A -> result B) : result B :=
  match r with
  | Ok a => k a
  | Raise e => Raise e
  end.

Notation "x <- c ;; k" := (bind c (fun x => k))
  (at level 61, c at next level, right associativity).
Notation "' pat <- c ;; k" := (bind c (fun x => match x with pat => k end))
  (at level 61, pat pattern, c at next level, right associativity).

(** ** The numerical environment

    [AU], [Msun], [yr] and [Mjup] come from the module [.constants], which
    is not part of the sources at hand; [np_pi], [np_sqrt] and [np_power]
    are numpy's [pi], [sqrt] and [**].  None of them is a field operation of
    [Q], so the engine is parametric in them: they are the fields of a
    class, and every definition and theorem below holds for each of its
    instances. *)

Class Env : Type := {
  AU : Q;
  Msun : Q;
  yr : Q;
  Mjup : Q;
  np_pi : Q;
  np_sqrt : Q -> Q;
  np_power : Q -> Q -> Q
}.

(** What the proofs use of the environment: the unit constants and [pi]
    are positive, and the square root of a positive number is positive. *)
Class EnvLaws (E : Env) : Prop := {
  AU_pos : 0 < AU;
  Msun_pos : 0 < Msun;
  yr_pos : 0 < yr;
  pi_pos : 0 < np_pi;
  sqrt_pos : forall x : Q, 0 < x -> 0 < np_sqrt x
}.

(** ** numpy on one-dimensional arrays *)

Module Np.

Definition Qltb (x y : Q) : bool := negb (Qle_bool y x).

Definition size {A : Type} (a : list A) : Z := Z.of_nat (length a).

Definition zeros (n : nat) : list Q := repeat 0 n.
Definition zeros_like {A : Type} (a : list A) : list Q := zeros (length a).
Definition ones_like {A : Type} (a : list A) : list Q := repeat 1 (length a).

(** [a > 0] and [a >= x]. *)
Definition gt0 (a : list Q) : list bool := map (fun x => Qltb 0 x) a.
Definition ge (a : list Q) (x : Q) : list bool := map (fun y => Qle_bool x y) a.

(** [np.sum] of a mask (the number of [True]) and of an array. *)
Definition count (m : list bool) : nat := length (filter (fun b => b) m).
Definition sum (a : list Q) : Q := fold_right Qplus 0 a.

Fixpoint cumsum_from (acc : Q) (a : list Q) : list Q :=
  match a with
  | [] => []
  | x :: r => (acc + x) :: cumsum_from (acc + x) r
  end.

Definition cumsum (a : list Q) : list Q :=
  match a with
  | [] => []
  | x :: r => x :: cumsum_from x r
  end.

Fixpoint map2 {A B C : Type} (f : A -> B -> C) (a : list A) (b : list B) : list C :=
  match a, b with
  | x :: a', y :: b' => f x y :: map2 f a' b'
  | _, _ => []
  end.

(** Elementwise operation with numpy's broadcasting of one-dimensional
    operands: a one-element operand is stretched, otherwise the lengths
    must agree. *)
Definition broadcast {A B C : Type} (f : A -> B -> C) (a : list A) (b : list B)
  : result (list C) :=
  match a, b with
  | [x], _ => Ok (map (f x) b)
  | _, [y] => Ok (map (fun x => f x y) a)
  | _, _ => if Nat.eqb (length a) (length b) then Ok (map2 f a b)
            else Raise ValueError
  end.

(** An in-place operation [a op= b]: [b] is stretched to [a], never [a]
    to [b]. *)
Definition inplace {A B : Type} (f : A -> B -> A) (a : list A) (b : list B)
  : result (list A) :=
  match b with
  | [y] => Ok (map (fun x => f x y) a)
  | _ => if Nat.eqb (length a) (length b) then Ok (map2 f a b)
         else Raise ValueError
  end.

Fixpoint all_nonzero (a : list Q) : bool :=
  match a with
  | [] => true
  | x :: r => negb (Qeq_bool x 0) && all_nonzero r
  end.

(** [a / b]; a zero divisor leaves the rationals. *)
Definition divide (a b : list Q) : result (list Q) :=
  if all_nonzero b then broadcast Qdiv a b else Raise FloatingPointError.

Definition qdiv (x y : Q) : result Q :=
  if Qeq_bool y 0 then Raise FloatingPointError else Ok (x / y).

(** [a[m]] for a boolean mask [m]. *)
Fixpoint compress {A : Type} (m : list bool) (a : list A) : list A :=
  match m, a with
  | b :: m', x :: a' => if b then x :: compress m' a' else compress m' a'
  | _, _ => []
  end.

Definition bool_index {A : Type} (a : list A) (m : list bool) : result (list A) :=
  if Nat.eqb (length a) (length m) then Ok (compress m a) else Raise IndexError.

(** [a[m] = v] for a scalar [v]. *)
Definition mask_set {A : Type} (a : list A) (m : list bool) (v : A) : result (list A) :=
  if Nat.eqb (length a) (length m)
  then Ok (map2 (fun (b : bool) x => if b then v else x) m a)
  else Raise IndexError.

(** [a[m] = vals]: the values are laid down, in order, where the mask is
    true.  Every use below computes [vals] from arrays indexed by the same
    mask, so it has one value per [True]. *)
Fixpoint scatter {A : Type} (m : list bool) (a vals : list A) : list A :=
  match m, a with
  | true :: m', x :: a' =>
      match vals with
      | v :: vs => v :: scatter m' a' vs
      | [] => x :: scatter m' a' []
      end
  | false :: m', x :: a' => x :: scatter m' a' vals
  | _, _ => a
  end.

Definition mask_assign {A : Type} (a : list A) (m : list bool) (vals : list A)
  : result (list A) :=
  if Nat.eqb (length a) (length m)
  then if Nat.eqb (length vals) (count m) then Ok (scatter m a vals)
       else Raise ValueError
  else Raise IndexError.

(** Python's integer indexing: a negative index counts from the end. *)
Definition py_index {A : Type} (a : list A) (i : Z) : option nat :=
  let n := Z.of_nat (length a) in
  if ((0 <=? i) && (i <? n))%Z then Some (Z.to_nat i)
  else if ((i <? 0) && (- n <=? i))%Z then Some (Z.to_nat (n + i))
  else None.

Definition getitem {A : Type} (a : list A) (i : Z) : result A :=
  match py_index a i with
  | Some k => match nth_error a k with
              | Some x => Ok x
              | None => Raise IndexError
              end
  | None => Raise IndexError
  end.

Definition setitem {A : Type} (a : list A) (i : Z) (v : A) : result (list A) :=
  match py_index a i with
  | Some k => Ok (firstn k a ++ v :: skipn (S k) a)
  | None => Raise IndexError
  end.

(** [np.argmax]: the first index at which the maximum is attained. *)
Fixpoint argmax_from (best : Q) (ibest i : nat) (a : list Q) : nat :=
  match a with
  | [] => ibest
  | x :: r => if Qltb best x then argmax_from x i (S i) r
              else argmax_from best ibest (S i) r
  end.

Definition argmax (a : list Q) : result nat :=
  match a with
  | [] => Raise ValueError
  | x :: r => Ok (argmax_from x 0 1 r)
  end.

(** [np.concatenate((a, np.zeros(n - np.size(a))))]; [np.zeros] refuses a
    negative size. *)
Definition pad_zeros (a : list Q) (n : nat) : result (list Q) :=
  if Nat.leb (length a) n then Ok (a ++ zeros (n - length a))
  else Raise ValueError.

End Np.

(** ** Data model *)

(** Modelled from the spec: the table service of [FRIED.photorate] maps a
    condition value and a radius to a rate in Msun/yr, or to an undefined
    value ([nan]) outside its grid. *)
Inductive fval : Type :=
| Num (q : Q)
| NaN.

Definition isnan (v : fval) : bool :=
  match v with
  | NaN => true
  | Num _ => false
  end.

(** Modelled from the spec: the fields a [DustyDisc] adds to a disc, with
    two dust populations per annulus.  The class itself lives in [.dust];
    the engine reads [Sigma_D], [dust_frac] (the attribute [_eps]),
    [integ_dust_frac], [grain_size], [_p] and [_rho_s], and writes [_eps]
    and [_Mwind_cum]. *)
Record Dust : Type := mkDust {
  Sigma_D : list Q * list Q;
  _eps : list Q * list Q;          (* dust_frac *)
  integ_dust_frac : list Q;
  grain_size : list Q * list Q;
  _p : Q;
  _rho_s : Q;
  _Mwind_cum : Q
}.

(** Modelled from the spec: the disc data contract.  The disc classes are
    not part of the sources at hand; the engine reads [R], [R_edge],
    [Sigma_G], [H], [cs], [star.M] and writes [_Sigma].  [Sigma_G] is what
    the disc reports when the call starts.  [dust] is [Some] exactly for an
    instance of [DustyDisc]. *)
Record Disc : Type := mkDisc {
  R : list Q;
  R_edge : list Q;
  _Sigma : list Q;
  Sigma_G : list Q;
  H : list Q;
  cs : list Q;
  star_M : Q;
  FUV : Q;
  dust : option Dust
}.

Definition dust_frac (du : Dust) : list Q * list Q := _eps du.

(** [disc.Sigma] reads [disc._Sigma]. *)
Definition Sigma (d : Disc) : list Q := _Sigma d.

Definition set_Sigma (d : Disc) (s : list Q) : Disc :=
  mkDisc (R d) (R_edge d) s (Sigma_G d) (H d) (cs d) (star_M d) (FUV d) (dust d).

Definition set_dust (d : Disc) (du : Dust) : Disc :=
  mkDisc (R d) (R_edge d) (_Sigma d) (Sigma_G d) (H d) (cs d) (star_M d) (FUV d)
         (Some du).

(** The four classes of rate provider; a FRIED provider carries the
    interpolator of its table, [FRIED_Rates.PE_rate], applied to one
    (condition, radius) pair at a time. *)
Inductive Provider : Type :=
| FixedExternalEvaporation
| FRIEDExternalEvaporationS (PE_rate : Q -> Q -> fval)
| FRIEDExternalEvaporationMS (PE_rate : Q -> Q -> fval)
| FRIEDExternalEvaporationM (PE_rate : Q -> Q -> fval).

(** The attribute [self._Mdot] is a Python float for the fixed provider and
    an array for the others; [np.append] turns either into an array. *)
Inductive pyfloats : Type :=
| Scalar (x : Q)
| Array (a : list Q).

Record Evap : Type := mkEvap {
  cls : Provider;
  _Mdot : pyfloats;
  _amax : list Q
}.

Definition np_append (f : pyfloats) (x : Q) : pyfloats :=
  match f with
  | Scalar q => Array [q; x]
  | Array a => Array (a ++ [x])
  end.

Definition set_Mdot (self : Evap) (m : pyfloats) : Evap :=
  mkEvap (cls self) m (_amax self).

Definition set_amax (self : Evap) (a : list Q) : Evap :=
  mkEvap (cls self) (_Mdot self) a.

(** ** The engine *)

Section Engine.
Context {E : Env}.

(** [np.pi * (Re[1:] ** 2 - Re[:-1] ** 2)] with [Re = disc.R_edge * AU]. *)
Definition annulus_areas (d : Disc) : list Q :=
  let Re := map (fun r => r * AU) (R_edge d) in
  Np.map2 (fun o i => np_pi * (o * o - i * i)) (tl Re) (removelast Re).

(** *** Rate providers *)

(** [FixedExternalEvaporation.mass_loss_rate]: one entry per [True] of the
    mask. *)
Definition Fixed_mass_loss_rate (self : Evap) (d : Disc) (not_empty : list bool)
  : result (list fval) :=
  s <- Np.bool_index (Sigma d) not_empty ;;
  r <- match _Mdot self with
       | Scalar q => Ok (map (fun o => q * o) (Np.ones_like s))
       | Array a => Np.broadcast Qmult a (Np.ones_like s)
       end ;;
  Ok (map Num r).

(** The body shared by the three table providers, for the lookup key
    [key]: the table is consulted where the mask is true, and every [nan]
    of the result is overwritten with [1e-10]. *)
Definition FRIED_mass_loss_rate (PE_rate : Q -> Q -> fval) (key : list Q)
  (d : Disc) (not_empty : list bool) : result (list fval) :=
  let calc_rates := map Num (Np.zeros_like (R d)) in
  k <- Np.bool_index key not_empty ;;
  r <- Np.bool_index (R d) not_empty ;;
  calc_rates <- Np.mask_assign calc_rates not_empty (Np.map2 PE_rate k r) ;;
  let norate := map isnan calc_rates in
  Np.mask_set calc_rates norate (Num 1e-10).

(** [np.cumsum(dM_gas) / Mjup], the key of [FRIEDExternalEvaporationM]. *)
Definition integ_mass (d : Disc) : result (list Q) :=
  dM_gas <- Np.broadcast Qmult (Sigma_G d) (annulus_areas d) ;;
  Ok (map (fun x => x / Mjup) (Np.cumsum dM_gas)).

Definition mass_loss_rate (self : Evap) (d : Disc) (not_empty : list bool)
  : result (list fval) :=
  match cls self with
  | FixedExternalEvaporation => Fixed_mass_loss_rate self d not_empty
  | FRIEDExternalEvaporationS t => FRIED_mass_loss_rate t (Sigma_G d) d not_empty
  | FRIEDExternalEvaporationMS t => FRIED_mass_loss_rate t (Sigma_G d) d not_empty
  | FRIEDExternalEvaporationM t =>
      key <- integ_mass d ;;
      FRIED_mass_loss_rate t key d not_empty
  end.

(** The table a provider consults and the key it consults it with; the
    fixed provider has neither. *)
Definition table (p : Provider) : option (Q -> Q -> fval) :=
  match p with
  | FixedExternalEvaporation => None
  | FRIEDExternalEvaporationS t => Some t
  | FRIEDExternalEvaporationMS t => Some t
  | FRIEDExternalEvaporationM t => Some t
  end.

Definition lookup_key (p : Provider) (d : Disc) : result (list Q) :=
  match p with
  | FRIEDExternalEvaporationM _ => integ_mass d
  | _ => Ok (Sigma_G d)
  end.

(** The rates enter rational arithmetic; a [nan] among them would not. *)
Fixpoint finite (a : list fval) : result (list Q) :=
  match a with
  | [] => Ok []
  | Num q :: r => r' <- finite r ;; Ok (q :: r')
  | NaN :: _ => Raise FloatingPointError
  end.

(** *** Raw rates and depletion times *)

Definition unweighted_rates (self : Evap) (d : Disc) (Track : bool)
  : result (Evap * (list Q * list Q)) :=
  let not_empty := Np.gt0 (Sigma_G d) in
  let dA := annulus_areas d in
  dM_gas <- Np.broadcast Qmult (Sigma_G d) dA ;;
  Mdot <- mass_loss_rate self d not_empty ;;
  Mdot <- finite Mdot ;;
  let dM_dot := map (fun x => x * Msun / (2 * np_pi)) Mdot in
  self <- (if Track
           then sel <- Np.bool_index dM_dot not_empty ;;
                last <- Np.getitem sel (-1) ;;
                Ok (set_Mdot self (np_append (_Mdot self) (last * (yr / Msun))))
           else Ok self) ;;
  Ok (self, (dM_dot, dM_gas)).

Definition get_timescale (self : Evap) (d : Disc) (Track : bool)
  : result (Evap * (list Q * list Q * list Q * list Q)) :=
  '(self, (dM_evap, dM_gas)) <- unweighted_rates self d Track ;;
  let not_empty := Np.gt0 (Sigma_G d) in
  let M_tot := rev (Np.cumsum (rev dM_gas)) in
  g <- Np.bool_index dM_gas not_empty ;;
  e <- Np.bool_index dM_evap not_empty ;;
  Dt_R <- Np.divide g e ;;
  Dt_R <- Np.pad_zeros Dt_R (length (Sigma_G d)) ;;
  dM_evap <- Np.pad_zeros dM_evap (length (Sigma_G d)) ;;
  let Dt := rev (Np.cumsum (rev Dt_R)) in
  Ok (self, (dM_evap, dM_gas, M_tot, Dt)).

(** *** Removal on depletion times *)

(** The part of [timescale_remove] after the depletion times [Dt] are
    known: the annuli with [dt - Dt > 0] are emptied and the marginal
    annulus, found by counting from the end, is scaled. *)
Definition deplete (Sigma0 Dt : list Q) (n : nat) (dt : Q) : result (list Q) :=
  let excess_t := map (fun t => dt - t) Dt in
  let empty := Np.gt0 excess_t in
  Sigma1 <- Np.mask_set Sigma0 empty 0 ;;
  if Nat.ltb (Np.count empty) n
  then
    let half_empty := (- (Z.of_nat (Np.count empty) + 1))%Z in
    s <- Np.getitem Sigma1 half_empty ;;
    x <- Np.getitem excess_t half_empty ;;
    a <- Np.getitem Dt half_empty ;;
    b <- Np.getitem Dt (half_empty + 1)%Z ;;
    f <- Np.qdiv (- (1) * x) (a - b) ;;
    Np.setitem Sigma1 half_empty (s * f)
  else Ok Sigma1.

Definition timescale_remove (self : Evap) (d : Disc) (dt : Q) (Track : bool)
  : result (Evap * Disc) :=
  '(self, (dM_evap, dM_tot, M_tot, Dt)) <- get_timescale self d Track ;;
  Sigma' <- deplete (_Sigma d) Dt (length (Sigma_G d)) dt ;;
  Ok (self, set_Sigma d Sigma').

(** *** Optically thin weighting *)

(** [i_max = np.size(Mdot) - np.argmax(Mdot[::-1]) - 1]. *)
Definition transition_index (Mdot : list Q) : result Z :=
  a <- Np.argmax (rev Mdot) ;;
  Ok (Np.size Mdot - Z.of_nat a - 1)%Z.

(** The mask [ot_radii] of the annuli at or beyond the radius of the
    transition. *)
Definition ot_radii (d : Disc) (i_max : Z) : result (list bool) :=
  r <- Np.getitem (R d) i_max ;;
  Ok (Np.ge (R d) r).

Definition bool_to_Q (b : bool) : Q := if b then 1 else 0.

(** The weights [s_weight]: [R**(3/2) * Sigma_G], divided by its sum over
    [ot_radii] and zeroed outside [ot_radii]. *)
Definition ot_weights (d : Disc) (i_max : Z) : result (list Q) :=
  ot <- ot_radii d i_max ;;
  s <- Np.broadcast Qmult (map (fun r => np_power r (3 # 2)) (R d)) (Sigma_G d) ;;
  sel <- Np.bool_index s ot ;;
  let s_tot := Np.sum sel in
  s_weight <- Np.divide s [s_tot] ;;
  Np.inplace (fun w b => w * bool_to_Q b) s_weight ot.

Definition optically_thin_weighting (self : Evap) (d : Disc) (Track : bool)
  : result (Evap * (list Q * list Q)) :=
  '(self, (Mdot, dM_gas)) <- unweighted_rates self d false ;;
  i_max <- transition_index Mdot ;;
  s_weight <- ot_weights d i_max ;;
  contrib <- Np.broadcast Qmult Mdot s_weight ;;
  let M_dot_tot := Np.sum contrib in
  let M_dot_eff := map (fun w => M_dot_tot * w) s_weight in
  let self := if Track
              then set_Mdot self (np_append (_Mdot self) (M_dot_tot * (yr / Msun)))
              else self in
  Ok (self, (M_dot_eff, dM_gas)).

(** *** Entrainment *)

Definition the_dust (d : Disc) : result Dust :=
  match dust d with
  | Some du => Ok du
  | None => Raise AttributeError
  end.

(** Equation 35 of Facchini et al. (2016), for an array [Mdot] of rates
    in Msun / yr. *)
Definition Facchini_limit (d : Disc) (Mdot : list Q) : result (list Q) :=
  h2r2 <- Np.broadcast (fun h r => h * h + r * r) (H d) (R d) ;;
  F <- Np.divide (H d) (map np_sqrt h2r2) ;;
  du <- the_dust d ;;
  let rho := _rho_s du in
  let Mstar := star_M d in
  let v_th := map (fun c => np_sqrt (8 / np_pi) * c) (cs d) in
  num <- Np.broadcast Qmult v_th Mdot ;;
  a_entr <- Np.divide num (map (fun f => Mstar * 4 * np_pi * f * rho) F) ;;
  Ok (map (fun a => a * (Msun / (AU * AU) / yr)) a_entr).

(** The fraction [f_ent] of [dust_entrainment], one entry per annulus
    that holds gas. *)
Definition entrained_fraction (self : Evap) (d : Disc) : result (list Q) :=
  du <- the_dust d ;;
  let a_ent := _amax self in
  let amax := snd (grain_size du) in
  let not_empty := Np.gt0 (Sigma_G d) in
  ones <- Np.bool_index (Np.ones_like amax) not_empty ;;
  ae <- Np.bool_index a_ent not_empty ;;
  am <- Np.bool_index amax not_empty ;;
  ratio <- Np.divide ae am ;;
  Np.broadcast Qmin ones (map (fun x => np_power x (4 - _p du)) ratio).

(** [M_dust.sum(0)], the dust mass of each annulus. *)
Definition dust_mass (d : Disc) : result (list Q) :=
  du <- the_dust d ;;
  let dA := annulus_areas d in
  M0 <- Np.broadcast Qmult (fst (Sigma_D du)) dA ;;
  M1 <- Np.broadcast Qmult (snd (Sigma_D du)) dA ;;
  Np.broadcast Qplus M0 M1.

Definition dust_entrainment (self : Evap) (d : Disc) : result (list Q) :=
  M_dust <- dust_mass d ;;
  let not_empty := Np.gt0 (Sigma_G d) in
  let M_ent := Np.zeros_like (Sigma d) in
  f_ent <- entrained_fraction self d ;;
  sel <- Np.bool_index M_dust not_empty ;;
  vals <- Np.broadcast Qmult sel f_ent ;;
  Np.mask_assign M_ent not_empty vals.

(** *** Weighted removal *)

(** The first dust block of [weighted_removal]: the split [f_m] between
    the two populations, the new [_amax] and the entrained mass. *)
Definition entrainment_setup (self : Evap) (d : Disc) (du : Dust) (dM_dot : list Q)
  : result (Evap * (list Q * list Q * list Q)) :=
  Sigma_D0 <- Np.broadcast Qplus (fst (Sigma_D du)) (snd (Sigma_D du)) ;;
  let not_dustless := Np.gt0 Sigma_D0 in
  e1 <- Np.bool_index (snd (dust_frac du)) not_dustless ;;
  idf <- Np.bool_index (integ_dust_frac du) not_dustless ;;
  q <- Np.divide e1 idf ;;
  f_m <- Np.mask_assign (Np.zeros_like (Sigma d)) not_dustless q ;;
  let tot := Np.sum dM_dot in
  amax <- Facchini_limit d
            (map (fun x => tot * bool_to_Q (Np.Qltb 0 x) * (yr / Msun)) dM_dot) ;;
  let self := set_amax self amax in
  M_ent <- dust_entrainment self d ;;
  Ok (self, (Sigma_D0, f_m, M_ent)).

(** [dM_evap = dM_dot * dt] and [disc._Sigma -= dM_evap / dA]. *)
Definition gas_loss (d : Disc) (dM_dot : list Q) (dt : Q)
  : result (list Q * list Q) :=
  let dA := annulus_areas d in
  let dM_evap := map (fun x => x * dt) dM_dot in
  q <- Np.divide dM_evap dA ;;
  Sigma1 <- Np.inplace Qminus (_Sigma d) q ;;
  Ok (dM_evap, Sigma1).

(** The second dust block: the entrained dust leaves in proportion to the
    gas lost, and the dust fractions are recomputed where surface density
    remains. *)
Definition dust_loss (d : Disc) (du : Dust) (Sigma1 dM_gas dM_evap : list Q)
  (pre : list Q * list Q * list Q) : result Disc :=
  let '(Sigma_D0, f_m, M_ent) := pre in
  let dA := annulus_areas d in
  let gas := Np.gt0 dM_gas in
  a <- Np.bool_index M_ent gas ;;
  b <- Np.bool_index dM_evap gas ;;
  c <- Np.bool_index dM_gas gas ;;
  ab <- Np.broadcast Qmult a b ;;
  q <- Np.divide ab c ;;
  M_ent_w <- Np.mask_assign (Np.zeros_like M_ent) gas q ;;
  lost <- Np.divide M_ent_w dA ;;
  Sigma2 <- Np.inplace Qminus Sigma1 lost ;;
  let not_empty := Np.gt0 Sigma2 in
  sd <- Np.bool_index Sigma_D0 not_empty ;;
  mw <- Np.bool_index M_ent_w not_empty ;;
  da <- Np.bool_index dA not_empty ;;
  l <- Np.divide mw da ;;
  new_Sigma_D <- Np.broadcast Qminus sd l ;;
  s2 <- Np.bool_index Sigma2 not_empty ;;
  ndf <- Np.divide new_Sigma_D s2 ;;
  new_dust_frac <- Np.mask_assign (Np.zeros_like Sigma2) not_empty ndf ;;
  nd <- Np.bool_index new_dust_frac not_empty ;;
  fm <- Np.bool_index f_m not_empty ;;
  v0 <- Np.broadcast (fun n f => n * (1 - f)) nd fm ;;
  eps0 <- Np.mask_assign (fst (_eps du)) not_empty v0 ;;
  v1 <- Np.broadcast Qmult nd fm ;;
  eps1 <- Np.mask_assign (snd (_eps du)) not_empty v1 ;;
  let du' := mkDust (Sigma_D du) (eps0, eps1) (integ_dust_frac du)
                    (grain_size du) (_p du) (_rho_s du)
                    (_Mwind_cum du + Np.sum M_ent_w) in
  Ok (set_dust (set_Sigma d Sigma2) du').

Definition weighted_removal (self : Evap) (d : Disc) (dt : Q) (Track : bool)
  : result (Evap * Disc) :=
  '(self, (dM_dot, dM_gas)) <- optically_thin_weighting self d Track ;;
  match dust d with
  | Some du =>
      '(self, pre) <- entrainment_setup self d du dM_dot ;;
      '(dM_evap, Sigma1) <- gas_loss d dM_dot dt ;;
      d' <- dust_loss d du Sigma1 dM_gas dM_evap pre ;;
      Ok (self, d')
  | None =>
      '(dM_evap, Sigma1) <- gas_loss d dM_dot dt ;;
      Ok (self, set_Sigma d Sigma1)
  end.

(** *** One step *)

(** The truth value of [self._Mdot > 0]; that of an array is defined only
    when it has one element. *)
Definition positive (f : pyfloats) : result bool :=
  match f with
  | Scalar q => Ok (Np.Qltb 0 q)
  | Array [x] => Ok (Np.Qltb 0 x)
  | Array _ => Raise ValueError
  end.

(** [__call__]. *)
Definition call (self : Evap) (d : Disc) (dt age : Q) : result (Evap * Disc) :=
  match cls self with
  | FixedExternalEvaporation =>
      go <- positive (_Mdot self) ;;
      if go then timescale_remove self d dt true else Ok (self, d)
  | FRIEDExternalEvaporationM _ => timescale_remove self d dt true
  | _ => weighted_removal self d dt false
  end.

End Engine.

(** ** Quantities of the statements *)

Section Quantities.
Context {E : Env}.

(** The depletion time of the outermost annulus, as [get_timescale]
    computes it: the last entry of [Dt]. *)
Definition outer_depletion_time (self : Evap) (d : Disc) : result Q :=
  '(_, (_, _, _, Dt)) <- get_timescale self d false ;;
  Np.getitem Dt (-1).

(** The number of annuli a step of [dt] empties: [np.sum(empty)]. *)
Definition emptied (Dt : list Q) (dt : Q) : nat :=
  Np.count (Np.gt0 (map (fun t => dt - t) Dt)).

(** The mass that left the surface density between [_Sigma d] and
    [Sigma']: the decrease of each annulus times its area, summed. *)
Definition removed_mass (d : Disc) (Sigma' : list Q) : Q :=
  Np.sum (Np.map2 Qmult (Np.map2 Qminus (_Sigma d) Sigma') (annulus_areas d)).

End Quantities.

(** Equation 35 for one annulus, as [Facchini_limit] evaluates it. *)
Definition Facchini_cell {E : Env} (h r c Mstar rho mdot : Q) : Q :=
  np_sqrt (8 / np_pi) * c * mdot
  / (Mstar * 4 * np_pi * (h / np_sqrt (h * h + r * r)) * rho)
  * (Msun / (AU * AU) / yr).

(** The entrained fraction of one annulus, as [dust_entrainment]
    evaluates it: the lower of all the dust and the share of the size
    distribution below the entrained size. *)
Definition fraction_of {E : Env} (p a g : Q) : Q :=
  Qmin 1 (np_power (a / g) (4 - p)).

(** The same disc around a star of another mass, or with grains of
    another internal density. *)
Definition set_star_M (d : Disc) (M : Q) : Disc :=
  mkDisc (R d) (R_edge d) (_Sigma d) (Sigma_G d) (H d) (cs d) M (FUV d) (dust d).

Definition set_rho_s (d : Disc) (du : Dust) (rho : Q) : Disc :=
  set_dust d (mkDust (Sigma_D du) (_eps du) (integ_dust_frac du) (grain_size du)
                     (_p du) rho (_Mwind_cum du)).

(** The raw rates of the annuli that hold gas are positive.  The fixed
    provider satisfies this whenever its rate is positive; for a table
    provider it is a property of the table. *)
Definition positive_rates {E : Env} (self : Evap) (d : Disc) : Prop :=
  forall (Track : bool) (self1 : Evap) (dM_evap dM_gas e : list Q),
    unweighted_rates self d Track = Ok (self1, (dM_evap, dM_gas)) ->
    Np.bool_index dM_evap (Np.gt0 (Sigma_G d)) = Ok e ->
    Forall (fun r => 0 < r) e.

(** No annulus loses more gas in the step than it holds: the weighted
    rate times [dt] is at most the surface density times the area. *)
Definition within_supply {E : Env} (d : Disc) (dM_dot : list Q) (dt : Q) : Prop :=
  forall i r s a,
    nth_error dM_dot i = Some r -> nth_error (_Sigma d) i = Some s ->
    nth_error (annulus_areas d) i = Some a ->
    r * dt <= s * a.

(** ** Predicates of the statements *)

(** An array that does not increase from the inner to the outer edge. *)
Definition nonincreasing (l : list Q) : Prop :=
  forall i j x y, (i <= j)%nat ->
                  nth_error l i = Some x -> nth_error l j = Some y -> y <= x.

(** A mask that, once true, stays true outwards. *)
Definition upward (m : list bool) : Prop :=
  forall i j, (i <= j)%nat -> (j < length m)%nat ->
              nth_error m i = Some true -> nth_error m j = Some true.

Definition zero (x : Q) : Prop := x == 0.

(** The shape the data contract gives a disc of N annuli: N + 1 edges, and
    N entries in the surface density arrays. *)
Definition wf_shape (d : Disc) : Prop :=
  length (R_edge d) = S (length (R d)) /\
  length (_Sigma d) = length (R d) /\
  length (Sigma_G d) = length (R d).

(** The edges increase outwards from a non-negative innermost edge. *)
Definition wf_edges (d : Disc) : Prop :=
  StronglySorted Qlt (R_edge d) /\ Forall (fun r => 0 <= r) (R_edge d).

(** What [final_rates[norate] = 1e-10] does to one entry. *)
Definition floor_nan (v : fval) : fval := if isnan v then Num 1e-10 else v.

(** [k] is the first position of the maximum of [a]. *)
Definition first_max (a : list Q) (k : nat) : Prop :=
  exists x, nth_error a k = Some x /\
            (forall j y, nth_error a j = Some y -> y <= x) /\
            (forall j y, (j < k)%nat -> nth_error a j = Some y -> y < x).

(** [k] is the last position of the maximum of [a]: the outermost annulus
    at which the array attains its global maximum. *)
Definition outermost_max (a : list Q) (k : nat) : Prop :=
  exists x, nth_error a k = Some x /\
            (forall j y, nth_error a j = Some y -> y <= x) /\
            (forall j y, (k < j)%nat -> nth_error a j = Some y -> y < x).

(** ** A concrete environment

    Closed statements need values for the parameters.  The unit constants
    are given their cgs values (the ratios computed below do not depend on
    them); [pi] is the double nearest to pi; the square root is taken on a
    grid of 2^-52 times the denominator, so it is exact on the square of a
    rational; the power is exact for an exponent that is a multiple of 1/2
    whenever the square root of the base is.  Every closed statement whose
    numbers depend on a square root or a power takes it at an argument
    where it is exact. *)

Definition Qsqrt (x : Q) : Q :=
  let y := Qred x in
  Qred (Z.sqrt (Qnum y * Zpos (Qden y) * 2 ^ 104) # (Qden y * 2 ^ 52)).

Definition Qpow_half (x y : Q) : Q :=
  let k := Qfloor (2 * y) in
  if Z.even k then Qpower x (k / 2) else Qpower x ((k - 1) / 2) * Qsqrt x.

Definition cgs : Env := {|
  AU := 1.496e13;
  Msun := 1.989e33;
  yr := 3.156e7;
  Mjup := 1.898e30;
  np_pi := 884279719003555 # 281474976710656;
  np_sqrt := Qsqrt;
  np_power := Qpow_half
|}.

(** ** Example inputs *)

(** A table that knows no rate beyond 10 AU. *)
Definition table_to_10AU (s r : Q) : fval :=
  if Qle_bool r 10 then Num (s * 1e-9) else NaN.

(** Four annuli, the third without gas, the fourth beyond the table. *)
Definition disc_gap : Disc :=
  mkDisc [1; 4; 9; 16] [0; 2; 6; 12; 20] [5; 1; 0; 2] [5; 1; 0; 2]
         [1; 1; 1; 1] [1; 1; 1; 1] 1 1000 None.

Definition fried_S_to_10AU : Evap :=
  mkEvap (FRIEDExternalEvaporationS table_to_10AU) (Array []) [0; 0; 0; 0].

Definition fried_M_to_10AU : Evap :=
  mkEvap (FRIEDExternalEvaporationM table_to_10AU) (Array []) [0; 0; 0; 0].

(** A table whose rate is the gas surface density, in 1e-8 Msun/yr. *)
Definition table_linear (s r : Q) : fval := Num (s * 1e-8).

Definition fried_S_linear : Evap :=
  mkEvap (FRIEDExternalEvaporationS table_linear) (Array []) [0; 0; 0; 0].

(** Four annuli whose raw rate has its maximum at the inner edge and a
    second, lower peak in the third annulus. *)
Definition disc_two_peaks : Disc :=
  mkDisc [1; 4; 9; 16] [0; 2; 6; 12; 20] [5; 1; 3; 2] [5; 1; 3; 2]
         [1; 1; 1; 1] [1; 1; 1; 1] 1 1000 None.

(** The first local maximum of an array met when it is walked from its
    last entry inwards, as the specification words the transition: the
    walk goes on while the next entry inwards is larger. *)
Fixpoint first_peak (a : list Q) : nat :=
  match a with
  | x :: (y :: _) as r => if Np.Qltb x y then S (first_peak r) else 0
  | _ => 0
  end.

Definition first_local_max_from_outside (Mdot : list Q) : Z :=
  (Np.size Mdot - Z.of_nat (first_peak (rev Mdot)) - 1)%Z.

(** Five annuli of uniform surface density 10 and the fixed provider at
    its default rate of 1e-8 Msun/yr. *)
Definition disc_uniform : Disc :=
  mkDisc [1.5; 2.5; 3.5; 4.5; 5.5] [1; 2; 3; 4; 5; 6]
         [10; 10; 10; 10; 10] [10; 10; 10; 10; 10]
         [1; 1; 1; 1; 1] [1; 1; 1; 1; 1] 1 1000 None.

Definition fixed_default : Evap :=
  mkEvap FixedExternalEvaporation (Scalar 1e-8) [10; 10; 10; 10; 10].

(** Four annuli whose raw rate, under [table_linear], has a single
    maximum in the second annulus. *)
Definition disc_peak : Disc :=
  mkDisc [1; 4; 9; 16] [0; 2; 6; 12; 20] [1; 5; 3; 2] [1; 5; 3; 2]
         [1; 1; 1; 1] [1; 1; 1; 1] 1 1000 None.

(** A dusty version of [disc_peak]: the second annulus carries no dust,
    and there the entrained size equals the largest grain size. *)
Definition dust_peak : Dust :=
  mkDust ([0.01; 0; 0.015; 0.01], [0.04; 0; 0.03; 0.02])
         ([0.01; 0; 0.005; 0.005], [0.04; 0; 0.01; 0.01])
         [0.05; 0; 0.015; 0.015]
         ([0.0001; 0.0001; 0.0001; 0.0001], [1; 4; 1; 1])
         3.5 1 0.

Definition dusty_peak : Disc :=
  mkDisc [1; 4; 9; 16] [0; 2; 6; 12; 20] [1; 5; 3; 2] [0.95; 5; 2.955; 1.97]
         [3; 3; 1; 1] [1; 1; 1; 1] 1 1000 (Some dust_peak).

(** A provider constructed with [amax = 4], and one whose [_amax] differs
    from annulus to annulus, as after an update by [Facchini_limit]. *)
Definition fried_S_amax4 : Evap :=
  mkEvap (FRIEDExternalEvaporationS table_linear) (Array []) [4; 4; 4; 4].

Definition fried_S_amax : Evap :=
  mkEvap (FRIEDExternalEvaporationS table_linear) (Array []) [0.25; 4; 9; 0].

(** ** The rest of the provider interface *)

Section Interface.
Context {E : Env}.

(** [FixedExternalEvaporation.__init__(disc, Mdot, amax)]. *)
Definition Fixed_init (d : Disc) (Mdot amax : Q) : Evap :=
  mkEvap FixedExternalEvaporation (Scalar Mdot)
         (map (fun o => amax * o) (Np.ones_like (R d))).

(** The [__init__] of a table provider of class [c], whose table has been
    built for the star and the UV flux of the disc; the argument [Mdot] of
    the constructor is not used, and the history starts empty. *)
Definition FRIED_init (c : (Q -> Q -> fval) -> Provider) (PE_rate : Q -> Q -> fval)
  (d : Disc) (amax : Q) : Evap :=
  mkEvap (c PE_rate) (Array []) (map (fun o => amax * o) (Np.ones_like (R d))).

(** [self._Mdot] as an operand of array arithmetic: a Python float is
    stretched like an array of one element. *)
Definition as_array (f : pyfloats) : list Q :=
  match f with
  | Scalar q => [q]
  | Array a => a
  end.

(** [max_size_entrained]: the fixed provider returns [_amax]; a table
    provider first replaces it by the Facchini limit at [self._Mdot]. *)
Definition max_size_entrained (self : Evap) (d : Disc) : result (Evap * list Q) :=
  match cls self with
  | FixedExternalEvaporation => Ok (self, _amax self)
  | _ =>
      a <- Facchini_limit d (as_array (_Mdot self)) ;;
      Ok (set_amax self a, a)
  end.

(** The rates of the fixed provider have one entry per annulus that
    holds gas. *)
Definition Fixed_rates (d : Disc) (q : Q) : list Q :=
  map (fun x => x * Msun / (2 * np_pi))
      (map (fun o => q * o)
           (Np.ones_like (Np.compress (Np.gt0 (Sigma_G d)) (Sigma d)))).

End Interface.

(** ** Predicates of the further statements *)

(** The provider [self'] is [self] with one more entry in its history. *)
Definition recorded_one (self self' : Evap) : Prop :=
  cls self' = cls self /\ _amax self' = _amax self /\
  exists v : Q, _Mdot self' = np_append (_Mdot self) v.

(** The grid, the scale height, the sound speed, the star and the UV
    field of the disc: what the engine reads and never writes. *)
Definition same_geometry (d d' : Disc) : Prop :=
  R d' = R d /\ R_edge d' = R_edge d /\
  H d' = H d /\ cs d' = cs d /\ star_M d' = star_M d /\ FUV d' = FUV d.

(** The same disc with another gas surface density. *)
Definition set_Sigma_G (d : Disc) (g : list Q) : Disc :=
  mkDisc (R d) (R_edge d) (_Sigma d) g (H d) (cs d) (star_M d) (FUV d) (dust d).

(** The dust mass a call adds to [_Mwind_cum]; a disc without dust
    records none. *)
Definition wind_gain (d d' : Disc) : Q :=
  match dust d, dust d' with
  | Some du, Some du' => _Mwind_cum du' - _Mwind_cum du
  | _, _ => 0
  end.

(** * Properties *)

(** ** Reasoning about results *)

Lemma bind_Ok {A B : Type} (r : result A) (k : A -> result B) (b : B) :
  bind r k = Ok b -> exists a, r = Ok a /\ k a = Ok b.
Proof. destruct r as [a|e]; simpl; intros Hk; [eauto | discriminate]. Qed.

Ltac inv_bind H :=
  let a := fresh "v" in
  let Ha := fresh "E" in
  apply bind_Ok in H; destruct H as (a & Ha & H).

Ltac inv_binds :=
  repeat match goal with
         | H : bind _ _ = Ok _ |- _ => inv_bind H
         | H : Ok _ = Ok _ |- _ => injection H as H; subst
         | H : Raise _ = Ok _ |- _ => discriminate H
         | H : (let '(_, _) := ?p in _) = Ok _ |- _ => destruct p
         end.

(** ** Facts about the numpy operations *)

Module NpFacts.
Import Np.

Lemma Qltb_lt (x y : Q) : Qltb x y = true <-> x < y.
Proof.
  unfold Qltb. rewrite negb_true_iff.
  split; intros Hxy.
  - apply Qnot_le_lt. intros Hle. apply Qle_bool_iff in Hle. congruence.
  - destruct (Qle_bool y x) eqn:Hb; auto.
    apply Qle_bool_iff in Hb. apply Qlt_not_le in Hxy. contradiction.
Qed.

Lemma Qltb_ge (x y : Q) : Qltb x y = false <-> y <= x.
Proof.
  unfold Qltb. rewrite negb_false_iff. apply Qle_bool_iff.
Qed.

Lemma map2_length {A B C : Type} (f : A -> B -> C) (a : list A) (b : list B) :
  length a = length b -> length (map2 f a b) = length a.
Proof.
  revert b. induction a as [|x a IH]; intros [|y b]; simpl; intros Hl;
    try discriminate; auto.
Qed.

Lemma map2_nth {A B C : Type} (f : A -> B -> C) (a : list A) (b : list B) i x y :
  nth_error a i = Some x -> nth_error b i = Some y ->
  nth_error (map2 f a b) i = Some (f x y).
Proof.
  revert b i. induction a as [|x0 a IH]; intros [|y0 b] [|i]; simpl;
    intros Hx Hy; try discriminate; try congruence.
  now apply IH.
Qed.

Lemma bool_index_Ok {A : Type} (a : list A) (m : list bool) (r : list A) :
  bool_index a m = Ok r -> length a = length m /\ r = compress m a.
Proof.
  unfold bool_index. destruct (Nat.eqb_spec (length a) (length m)); intros Hr;
    [injection Hr as <-; auto | discriminate].
Qed.

Lemma mask_set_Ok {A : Type} (a : list A) (m : list bool) (v : A) (r : list A) :
  mask_set a m v = Ok r ->
  length a = length m /\ r = map2 (fun (b : bool) x => if b then v else x) m a.
Proof.
  unfold mask_set. destruct (Nat.eqb_spec (length a) (length m)); intros Hr;
    [injection Hr as <-; auto | discriminate].
Qed.

Lemma mask_assign_Ok {A : Type} (a : list A) (m : list bool) (vals r : list A) :
  mask_assign a m vals = Ok r ->
  length a = length m /\ length vals = count m /\ r = scatter m a vals.
Proof.
  unfold mask_assign. destruct (Nat.eqb_spec (length a) (length m)); [|discriminate].
  destruct (Nat.eqb_spec (length vals) (count m)); intros Hr;
    [injection Hr as <-; auto | discriminate].
Qed.

Lemma compress_map2 {A B C : Type} (f : A -> B -> C) (m : list bool) a b :
  map2 f (compress m a) (compress m b) = compress m (map2 f a b).
Proof.
  revert a b. induction m as [|c m IH]; intros [|x a] [|y b]; simpl; auto.
  - destruct c; auto. destruct (compress m a); reflexivity.
  - destruct c; simpl; now rewrite IH.
Qed.

(** Laying the selected values back where they were taken from. *)
Lemma scatter_compress_true {A : Type} (m : list bool) (a v : list A) i x :
  length a = length m ->
  nth_error m i = Some true -> nth_error v i = Some x ->
  nth_error (scatter m a (compress m v)) i = Some x.
Proof.
  revert a v i. induction m as [|c m IH]; intros [|y a] [|z v] [|i]; simpl;
    intros Hl Hm Hv; try discriminate.
  - injection Hm as ->. congruence.
  - injection Hl as Hl. destruct c; simpl; eauto.
Qed.

Lemma scatter_false {A : Type} (m : list bool) (a vals : list A) i :
  nth_error m i = Some false ->
  nth_error (scatter m a vals) i = nth_error a i.
Proof.
  revert a vals i. induction m as [|c m IH]; intros [|y a] vals [|i]; simpl;
    intros Hm; try discriminate; try (destruct c; reflexivity).
  - injection Hm as ->. reflexivity.
  - destruct c; [destruct vals|]; simpl; eauto.
Qed.

End NpFacts.

Module SumFacts.
Import Np.

Lemma sum_app (a b : list Q) : sum (a ++ b) == sum a + sum b.
Proof.
  induction a as [|x a IH]; simpl; [ring | rewrite IH; ring].
Qed.

Lemma sum_zero (a : list Q) : Forall (fun x => x == 0) a -> sum a == 0.
Proof.
  induction 1 as [|x a Hx _ IH]; simpl; [reflexivity | rewrite Hx, IH; ring].
Qed.

Lemma sum_scale (a : list Q) (c : Q) : sum (map (fun x => x * c) a) == sum a * c.
Proof.
  induction a as [|x a IH]; simpl; [ring | rewrite IH; ring].
Qed.

(** The weighted entries add up to the selected ones over the divisor. *)
Lemma sum_masked_quotient (s : list Q) (m : list bool) (t : Q) :
  sum (map2 (fun w (b : bool) => w * bool_to_Q b) (map (fun x => x / t) s) m)
  == sum (compress m s) / t.
Proof.
  revert s. induction m as [|b m IH]; intros [|x s]; simpl;
    try (unfold Qdiv; ring).
  destruct b; simpl; rewrite IH; unfold Qdiv; ring.
Qed.

Lemma broadcast_same_length {A B C : Type} (f : A -> B -> C) (a : list A)
  (b : list B) :
  length a = length b -> broadcast f a b = Ok (map2 f a b).
Proof.
  intros Hl. unfold broadcast.
  destruct a as [|x [|x' a]], b as [|y [|y' b]]; simpl in *;
    try discriminate; try reflexivity.
  injection Hl as Hl. apply Nat.eqb_eq in Hl. rewrite Hl. reflexivity.
Qed.

Lemma inplace_same_length {A B : Type} (f : A -> B -> A) (a : list A)
  (b : list B) :
  length a = length b -> inplace f a b = Ok (map2 f a b).
Proof.
  intros Hl. unfold inplace.
  destruct b as [|y [|y' b]], a as [|x [|x' a]]; simpl in *;
    try discriminate; try reflexivity.
  injection Hl as Hl. apply Nat.eqb_eq in Hl. rewrite Hl. reflexivity.
Qed.

(** Division of an array by a scalar. *)
Lemma divide_scalar (s : list Q) (t : Q) (r : list Q) :
  divide s [t] = Ok r -> ~ t == 0 /\ r = map (fun x => x / t) s.
Proof.
  unfold divide. simpl. destruct (Qeq_bool t 0) eqn:Ht; simpl; [discriminate|].
  apply Qeq_bool_neq in Ht. intros Hr. split; [exact Ht|].
  destruct s as [|x [|x' s]]; simpl in Hr; injection Hr as <-; reflexivity.
Qed.

Lemma all_nonzero_Forall (a : list Q) :
  all_nonzero a = true <-> Forall (fun x => ~ x == 0) a.
Proof.
  induction a as [|x a IH]; simpl.
  - split; auto.
  - rewrite andb_true_iff, negb_true_iff, IH. split.
    + intros [Hx Ha]. constructor; auto. now apply Qeq_bool_neq.
    + intros Hf. inversion Hf as [|? ? Hx Ha]; subst. split; auto.
      destruct (Qeq_bool x 0) eqn:Hb; auto. apply Qeq_bool_iff in Hb. contradiction.
Qed.

Lemma divide_same_length (a b : list Q) :
  length a = length b -> Forall (fun x => ~ x == 0) b ->
  divide a b = Ok (map2 Qdiv a b).
Proof.
  intros Hl Hb. unfold divide.
  apply all_nonzero_Forall in Hb. rewrite Hb. now apply broadcast_same_length.
Qed.

Lemma sorted_nth (l : list Q) :
  StronglySorted Qlt l ->
  forall i j x y, (i < j)%nat -> nth_error l i = Some x -> nth_error l j = Some y ->
                  x < y.
Proof.
  induction 1 as [|a l Hs IH Hall]; intros i j x y Hij Hx Hy.
  - destruct i; discriminate.
  - destruct j as [|j]; [lia|]. simpl in Hy. destruct i as [|i]; simpl in Hx.
    + injection Hx as <-. rewrite Forall_forall in Hall.
      apply Hall. eapply nth_error_In; eauto.
    + apply (IH i j); auto. lia.
Qed.

End SumFacts.

Module ListFacts.
Import Np.

Lemma nth_error_ex {A : Type} (l : list A) (i : nat) :
  (i < length l)%nat -> exists x, nth_error l i = Some x.
Proof.
  intros Hi. destruct (nth_error l i) eqn:Hn; eauto.
  apply nth_error_None in Hn. lia.
Qed.

Lemma Forall_map2 {A B C : Type} (P : A -> Prop) (Q' : B -> Prop) (S : C -> Prop)
  (f : A -> B -> C) (a : list A) (b : list B) :
  (forall x y, P x -> Q' y -> S (f x y)) ->
  Forall P a -> Forall Q' b -> Forall S (map2 f a b).
Proof.
  intros Hf Ha. revert b. induction Ha as [|x a Hx Ha IH]; intros b Hb; simpl.
  - constructor.
  - destruct Hb as [|y b Hy Hb]; constructor; auto.
Qed.

Lemma Forall_True {A : Type} (a : list A) : Forall (fun _ => True) a.
Proof. induction a; constructor; auto. Qed.

Lemma pos_nonzero (a : list Q) :
  Forall (fun x => 0 < x) a -> Forall (fun x => ~ x == 0) a.
Proof.
  intros Ha. eapply Forall_impl; [|exact Ha]. intros x Hx Hz. simpl in Hx. lra.
Qed.

End ListFacts.

Module CompressFacts.
Import Np.

Lemma compress_length {A : Type} (m : list bool) (a : list A) :
  length a = length m -> length (compress m a) = count m.
Proof.
  revert a. induction m as [|b m IH]; intros [|x a]; simpl; intros Hl;
    try discriminate; auto.
  injection Hl as Hl. unfold count in *. destruct b; simpl; auto.
Qed.

Lemma compress_map {A B : Type} (f : A -> B) (m : list bool) (a : list A) :
  map f (compress m a) = compress m (map f a).
Proof.
  revert a. induction m as [|b m IH]; intros [|x a]; simpl; auto.
  destruct b; simpl; now rewrite IH.
Qed.

Lemma compress_Forall {A : Type} (P : A -> Prop) (m : list bool) (a : list A) :
  Forall P a -> Forall P (compress m a).
Proof.
  intros Ha. revert m. induction Ha as [|x a Hx Ha IH]; intros [|b m]; simpl;
    try constructor.
  destruct b; auto.
Qed.

Lemma compress_ones (m : list bool) (n : nat) (f : list Q) :
  n = length m -> length f = count m ->
  map2 Qmin (compress m (repeat 1 n)) f = map (Qmin 1) f.
Proof.
  intros -> . revert f. unfold count.
  induction m as [|b m IH]; intros f Hf; simpl in *.
  - destruct f; [reflexivity | discriminate].
  - destruct b; simpl in *; auto.
    destruct f as [|y f]; [discriminate|]. injection Hf as Hf.
    simpl. now rewrite IH.
Qed.

Lemma map2_map_r {A B C D : Type} (f : A -> C -> D) (g : B -> C)
  (a : list A) (b : list B) :
  map2 f a (map g b) = map2 (fun x y => f x (g y)) a b.
Proof.
  revert b. induction a as [|x a IH]; intros [|y b]; simpl; auto.
  now rewrite IH.
Qed.

Lemma map_map2 {A B C D : Type} (f : A -> B -> C) (g : C -> D)
  (a : list A) (b : list B) :
  map g (map2 f a b) = map2 (fun x y => g (f x y)) a b.
Proof.
  revert b. induction a as [|x a IH]; intros [|y b]; simpl; auto.
  now rewrite IH.
Qed.

End CompressFacts.

Module Cumulative.
Import Np.

Lemma sum_rev (l : list Q) : sum (rev l) == sum l.
Proof.
  induction l as [|x l IH]; simpl; [reflexivity|].
  rewrite SumFacts.sum_app, IH. simpl. ring.
Qed.

Lemma sum_nonneg (l : list Q) : Forall (fun x => 0 <= x) l -> 0 <= sum l.
Proof.
  induction 1 as [|x l Hx _ IH]; simpl; [discriminate | lra].
Qed.

Lemma cumsum_from_length (a : list Q) (acc : Q) :
  length (cumsum_from acc a) = length a.
Proof.
  revert acc. induction a as [|x a IH]; intros acc; simpl; auto.
Qed.

Lemma cumsum_length (a : list Q) : length (cumsum a) = length a.
Proof. destruct a; simpl; auto using cumsum_from_length. Qed.

Lemma cumsum_from_nth (a : list Q) :
  forall (acc : Q) (i : nat) (x : Q),
    nth_error (cumsum_from acc a) i = Some x ->
    x == acc + sum (firstn (S i) a).
Proof.
  induction a as [|y a IH]; intros acc i x Hx; [destruct i; discriminate|].
  destruct i as [|i]; simpl in Hx.
  - injection Hx as <-. simpl. ring.
  - apply IH in Hx. rewrite Hx. simpl. ring.
Qed.

Lemma cumsum_nth (a : list Q) (i : nat) (x : Q) :
  nth_error (cumsum a) i = Some x -> x == sum (firstn (S i) a).
Proof.
  destruct a as [|y a]; [destruct i; discriminate|].
  destruct i as [|i]; simpl; intros Hx.
  - injection Hx as <-. ring.
  - apply cumsum_from_nth in Hx. rewrite Hx. simpl. ring.
Qed.

(** An entry of the reversed cumulative sum is the sum of the entries
    from there outwards. *)
Lemma suffix_sum_nth (l : list Q) (i : nat) (x : Q) :
  nth_error (rev (cumsum (rev l))) i = Some x -> x == sum (skipn i l).
Proof.
  rewrite nth_error_rev, cumsum_length, length_rev.
  destruct (Nat.ltb_spec i (length l)) as [Hi|]; [|discriminate].
  intros Hx. apply cumsum_nth in Hx. rewrite Hx.
  replace (S (length l - S i)) with (length l - i)%nat by lia.
  rewrite firstn_rev, sum_rev. f_equiv. f_equal. lia.
Qed.

Lemma Forall_firstn {A : Type} (P : A -> Prop) (n : nat) (l : list A) :
  Forall P l -> Forall P (firstn n l).
Proof.
  intros Hl. revert n. induction Hl as [|x l Hx Hl IH]; intros [|n]; simpl;
    constructor; auto.
Qed.

Lemma Forall_skipn {A : Type} (P : A -> Prop) (n : nat) (l : list A) :
  Forall P l -> Forall P (skipn n l).
Proof.
  intros Hl. revert n. induction Hl as [|x l Hx Hl IH]; intros [|n]; simpl;
    auto.
Qed.

Lemma suffix_sum_nonincreasing (l : list Q) :
  Forall (fun x => 0 <= x) l -> nonincreasing (rev (cumsum (rev l))).
Proof.
  intros Hl i j x y Hij Hx Hy.
  apply suffix_sum_nth in Hx, Hy. rewrite Hx, Hy.
  replace j with ((j - i) + i)%nat by lia.
  rewrite <- skipn_skipn.
  rewrite <- (firstn_skipn (j - i) (skipn i l)) at 2.
  rewrite SumFacts.sum_app.
  assert (0 <= sum (firstn (j - i) (skipn i l))); [|lra].
  apply sum_nonneg. now apply Forall_firstn, Forall_skipn.
Qed.

End Cumulative.

(** ** The concrete environment obeys the laws *)

Lemma Qsqrt_pos (x : Q) : 0 < x -> 0 < Qsqrt x.
Proof.
  intros Hx. unfold Qsqrt. rewrite Qred_correct.
  rewrite <- (Qred_correct x) in Hx.
  destruct (Qred x) as [n d].
  assert (Hn : (0 < n)%Z) by (unfold Qlt in Hx; simpl in Hx; lia).
  unfold Qlt. cbn [Qnum Qden]. rewrite Z.mul_0_l, Z.mul_1_r.
  apply Z.sqrt_pos. apply Z.mul_pos_pos; [apply Z.mul_pos_pos; lia|].
  apply Z.pow_pos_nonneg; lia.
Qed.

Lemma cgs_laws : EnvLaws cgs.
Proof.
  constructor; try reflexivity. exact Qsqrt_pos.
Qed.

(** ** Annulus areas *)

Section Areas.
Context {E : Env} {L : EnvLaws E}.

Lemma areas_cons (a b : Q) (l : list Q) :
  Np.map2 (fun o i => np_pi * (o * o - i * i)) (tl (a :: b :: l))
          (removelast (a :: b :: l))
  = np_pi * (b * b - a * a)
    :: Np.map2 (fun o i => np_pi * (o * o - i * i)) (tl (b :: l))
               (removelast (b :: l)).
Proof. reflexivity. Qed.

Lemma areas_length (l : list Q) :
  length (Np.map2 (fun o i => np_pi * (o * o - i * i)) (tl l) (removelast l))
  = pred (length l).
Proof.
  destruct l as [|a l]; [reflexivity|].
  revert a. induction l as [|b l IH]; intros a; [reflexivity|].
  rewrite areas_cons. simpl length in *. now rewrite IH.
Qed.

Lemma areas_positive (l : list Q) :
  StronglySorted Qlt l -> Forall (fun r => 0 <= r) l ->
  Forall (fun a => 0 < a)
         (Np.map2 (fun o i => np_pi * (o * o - i * i)) (tl l) (removelast l)).
Proof.
  destruct l as [|a l]; [constructor|].
  revert a. induction l as [|b l IH]; intros a Hs Hp; [constructor|].
  rewrite areas_cons.
  inversion Hs as [|? ? Hs' Hall]; subst. inversion Hp as [|? ? Ha Hp']; subst.
  constructor; [|now apply IH].
  inversion Hall as [|? ? Hab _]; subst.
  pose proof pi_pos as Hpi.
  apply Qmult_lt_0_compat; [exact Hpi|].
  setoid_replace (b * b - a * a) with ((b - a) * (b + a)) by ring.
  apply Qmult_lt_0_compat; lra.
Qed.

Lemma scaled_edges_sorted (l : list Q) :
  StronglySorted Qlt l -> StronglySorted Qlt (map (fun r => r * AU) l).
Proof.
  pose proof AU_pos as HAU.
  induction 1 as [|a l Hs IH Hall]; simpl; constructor; auto.
  rewrite Forall_map. eapply Forall_impl; [|exact Hall].
  intros b Hab. simpl. now apply Qmult_lt_compat_r.
Qed.

Lemma scaled_edges_nonneg (l : list Q) :
  Forall (fun r => 0 <= r) l -> Forall (fun r => 0 <= r) (map (fun r => r * AU) l).
Proof.
  pose proof AU_pos as HAU. intros Hl. rewrite Forall_map.
  eapply Forall_impl; [|exact Hl]. intros b Hb. simpl in *.
  apply Qmult_le_0_compat; lra.
Qed.

Lemma annulus_areas_length (d : Disc) :
  length (annulus_areas d) = pred (length (R_edge d)).
Proof. unfold annulus_areas. now rewrite areas_length, length_map. Qed.

Lemma annulus_areas_positive (d : Disc) :
  wf_edges d -> Forall (fun a => 0 < a) (annulus_areas d).
Proof.
  intros [Hs Hp]. unfold annulus_areas.
  apply areas_positive; [now apply scaled_edges_sorted | now apply scaled_edges_nonneg].
Qed.

Lemma annulus_areas_nonzero (d : Disc) :
  wf_edges d -> Forall (fun a => ~ a == 0) (annulus_areas d).
Proof.
  intros Hd. eapply Forall_impl; [|now apply annulus_areas_positive].
  intros a Ha Hz. simpl in Ha. lra.
Qed.

End Areas.

(** ** Rate providers *)

Section Providers.
Context {E : Env}.

Lemma mass_loss_rate_table (self : Evap) (d : Disc) (mask : list bool)
  (t : Q -> Q -> fval) :
  table (cls self) = Some t ->
  mass_loss_rate self d mask =
  (key <- lookup_key (cls self) d ;; FRIED_mass_loss_rate t key d mask).
Proof.
  unfold mass_loss_rate, lookup_key.
  destruct (cls self); simpl; intros [=]; subst; reflexivity.
Qed.

Lemma floor_map2 (calc : list fval) :
  Np.map2 (fun (b : bool) x => if b then Num 1e-10 else x) (map isnan calc) calc
  = map floor_nan calc.
Proof. induction calc as [|v calc IH]; simpl; [|rewrite IH]; reflexivity. Qed.

Lemma floor_nan_defined (v : fval) : isnan (floor_nan v) = false.
Proof. destruct v; reflexivity. Qed.

(** What a table provider returns: the zero array, overwritten by the
    lookups where the mask is true, with every [nan] floored. *)
Lemma FRIED_mass_loss_rate_Ok (t : Q -> Q -> fval) (key : list Q) (d : Disc)
  (mask : list bool) (rates : list fval) :
  FRIED_mass_loss_rate t key d mask = Ok rates ->
  length key = length mask /\ length (R d) = length mask /\
  rates = map floor_nan
            (Np.scatter mask (map Num (Np.zeros_like (R d)))
                        (Np.compress mask (Np.map2 t key (R d)))).
Proof.
  unfold FRIED_mass_loss_rate. intros Hr. inv_binds.
  apply NpFacts.bool_index_Ok in E0, E1. destruct E0 as [Hk ->], E1 as [HR ->].
  apply NpFacts.mask_assign_Ok in E2. destruct E2 as (_ & _ & ->).
  apply NpFacts.mask_set_Ok in Hr. destruct Hr as [_ ->].
  rewrite floor_map2, NpFacts.compress_map2. auto.
Qed.

End Providers.

(** Wherever a table provider returns, it returns no [nan], and the
    undefined lookups have become the floor. *)
Lemma table_rates_floored (E : Env) (self : Evap) (d : Disc) (mask : list bool)
  (t : Q -> Q -> fval) (key : list Q) (rates : list fval) :
  table (cls self) = Some t ->
  lookup_key (cls self) d = Ok key ->
  mass_loss_rate self d mask = Ok rates ->
  Forall (fun v => isnan v = false) rates /\
  forall (i : nat) (k r : Q),
    nth_error mask i = Some true ->
    nth_error key i = Some k ->
    nth_error (R d) i = Some r ->
    t k r = NaN ->
    nth_error rates i = Some (Num 1e-10).
Proof.
  intros Ht Hkey Hr.
  rewrite (mass_loss_rate_table _ _ _ _ Ht), Hkey in Hr. simpl in Hr.
  apply FRIED_mass_loss_rate_Ok in Hr. destruct Hr as (Hk & HR & ->).
  split.
  - apply Forall_map, Forall_forall. intros v _. apply floor_nan_defined.
  - intros i k r Hm Hki Hri Hnan.
    rewrite nth_error_map.
    rewrite (NpFacts.scatter_compress_true _ _ _ i (t k r)); auto.
    + simpl. rewrite Hnan. reflexivity.
    + unfold Np.zeros_like, Np.zeros. now rewrite length_map, repeat_length.
    + now apply NpFacts.map2_nth.
Qed.

(** Wherever a table provider returns, an annulus without gas has the
    rate 0 it was initialised with. *)
Lemma table_rates_no_gas (E : Env) (self : Evap) (d : Disc)
  (t : Q -> Q -> fval) (rates : list fval) :
  table (cls self) = Some t ->
  mass_loss_rate self d (Np.gt0 (Sigma_G d)) = Ok rates ->
  forall (i : nat) (s : Q),
    nth_error (Sigma_G d) i = Some s -> s <= 0 ->
    nth_error rates i = Some (Num 0).
Proof.
  intros Ht Hr i s Hs Hle.
  rewrite (mass_loss_rate_table _ _ _ _ Ht) in Hr.
  inv_bind Hr. apply FRIED_mass_loss_rate_Ok in Hr. destruct Hr as (_ & HR & ->).
  assert (Hm : nth_error (Np.gt0 (Sigma_G d)) i = Some false).
  { unfold Np.gt0. rewrite nth_error_map, Hs. simpl. f_equal.
    now apply NpFacts.Qltb_ge. }
  rewrite nth_error_map, (NpFacts.scatter_false _ _ _ _ Hm), nth_error_map.
  assert (Hi : (i < length (R d))%nat).
  { rewrite HR. apply nth_error_Some. congruence. }
  unfold Np.zeros_like, Np.zeros.
  rewrite (nth_error_repeat 0 Hi). reflexivity.
Qed.

(** ** Table providers on a disc of the data contract *)

Section TableProviders.
Context {E : Env}.

Lemma bool_index_same_length {A : Type} (a : list A) (m : list bool) :
  length a = length m -> Np.bool_index a m = Ok (Np.compress m a).
Proof.
  intros Hl. unfold Np.bool_index. apply Nat.eqb_eq in Hl. now rewrite Hl.
Qed.

Lemma lookup_key_total (p : Provider) (d : Disc) :
  wf_shape d ->
  exists key, lookup_key p d = Ok key /\ length key = length (R d).
Proof.
  intros (He & _ & HG).
  assert (Hint : exists key, integ_mass d = Ok key /\ length key = length (R d)).
  { unfold integ_mass.
    rewrite SumFacts.broadcast_same_length
      by (rewrite annulus_areas_length, He; exact HG).
    simpl. eexists. split; [reflexivity|].
    rewrite length_map, Cumulative.cumsum_length, NpFacts.map2_length; auto.
    rewrite annulus_areas_length, He. exact HG. }
  destruct p; simpl; eauto.
Qed.

(** A table provider returns on every disc of the data contract, for
    every mask with one entry per annulus. *)
Lemma mass_loss_rate_table_total (self : Evap) (d : Disc) (mask : list bool)
  (t : Q -> Q -> fval) :
  table (cls self) = Some t -> wf_shape d -> length mask = length (R d) ->
  exists key rates,
    lookup_key (cls self) d = Ok key /\ mass_loss_rate self d mask = Ok rates.
Proof.
  intros Ht Hshape Hm.
  destruct (lookup_key_total (cls self) d Hshape) as (key & Hkey & Hlk).
  exists key. rewrite (mass_loss_rate_table _ _ _ _ Ht), Hkey. simpl.
  unfold FRIED_mass_loss_rate.
  rewrite !bool_index_same_length by congruence. simpl.
  unfold Np.mask_assign, Np.mask_set.
  assert (H0 : length (map Num (Np.zeros_like (R d))) = length mask).
  { unfold Np.zeros_like, Np.zeros. rewrite length_map, repeat_length. auto. }
  rewrite H0, Nat.eqb_refl.
  rewrite NpFacts.map2_length, CompressFacts.compress_length, Nat.eqb_refl;
    [| congruence | rewrite !CompressFacts.compress_length; congruence].
  simpl.
  rewrite length_map.
  assert (Hs : length (Np.scatter mask (map Num (Np.zeros_like (R d)))
                         (Np.map2 t (Np.compress mask key) (Np.compress mask (R d))))
               = length mask).
  { rewrite <- H0. generalize (map Num (Np.zeros_like (R d))).
    generalize (Np.map2 t (Np.compress mask key) (Np.compress mask (R d))).
    clear. induction mask as [|b m IH]; intros vals [|x a]; simpl; auto.
    - destruct b; reflexivity.
    - destruct b; [destruct vals|]; simpl; now rewrite IH. }
  rewrite Hs, Nat.eqb_refl. eauto.
Qed.

End TableProviders.

(** C7. On every disc of the data contract a table provider returns, and
    it never returns [nan]: wherever the lookup of an annulus selected by
    the mask is undefined, the rate returned for that annulus is the floor
    1e-10 Msun/yr, and no entry of the returned array is [nan]. *)
Theorem C7_undefined_lookup_floored :
  forall (E : Env) (self : Evap) (d : Disc) (not_empty : list bool)
         (t : Q -> Q -> fval),
    table (cls self) = Some t ->
    wf_shape d -> length not_empty = length (R d) ->
    exists (key : list Q) (rates : list fval),
      lookup_key (cls self) d = Ok key /\
      mass_loss_rate self d not_empty = Ok rates /\
      Forall (fun v => isnan v = false) rates /\
      forall (i : nat) (k r : Q),
        nth_error not_empty i = Some true ->
        nth_error key i = Some k ->
        nth_error (R d) i = Some r ->
        t k r = NaN ->
        nth_error rates i = Some (Num 1e-10).
Proof.
  intros E self d mask t Ht Hshape Hm.
  destruct (mass_loss_rate_table_total self d mask t Ht Hshape Hm)
    as (key & rates & Hkey & Hr).
  exists key, rates. split; [exact Hkey|]. split; [exact Hr|].
  exact (table_rates_floored E self d mask t key rates Ht Hkey Hr).
Qed.

Lemma C7_witness :
  exists rates : list fval,
    mass_loss_rate (E := cgs) fried_S_to_10AU disc_gap (Np.gt0 (Sigma_G disc_gap))
    = Ok rates /\
    Forall (fun v => isnan v = false) rates /\
    nth_error rates 3 = Some (Num 1e-10).
Proof.
  destruct (C7_undefined_lookup_floored cgs fried_S_to_10AU disc_gap
              (Np.gt0 (Sigma_G disc_gap)) table_to_10AU eq_refl)
    as (key & rates & Hkey & Hr & Hdef & Hfloor).
  - repeat split.
  - reflexivity.
  - exists rates. repeat split; auto.
    injection Hkey as <-. apply (Hfloor 3%nat 2 16); reflexivity.
Defined.

(** C10. On every disc of the data contract a table provider returns
    exactly 0, not the floor, for every annulus whose gas surface density
    is zero or negative: the mask [Sigma_G > 0] keeps such an annulus out
    of the lookup, and the zero it was initialised with is not [nan]. *)
Theorem C10_no_gas_rate_zero :
  forall (E : Env) (self : Evap) (d : Disc) (t : Q -> Q -> fval),
    table (cls self) = Some t ->
    wf_shape d ->
    exists rates : list fval,
      mass_loss_rate self d (Np.gt0 (Sigma_G d)) = Ok rates /\
      forall (i : nat) (s : Q),
        nth_error (Sigma_G d) i = Some s -> s <= 0 ->
        nth_error rates i = Some (Num 0).
Proof.
  intros E self d t Ht Hshape.
  assert (Hm : length (Np.gt0 (Sigma_G d)) = length (R d)).
  { unfold Np.gt0. rewrite length_map. apply Hshape. }
  destruct (mass_loss_rate_table_total self d _ t Ht Hshape Hm)
    as (key & rates & _ & Hr).
  exists rates. split; [exact Hr|].
  exact (table_rates_no_gas E self d t rates Ht Hr).
Qed.

Lemma C10_witness :
  exists rates : list fval,
    mass_loss_rate (E := cgs) fried_M_to_10AU disc_gap (Np.gt0 (Sigma_G disc_gap))
    = Ok rates /\
    nth_error rates 2 = Some (Num 0).
Proof.
  destruct (C10_no_gas_rate_zero cgs fried_M_to_10AU disc_gap table_to_10AU
              eq_refl) as (rates & Hr & Hzero).
  - repeat split.
  - exists rates. split; [exact Hr|].
    apply (Hzero 2%nat 0); [reflexivity | discriminate].
Defined.

(** ** The transition index *)

Module Argmax.
Import Np.

(** The scan either keeps the running best, or stops at the first entry
    of the rest that beats everything. *)
Lemma argmax_from_spec (a : list Q) :
  forall (best : Q) (ibest i : nat),
    (argmax_from best ibest i a = ibest /\
     forall j y, nth_error a j = Some y -> y <= best) \/
    (exists j x, argmax_from best ibest i a = (i + j)%nat /\
                 nth_error a j = Some x /\ best < x /\
                 (forall j' y, nth_error a j' = Some y -> y <= x) /\
                 (forall j' y, (j' < j)%nat -> nth_error a j' = Some y -> y < x)).
Proof.
  induction a as [|x r IH]; intros best ibest i; simpl.
  - left. split; [reflexivity|]. intros [|j] y Hy; discriminate.
  - destruct (Qltb best x) eqn:Hb.
    + apply NpFacts.Qltb_lt in Hb.
      destruct (IH x i (S i)) as [[Hk Hall] | (j & x' & Hk & Hj & Hlt & Hall & Hbefore)].
      * right. exists 0%nat, x. rewrite Hk. repeat split; auto with arith.
        -- intros [|j'] y Hy; simpl in Hy; [injection Hy as <-; lra | eauto].
        -- intros j' y Hj'. lia.
      * right. exists (S j), x'. rewrite Hk. repeat split; auto; try lia; try lra.
        -- intros [|j'] y Hy; simpl in Hy; [injection Hy as <-; lra | eauto].
        -- intros [|j'] y Hj' Hy; simpl in Hy; [injection Hy as <-; lra|].
           apply (Hbefore j'); auto; lia.
    + apply NpFacts.Qltb_ge in Hb.
      destruct (IH best ibest (S i)) as [[Hk Hall] | (j & x' & Hk & Hj & Hlt & Hall & Hbefore)].
      * left. split; auto.
        intros [|j'] y Hy; simpl in Hy; [injection Hy as <-; lra | eauto].
      * right. exists (S j), x'. rewrite Hk. repeat split; auto; try lia.
        -- intros [|j'] y Hy; simpl in Hy; [injection Hy as <-; lra | eauto].
        -- intros [|j'] y Hj' Hy; simpl in Hy; [injection Hy as <-; lra|].
           apply (Hbefore j'); auto; lia.
Qed.

Lemma argmax_spec (a : list Q) (k : nat) :
  argmax a = Ok k -> first_max a k.
Proof.
  destruct a as [|x r]; simpl; [discriminate|]. intros [= <-].
  destruct (argmax_from_spec r x 0%nat 1%nat)
    as [[Hk Hall] | (j & x' & Hk & Hj & Hlt & Hall & Hbefore)]; rewrite Hk.
  - exists x. repeat split; auto.
    + intros [|j] y Hy; simpl in Hy; [injection Hy as <-; lra | eauto].
    + intros j y Hj. lia.
  - exists x'. repeat split; auto.
    + intros [|j'] y Hy; simpl in Hy; [injection Hy as <-; lra | eauto].
    + intros [|j'] y Hj' Hy; simpl in Hy; [injection Hy as <-; lra|].
      apply (Hbefore j'); auto; lia.
Qed.

Lemma argmax_total (a : list Q) : a <> [] -> exists k, argmax a = Ok k.
Proof. destruct a; [congruence | simpl; eauto]. Qed.

End Argmax.

Lemma transition_index_spec (Mdot : list Q) (i : Z) :
  transition_index Mdot = Ok i ->
  (0 <= i < Np.size Mdot)%Z /\ outermost_max Mdot (Z.to_nat i).
Proof.
  unfold transition_index, Np.size. intros Hi. inv_binds.
  apply Argmax.argmax_spec in E. destruct E as (x & Hx & Hall & Hbefore).
  assert (Hv : (v < length Mdot)%nat).
  { rewrite <- length_rev. apply nth_error_Some. congruence. }
  assert (Hrev : forall j, (j < length Mdot)%nat ->
                           nth_error Mdot j = nth_error (rev Mdot) (length Mdot - S j)).
  { intros j Hj. rewrite nth_error_rev.
    destruct (Nat.ltb_spec (length Mdot - S j) (length Mdot)); [|lia].
    f_equal. lia. }
  split; [lia|].
  replace (Z.to_nat (Z.of_nat (length Mdot) - Z.of_nat v - 1))
    with (length Mdot - S v)%nat by lia.
  exists x. repeat split.
  - rewrite Hrev by lia. rewrite <- Hx. f_equal. lia.
  - intros j y Hy.
    assert (Hj : (j < length Mdot)%nat) by (apply nth_error_Some; congruence).
    rewrite Hrev in Hy by lia. eauto.
  - intros j y Hlt Hy.
    assert (Hj : (j < length Mdot)%nat) by (apply nth_error_Some; congruence).
    rewrite Hrev in Hy by lia. apply (Hbefore (length Mdot - S j)%nat); auto. lia.
Qed.

(** C5, as amended.  The transition index chosen by
    [optically_thin_weighting] exists whenever there is at least one raw
    rate, and it is the outermost annulus at which the raw rate attains its
    global maximum: no rate anywhere exceeds the rate there, and every rate
    further out is strictly smaller. *)
Theorem C5_transition_is_outermost_global_maximum :
  forall (E : Env) (self self' : Evap) (d : Disc) (Mdot dM_gas : list Q),
    unweighted_rates self d false = Ok (self', (Mdot, dM_gas)) ->
    Mdot <> [] ->
    exists i : Z,
      transition_index Mdot = Ok i /\
      (0 <= i < Np.size Mdot)%Z /\
      outermost_max Mdot (Z.to_nat i).
Proof.
  intros E self self' d Mdot dM_gas _ Hne.
  destruct (Argmax.argmax_total (rev Mdot)) as [k Hk].
  { intros Hnil. apply Hne. rewrite <- (rev_involutive Mdot), Hnil. reflexivity. }
  assert (Hi : transition_index Mdot
               = Ok (Np.size Mdot - Z.of_nat k - 1)%Z).
  { unfold transition_index. rewrite Hk. reflexivity. }
  eexists. split; [exact Hi|]. now apply transition_index_spec.
Qed.

(** C5 as stated fails: with raw rates 5, 1, 3, 2 (in 1e-8 Msun/yr) the
    first local maximum met from outside is the third annulus, and the
    index chosen is that of the first. *)
Lemma C5_counterexample :
  exists (self' : Evap) (Mdot dM_gas : list Q),
    unweighted_rates (E := cgs) fried_S_linear disc_two_peaks false
    = Ok (self', (Mdot, dM_gas)) /\
    transition_index Mdot = Ok 0%Z /\
    first_local_max_from_outside Mdot = 2%Z.
Proof.
  do 3 eexists. split; [vm_compute; reflexivity|].
  split; vm_compute; reflexivity.
Qed.

Lemma C5_witness :
  exists (Mdot : list Q) (i : Z),
    transition_index Mdot = Ok i /\ (0 <= i < Np.size Mdot)%Z /\
    outermost_max Mdot (Z.to_nat i).
Proof.
  destruct (unweighted_rates (E := cgs) fried_S_linear disc_two_peaks false)
    as [[self' [Mdot dM_gas]]|e] eqn:Hu; [|vm_compute in Hu; discriminate Hu].
  exists Mdot.
  apply (C5_transition_is_outermost_global_maximum cgs _ _ _ _ _ Hu).
  intros ->. vm_compute in Hu. discriminate Hu.
Defined.

(** ** Optically thin weighting *)

Section Weighting.
Context {E : Env}.

(** The weights in closed form. *)
Lemma ot_weights_Ok (d : Disc) (i : Z) (w : list Q) :
  ot_weights d i = Ok w ->
  exists (ot : list bool) (s : list Q),
    ot_radii d i = Ok ot /\
    length s = length ot /\
    ~ Np.sum (Np.compress ot s) == 0 /\
    w = Np.map2 (fun x (b : bool) => x * bool_to_Q b)
                (map (fun x => x / Np.sum (Np.compress ot s)) s) ot.
Proof.
  unfold ot_weights. intros Hw. inv_binds.
  rename v into ot, v0 into s, v1 into sel, v2 into sw.
  apply NpFacts.bool_index_Ok in E2. destruct E2 as [Hl ->].
  apply SumFacts.divide_scalar in E3. destruct E3 as [Hnz ->].
  rewrite SumFacts.inplace_same_length in Hw
    by now rewrite length_map.
  injection Hw as <-. exists ot, s. auto.
Qed.

Lemma ot_radii_sorted (d : Disc) (i : Z) (ot : list bool) :
  StronglySorted Qlt (R d) -> (0 <= i)%Z ->
  ot_radii d i = Ok ot ->
  forall j b, (j < Z.to_nat i)%nat -> nth_error ot j = Some b -> b = false.
Proof.
  intros Hs Hi. unfold ot_radii, Np.getitem, Np.py_index. intros Hot.
  inv_binds. rename v into r.
  destruct ((0 <=? i)%Z && (i <? Z.of_nat (length (R d)))%Z) eqn:Hin.
  2:{ destruct ((i <? 0)%Z && (- Z.of_nat (length (R d)) <=? i)%Z) eqn:Hneg.
      - apply andb_true_iff in Hneg. destruct Hneg as [Hneg _].
        apply Z.ltb_lt in Hneg. lia.
      - discriminate. }
  destruct (nth_error (R d) (Z.to_nat i)) as [r'|] eqn:Hr; [|discriminate].
  injection E0 as ->.
  intros j b Hj Hb. unfold Np.ge in Hb. rewrite nth_error_map in Hb.
  destruct (nth_error (R d) j) as [rj|] eqn:Hrj; [|discriminate].
  injection Hb as <-.
  assert (Hlt : rj < r) by (eapply SumFacts.sorted_nth; eauto).
  destruct (Qle_bool r rj) eqn:Hle; auto.
  apply Qle_bool_iff in Hle. lra.
Qed.

End Weighting.

(** C6. For a disc whose radii increase outwards, the weights computed by
    [optically_thin_weighting] sum to 1 over the annuli at or beyond the
    transition index, and the weight of every annulus strictly inside it
    is 0.  This holds for every raw rate array, in particular one with a
    single interior maximum. *)
Theorem C6_weights_normalised :
  forall (E : Env) (self self' : Evap) (d : Disc) (Mdot dM_gas w : list Q) (i : Z),
    StronglySorted Qlt (R d) ->
    unweighted_rates self d false = Ok (self', (Mdot, dM_gas)) ->
    transition_index Mdot = Ok i ->
    ot_weights d i = Ok w ->
    Np.sum (skipn (Z.to_nat i) w) == 1 /\
    forall (j : nat) (x : Q),
      (j < Z.to_nat i)%nat -> nth_error w j = Some x -> x == 0.
Proof.
  intros E self self' d Mdot dM_gas w i Hs _ Hi Hw.
  apply transition_index_spec in Hi. destruct Hi as [[Hi _] _].
  apply ot_weights_Ok in Hw. destruct Hw as (ot & s & Hot & Hl & Hnz & ->).
  pose proof (ot_radii_sorted d i ot Hs Hi Hot) as Hin.
  set (t := Np.sum (Np.compress ot s)) in *.
  set (w := Np.map2 _ _ ot).
  assert (Hzero : forall j x, (j < Z.to_nat i)%nat -> nth_error w j = Some x -> x == 0).
  { intros j x Hj Hx. subst w.
    assert (Hjw : (j < length ot)%nat).
    { assert (Hjw : Nat.lt j (length (Np.map2 (fun x (b : bool) => x * bool_to_Q b)
                                           (map (fun x => x / t) s) ot)))
        by (apply nth_error_Some; congruence).
      rewrite NpFacts.map2_length, length_map in Hjw by now rewrite length_map.
      lia. }
    destruct (nth_error ot j) as [b|] eqn:Hb; [|apply nth_error_None in Hb; lia].
    destruct (nth_error (map (fun x => x / t) s) j) as [y|] eqn:Hy.
    2:{ apply nth_error_None in Hy. rewrite length_map in Hy. lia. }
    rewrite (NpFacts.map2_nth _ _ _ _ _ _ Hy Hb) in Hx. injection Hx as <-.
    rewrite (Hin j b Hj Hb). simpl. ring. }
  split; [|exact Hzero].
  assert (Hall : Np.sum w == 1).
  { subst w. rewrite SumFacts.sum_masked_quotient. fold t. now field. }
  rewrite <- (firstn_skipn (Z.to_nat i) w), SumFacts.sum_app in Hall.
  rewrite SumFacts.sum_zero in Hall; [lra|].
  apply Forall_forall. intros x Hx. apply In_nth_error in Hx. destruct Hx as [j Hj].
  rewrite nth_error_firstn in Hj.
  destruct (Nat.ltb_spec j (Z.to_nat i)); [eauto | discriminate].
Qed.

Lemma C6_witness :
  exists w : list Q,
    ot_weights (E := cgs) disc_peak 1 = Ok w /\
    Np.sum (skipn 1 w) == 1 /\
    forall (j : nat) (x : Q), (j < 1)%nat -> nth_error w j = Some x -> x == 0.
Proof.
  destruct (unweighted_rates (E := cgs) fried_S_linear disc_peak false)
    as [[self' [Mdot dM_gas]]|e] eqn:Hu; [|vm_compute in Hu; discriminate Hu].
  destruct (ot_weights (E := cgs) disc_peak 1) as [w|e] eqn:Hw;
    [|vm_compute in Hw; discriminate Hw].
  exists w. split; [reflexivity|].
  apply (C6_weights_normalised cgs fried_S_linear self' disc_peak Mdot dM_gas w 1).
  - repeat constructor.
  - exact Hu.
  - vm_compute in Hu. injection Hu as _ <- _. vm_compute. reflexivity.
  - exact Hw.
Defined.

(** ** Weighted removal: the gas step *)

Section GasLoss.
Context {E : Env} {L : EnvLaws E}.

(** What leaves each annulus, times its area, is the rate times the step. *)
Lemma removed_sum (S0 r A : list Q) (dt : Q) :
  length S0 = length r -> length r = length A ->
  Forall (fun a => ~ a == 0) A ->
  Np.sum (Np.map2 Qmult
            (Np.map2 Qminus S0
               (Np.map2 Qminus S0 (Np.map2 Qdiv (map (fun x => x * dt) r) A)))
            A)
  == Np.sum r * dt.
Proof.
  revert r A. induction S0 as [|s S0 IH]; intros [|x r] [|a A] Hl1 Hl2 HA;
    simpl in *; try discriminate; try ring.
  inversion HA as [|? ? Ha HA']; subst.
  rewrite IH by (auto; lia). field. exact Ha.
Qed.

Lemma optically_thin_weighting_length (self self1 : Evap) (d : Disc)
  (Track : bool) (dM_dot dM_gas : list Q) :
  optically_thin_weighting self d Track = Ok (self1, (dM_dot, dM_gas)) ->
  length dM_dot = length (R d).
Proof.
  unfold optically_thin_weighting. intros Ho. inv_binds.
  apply ot_weights_Ok in E2. destruct E2 as (ot & s & Hot & Hl & _ & ->).
  rewrite length_map, NpFacts.map2_length, length_map by now rewrite length_map.
  rewrite Hl. unfold ot_radii in Hot. inv_binds.
  unfold Np.ge. now rewrite length_map.
Qed.

Lemma gas_loss_Ok (d : Disc) (dM_dot : list Q) (dt : Q) :
  wf_shape d -> wf_edges d -> length dM_dot = length (R d) ->
  gas_loss d dM_dot dt
  = Ok (map (fun x => x * dt) dM_dot,
        Np.map2 Qminus (_Sigma d)
                (Np.map2 Qdiv (map (fun x => x * dt) dM_dot) (annulus_areas d))).
Proof.
  intros (He & HS & HG) Hedges Hl. unfold gas_loss.
  assert (HA : length (annulus_areas d) = length (R d))
    by (rewrite annulus_areas_length, He; reflexivity).
  rewrite SumFacts.divide_same_length;
    [|rewrite length_map; congruence | now apply annulus_areas_nonzero].
  simpl. rewrite SumFacts.inplace_same_length; [reflexivity|].
  rewrite NpFacts.map2_length; rewrite length_map; congruence.
Qed.

End GasLoss.

(** C4. For every disc of the data contract and every [dt], the gas step
    of [weighted_removal] ([disc._Sigma -= dM_evap / dA]) succeeds, and the
    mass it takes out of the surface density, summed over the annuli,
    equals the sum of the optically thin weighted rates times [dt].  On a
    disc without dust this step is all that [weighted_removal] does to the
    surface density. *)
Theorem C4_gas_mass_removed :
  forall (E : Env) (L : EnvLaws E) (self self1 : Evap) (d : Disc) (dt : Q)
         (Track : bool) (dM_dot dM_gas : list Q),
    wf_shape d -> wf_edges d ->
    optically_thin_weighting self d Track = Ok (self1, (dM_dot, dM_gas)) ->
    exists dM_evap Sigma1 : list Q,
      gas_loss d dM_dot dt = Ok (dM_evap, Sigma1) /\
      removed_mass d Sigma1 == Np.sum dM_dot * dt /\
      (dust d = None ->
       weighted_removal self d dt Track = Ok (self1, set_Sigma d Sigma1)).
Proof.
  intros E L self self1 d dt Track dM_dot dM_gas Hshape Hedges Ho.
  pose proof (optically_thin_weighting_length _ _ _ _ _ _ Ho) as Hl.
  pose proof (gas_loss_Ok d dM_dot dt Hshape Hedges Hl) as Hg.
  do 2 eexists. split; [exact Hg|]. split.
  - unfold removed_mass. destruct Hshape as (He & HS & HG).
    apply removed_sum; [congruence| |now apply annulus_areas_nonzero].
    rewrite annulus_areas_length, He. exact Hl.
  - intros Hnd. unfold weighted_removal. rewrite Ho. simpl.
    rewrite Hnd, Hg. reflexivity.
Qed.

Lemma C4_witness :
  exists dM_dot dM_evap Sigma1 : list Q,
    gas_loss (E := cgs) disc_peak dM_dot 1000 = Ok (dM_evap, Sigma1) /\
    removed_mass (E := cgs) disc_peak Sigma1 == Np.sum dM_dot * 1000.
Proof.
  destruct (optically_thin_weighting (E := cgs) fried_S_linear disc_peak false)
    as [[self1 [dM_dot dM_gas]]|e] eqn:Ho; [|vm_compute in Ho; discriminate Ho].
  assert (Hshape : wf_shape disc_peak) by (repeat split).
  assert (Hedges : wf_edges disc_peak)
    by (split; repeat constructor; discriminate).
  destruct (C4_gas_mass_removed cgs cgs_laws _ _ _ 1000 _ _ _ Hshape Hedges Ho)
    as (dM_evap & Sigma1 & Hg & Hm & _).
  exists dM_dot, dM_evap, Sigma1. auto.
Defined.

(** *** The mass balance of a dusty disc *)

Section DustyBalance.
Context {E : Env} {L : EnvLaws E}.

Lemma scatter_length {A : Type} (m : list bool) (a vals : list A) :
  length (Np.scatter m a vals) = length a.
Proof.
  revert a vals. induction m as [|b m IH]; intros [|x a] vals; simpl; auto.
  - destruct b; reflexivity.
  - destruct b; [destruct vals|]; simpl; now rewrite IH.
Qed.

Lemma removed_sum_with_dust (S0 r M A : list Q) (dt : Q) :
  length S0 = length r -> length r = length A -> length M = length A ->
  Forall (fun a => ~ a == 0) A ->
  Np.sum (Np.map2 Qmult
            (Np.map2 Qminus S0
               (Np.map2 Qminus
                  (Np.map2 Qminus S0 (Np.map2 Qdiv (map (fun x => x * dt) r) A))
                  (Np.map2 Qdiv M A)))
            A)
  == Np.sum r * dt + Np.sum M.
Proof.
  revert r M A. induction S0 as [|s S0 IH]; intros [|x r] [|m M] [|a A] Hl1 Hl2 Hl3 HA;
    simpl in *; try discriminate; try ring.
  inversion HA as [|? ? Ha HA']; subst.
  rewrite IH by (auto; lia). field. exact Ha.
Qed.

Lemma dust_entrainment_length (self : Evap) (d : Disc) (M_ent : list Q) :
  dust_entrainment self d = Ok M_ent -> length M_ent = length (Sigma d).
Proof.
  unfold dust_entrainment. intros He. inv_binds.
  apply NpFacts.mask_assign_Ok in He. destruct He as (_ & _ & ->).
  rewrite scatter_length. unfold Np.zeros_like, Np.zeros. apply repeat_length.
Qed.

(** On a dusty disc the surface density loses, summed over the annuli,
    the gas of the step, [sum(rate) * dt], and the entrained dust that
    the call adds to [_Mwind_cum]; nothing else. *)
Lemma weighted_removal_mass_balance (self self1 self' : Evap) (d d' : Disc)
  (du : Dust) (dt : Q) (Track : bool) (dM_dot dM_gas : list Q) :
  wf_shape d -> wf_edges d -> dust d = Some du ->
  optically_thin_weighting self d Track = Ok (self1, (dM_dot, dM_gas)) ->
  weighted_removal self d dt Track = Ok (self', d') ->
  exists du' : Dust,
    dust d' = Some du' /\
    removed_mass d (_Sigma d')
    == Np.sum dM_dot * dt + (_Mwind_cum du' - _Mwind_cum du).
Proof.
  intros Hshape Hedges Hdu Ho Hw.
  pose proof (optically_thin_weighting_length _ _ _ _ _ _ Ho) as Hl.
  unfold weighted_removal in Hw. rewrite Ho in Hw. simpl in Hw.
  rewrite Hdu in Hw.
  inv_bind Hw. destruct v as [self2 [[Sigma_D0 f_m] M_ent]]. rename E0 into Hpre.
  assert (HlM : length M_ent = length (R d)).
  { clear Hw. unfold entrainment_setup in Hpre. inv_binds.
    match goal with
    | H : dust_entrainment _ _ = Ok _ |- _ =>
        rewrite (dust_entrainment_length _ _ _ H)
    end.
    apply Hshape. }
  clear Hpre.
  rewrite (gas_loss_Ok d dM_dot dt Hshape Hedges Hl) in Hw. simpl in Hw.
  inv_bind Hw. rename v into d2, E0 into Hloss. injection Hw as _ <-.
  destruct Hshape as (He & HS & HG).
  assert (HA : length (annulus_areas d) = length (R d))
    by (rewrite annulus_areas_length, He; reflexivity).
  unfold dust_loss in Hloss. inv_binds.
  match goal with
  | H : Np.mask_assign (Np.zeros_like M_ent) _ _ = Ok ?M |- _ =>
      apply NpFacts.mask_assign_Ok in H; destruct H as (_ & _ & HMw);
      assert (HlMw : length M = length (R d))
        by (rewrite HMw, scatter_length; unfold Np.zeros_like, Np.zeros;
            now rewrite repeat_length)
  end.
  clear HMw.
  match goal with
  | H : Np.divide _ (annulus_areas d) = Ok _ |- _ =>
      rewrite SumFacts.divide_same_length in H;
      [| congruence | now apply annulus_areas_nonzero]
  end.
  inv_binds.
  assert (Hlq : length (Np.map2 Qdiv (map (fun x => x * dt) dM_dot) (annulus_areas d))
                = length (R d))
    by (rewrite NpFacts.map2_length; rewrite length_map; congruence).
  match goal with
  | H : Np.inplace Qminus _ (Np.map2 Qdiv ?M _) = Ok _ |- _ =>
      assert (Hll : length (Np.map2 Qdiv M (annulus_areas d)) = length (R d))
        by (rewrite NpFacts.map2_length; congruence);
      rewrite SumFacts.inplace_same_length in H;
      [| rewrite NpFacts.map2_length; congruence]
  end.
  inv_binds.
  eexists. split; [reflexivity|]. simpl.
  unfold removed_mass. rewrite removed_sum_with_dust; try congruence.
  - ring.
  - now apply annulus_areas_nonzero.
Qed.

End DustyBalance.

(** ** The marginal annulus when something was emptied *)

Module Marginal.
Import Np.

Lemma count_cons (b : bool) (m : list bool) :
  count (b :: m) = ((if b then 1 else 0) + count m)%nat.
Proof. unfold count. destruct b; reflexivity. Qed.

Lemma count_le_length (m : list bool) : (count m <= length m)%nat.
Proof.
  induction m as [|b m IH]; [unfold count; simpl; lia|].
  rewrite count_cons. destruct b; simpl; lia.
Qed.

Lemma count_all_true (m : list bool) :
  (forall i, (i < length m)%nat -> nth_error m i = Some true) ->
  count m = length m.
Proof.
  induction m as [|b m IH]; intros Hall; [reflexivity|].
  rewrite count_cons.
  assert (Hb : b = true) by (specialize (Hall 0%nat); simpl in Hall;
                             assert (Some b = Some true) by (apply Hall; lia);
                             congruence).
  subst b. simpl. f_equal. apply IH. intros i Hi.
  apply (Hall (S i)). simpl. lia.
Qed.

(** Such a mask is false up to [length - count] and true from there on. *)
Lemma upward_threshold (m : list bool) :
  upward m ->
  forall i, (i < length m)%nat ->
            nth_error m i = Some (Nat.leb (length m - count m) i).
Proof.
  induction m as [|b m IH]; intros Hup i Hi; [simpl in Hi; lia|].
  assert (Hup' : upward m).
  { intros i' j' Hij Hj Hi'. apply (Hup (S i') (S j')); simpl; auto; lia. }
  destruct b.
  - assert (Hall : forall j, (j < length (true :: m))%nat ->
                             nth_error (true :: m) j = Some true).
    { intros j Hj. apply (Hup 0%nat j); auto; lia. }
    rewrite (count_all_true _ Hall), Nat.sub_diag. simpl Nat.leb. now apply Hall.
  - rewrite count_cons. simpl plus. pose proof (count_le_length m) as Hc.
    replace (length (false :: m) - count m)%nat
      with (S (length m - count m)) by (cbn [length]; lia).
    destruct i as [|i]; [reflexivity|].
    simpl. apply IH; auto. simpl in Hi. lia.
Qed.

Lemma getitem_from_end {A : Type} (a : list A) (j : nat) (x : A) :
  (0 < j)%nat -> getitem a (- Z.of_nat j) = Ok x ->
  (j <= length a)%nat /\ nth_error a (length a - j) = Some x.
Proof.
  intros Hj. unfold getitem, py_index.
  destruct (0 <=? - Z.of_nat j)%Z eqn:H0; [apply Z.leb_le in H0; lia|].
  simpl.
  destruct (- Z.of_nat j <? 0)%Z eqn:H1; [|apply Z.ltb_ge in H1; lia].
  simpl.
  destruct (- Z.of_nat (length a) <=? - Z.of_nat j)%Z eqn:H2; [|discriminate].
  apply Z.leb_le in H2.
  replace (Z.to_nat (Z.of_nat (length a) + - Z.of_nat j))
    with (length a - j)%nat by lia.
  destruct (nth_error a (length a - j)) eqn:Hn; [|discriminate].
  intros [= <-]. split; [lia | reflexivity].
Qed.

Lemma setitem_from_end {A : Type} (a : list A) (j : nat) (v : A) (r : list A) :
  (0 < j)%nat -> setitem a (- Z.of_nat j) v = Ok r ->
  r = firstn (length a - j) a ++ v :: skipn (S (length a - j)) a.
Proof.
  intros Hj. unfold setitem, py_index.
  destruct (0 <=? - Z.of_nat j)%Z eqn:H0; [apply Z.leb_le in H0; lia|].
  simpl.
  destruct (- Z.of_nat j <? 0)%Z eqn:H1; [|apply Z.ltb_ge in H1; lia].
  simpl.
  destruct (- Z.of_nat (length a) <=? - Z.of_nat j)%Z eqn:H2; [|discriminate].
  apply Z.leb_le in H2.
  replace (Z.to_nat (Z.of_nat (length a) + - Z.of_nat j))
    with (length a - j)%nat by lia.
  intros [= <-]. reflexivity.
Qed.

Lemma emptied_mask_upward (Dt : list Q) (dt : Q) :
  nonincreasing Dt -> upward (gt0 (map (fun t => dt - t) Dt)).
Proof.
  intros Hd i j Hij Hj. unfold gt0 in *. rewrite !length_map in Hj.
  rewrite !nth_error_map.
  destruct (nth_error Dt i) as [x|] eqn:Hx; [|discriminate].
  destruct (ListFacts.nth_error_ex Dt j Hj) as [y Hy]. rewrite Hy. simpl.
  intros [= Hb]. f_equal. apply NpFacts.Qltb_lt in Hb. apply NpFacts.Qltb_lt.
  pose proof (Hd i j x y Hij Hx Hy). lra.
Qed.

Lemma emptied_mask_nth (Dt : list Q) (dt : Q) (i : nat) (t : Q) :
  nth_error Dt i = Some t ->
  nth_error (gt0 (map (fun t => dt - t) Dt)) i = Some (Qltb 0 (dt - t)).
Proof. intros Ht. unfold gt0. rewrite !nth_error_map, Ht. reflexivity. Qed.

End Marginal.

Section Deplete.
Import Np.

Lemma qdiv_Ok (x y f : Q) : qdiv x y = Ok f -> ~ y == 0 /\ f = x / y.
Proof.
  unfold qdiv. destruct (Qeq_bool y 0) eqn:Hy; [discriminate|].
  apply Qeq_bool_neq in Hy. intros [= <-]. auto.
Qed.

(** When the depletion times do not increase outwards and the step
    empties at least one annulus, the marginal annulus keeps a
    non-negative share of its surface density. *)
Lemma deplete_nonneg (Sigma0 Dt : list Q) (n : nat) (dt : Q) (Sigma' : list Q) :
  nonincreasing Dt -> Forall (fun s => 0 <= s) Sigma0 ->
  (0 < emptied Dt dt)%nat ->
  deplete Sigma0 Dt n dt = Ok Sigma' ->
  Forall (fun s => 0 <= s) Sigma'.
Proof.
  intros Hd HS Hk. unfold deplete, emptied in *.
  set (excess := map (fun t => dt - t) Dt) in *.
  set (empty := gt0 excess) in *.
  set (k := count empty) in *.
  intros Hr. inv_bind Hr. rename v into Sigma1.
  apply NpFacts.mask_set_Ok in E. destruct E as [Hl ->].
  assert (HS1 : Forall (fun s => 0 <= s)
                  (map2 (fun (b : bool) x => if b then 0 else x) empty Sigma0)).
  { apply (ListFacts.Forall_map2 (fun _ => True) (fun s => 0 <= s));
      [|apply ListFacts.Forall_True | exact HS].
    intros b s _ Hs. destruct b; [discriminate | exact Hs]. }
  set (Sigma1 := map2 _ empty Sigma0) in *.
  assert (HlE : length empty = length Dt)
    by (unfold empty, gt0, excess; now rewrite !length_map).
  assert (Hl1 : length Sigma1 = length Dt).
  { unfold Sigma1. rewrite NpFacts.map2_length; congruence. }
  destruct (Nat.ltb k n); [|injection Hr as <-; exact HS1].
  replace (- (Z.of_nat k + 1))%Z with (- Z.of_nat (S k))%Z in Hr by lia.
  replace (- Z.of_nat (S k) + 1)%Z with (- Z.of_nat k)%Z in Hr by lia.
  inv_bind Hr. rename v into s, E into Hs.
  inv_bind Hr. rename v into x, E into Hx.
  inv_bind Hr. rename v into a, E into Ha.
  inv_bind Hr. rename v into b, E into Hb.
  inv_bind Hr. rename v into f, E into Hf.
  apply Marginal.getitem_from_end in Hs, Hx, Ha; try lia.
  apply Marginal.getitem_from_end in Hb; [|exact Hk].
  destruct Hs as [Hk1 Hs], Hx as [_ Hx], Ha as [_ Ha], Hb as [_ Hb].
  rewrite Hl1 in Hk1, Hs.
  unfold excess in Hx. rewrite length_map, nth_error_map, Ha in Hx.
  injection Hx as <-.
  pose proof (Marginal.upward_threshold empty
                (Marginal.emptied_mask_upward Dt dt Hd)) as Hth.
  fold excess empty k in Hth. rewrite HlE in Hth.
  assert (Hin : Qltb 0 (dt - a) = false).
  { specialize (Hth (length Dt - S k)%nat ltac:(lia)).
    unfold empty, excess in Hth.
    rewrite (Marginal.emptied_mask_nth Dt dt _ a Ha) in Hth.
    injection Hth as ->. apply Nat.leb_gt. lia. }
  assert (Hout : Qltb 0 (dt - b) = true).
  { specialize (Hth (length Dt - k)%nat ltac:(lia)).
    unfold empty, excess in Hth.
    rewrite (Marginal.emptied_mask_nth Dt dt _ b Hb) in Hth.
    injection Hth as ->. apply Nat.leb_le. lia. }
  apply NpFacts.Qltb_ge in Hin. apply NpFacts.Qltb_lt in Hout.
  apply qdiv_Ok in Hf. destruct Hf as [_ ->].
  apply Marginal.setitem_from_end in Hr; [|lia]. subst Sigma'.
  assert (Hs0 : 0 <= s).
  { rewrite Forall_forall in HS1. apply HS1. eapply nth_error_In; eauto. }
  apply Forall_app. split; [now apply Cumulative.Forall_firstn|].
  constructor; [|now apply Cumulative.Forall_skipn].
  apply Qmult_le_0_compat; [exact Hs0|].
  apply Qle_shift_div_l; lra.
Qed.

End Deplete.

(** ** The marginal annulus when nothing was emptied *)

Section Wrap.
Import Np.




End Wrap.

(** ** Depletion times of a disc *)

Section Timescales.
Context {E : Env} {L : EnvLaws E}.

Lemma unweighted_rates_untracked (self self1 : Evap) (d : Disc) (Track : bool)
  (x : list Q * list Q) :
  unweighted_rates self d Track = Ok (self1, x) ->
  unweighted_rates self d false = Ok (self, x).
Proof.
  unfold unweighted_rates. intros Hu.
  inv_bind Hu. rewrite E0. simpl.
  inv_bind Hu. rewrite E1. simpl.
  inv_bind Hu. rewrite E2. simpl.
  inv_bind Hu. injection Hu as _ <-. reflexivity.
Qed.

Lemma get_timescale_untracked (self self1 : Evap) (d : Disc) (Track : bool)
  (x : list Q * list Q * list Q * list Q) :
  get_timescale self d Track = Ok (self1, x) ->
  get_timescale self d false = Ok (self, x).
Proof.
  unfold get_timescale. intros Hg. inv_bind Hg.
  destruct v as [self0 [dM_evap dM_gas]].
  rewrite (unweighted_rates_untracked _ _ _ _ _ E0). simpl.
  inv_bind Hg. rewrite E1. simpl.
  inv_bind Hg. rewrite E2. simpl.
  inv_bind Hg. rewrite E3. simpl.
  inv_bind Hg. rewrite E4. simpl.
  inv_bind Hg. rewrite E5. simpl.
  injection Hg as _ <-. reflexivity.
Qed.

Lemma unweighted_rates_gas (self self1 : Evap) (d : Disc) (Track : bool)
  (dM_dot dM_gas : list Q) :
  wf_shape d ->
  unweighted_rates self d Track = Ok (self1, (dM_dot, dM_gas)) ->
  dM_gas = Np.map2 Qmult (Sigma_G d) (annulus_areas d).
Proof.
  intros (He & _ & HG). unfold unweighted_rates.
  rewrite SumFacts.broadcast_same_length
    by (rewrite annulus_areas_length, He; exact HG).
  simpl. intros Hu. inv_binds. reflexivity.
Qed.

(** The gas mass of an annulus selected by [Sigma_G > 0] is positive. *)
Lemma gas_mass_pos (S0 A : list Q) :
  Forall (fun a => 0 < a) A ->
  Forall (fun g => 0 < g) (Np.compress (Np.gt0 S0) (Np.map2 Qmult S0 A)).
Proof.
  intros HA. revert S0. induction HA as [|a A Ha HA IH]; intros [|s S0]; simpl;
    try constructor.
  destruct (Np.Qltb 0 s) eqn:Hs; [|apply IH].
  constructor; [|apply IH].
  apply NpFacts.Qltb_lt in Hs. now apply Qmult_lt_0_compat.
Qed.

(** With positive rates on a disc of the data contract, the cumulative
    depletion times do not increase outwards. *)
Lemma get_timescale_nonincreasing (self self1 : Evap) (d : Disc) (Track : bool)
  (ev g M Dt : list Q) :
  wf_shape d -> wf_edges d -> positive_rates self d ->
  get_timescale self d Track = Ok (self1, (ev, g, M, Dt)) ->
  nonincreasing Dt.
Proof.
  intros Hshape Hedges Hrates. unfold get_timescale. intros Hg.
  inv_bind Hg. destruct v as [self0 [dM_evap dM_gas]]. rename E0 into Hu.
  inv_bind Hg. rename v into sel_g, E0 into Hsg.
  inv_bind Hg. rename v into sel_e, E0 into Hse.
  inv_bind Hg. rename v into Dt_R, E0 into Hdiv.
  inv_bind Hg. rename v into Dt_R', E0 into Hpad.
  inv_bind Hg. injection Hg as _ _ _ _ <-.
  apply Cumulative.suffix_sum_nonincreasing.
  pose proof (Hrates Track self0 dM_evap dM_gas sel_e Hu Hse) as He.
  rewrite (unweighted_rates_gas _ _ _ _ _ _ Hshape Hu) in Hsg.
  apply NpFacts.bool_index_Ok in Hsg, Hse.
  destruct Hsg as [Hlg ->], Hse as [Hle ->].
  assert (Hgp := gas_mass_pos (Sigma_G d) (annulus_areas d)
                   (annulus_areas_positive d Hedges)).
  rewrite SumFacts.divide_same_length in Hdiv;
    [| rewrite !CompressFacts.compress_length; congruence
     | now apply ListFacts.pos_nonzero].
  injection Hdiv as <-.
  unfold Np.pad_zeros in Hpad.
  destruct (Nat.leb _ _); [|discriminate]. injection Hpad as <-.
  apply Forall_app. split.
  - apply (ListFacts.Forall_map2 (fun x => 0 < x) (fun y => 0 < y));
      [|exact Hgp | exact He].
    intros x y Hx Hy. simpl in *. apply Qle_shift_div_l; lra.
  - unfold Np.zeros. apply Forall_forall. intros z Hz.
    apply repeat_spec in Hz. subst z. discriminate.
Qed.

Lemma count_pos (m : list bool) (i : nat) :
  nth_error m i = Some true -> (0 < Np.count m)%nat.
Proof.
  revert i. induction m as [|b m IH]; intros [|i] Hi; simpl in Hi;
    try discriminate; rewrite Marginal.count_cons.
  - injection Hi as ->. lia.
  - apply IH in Hi. lia.
Qed.

(** A step longer than the depletion time of the outermost annulus
    empties at least that annulus. *)
Lemma outer_time_emptied (Dt : list Q) (t dt : Q) :
  Np.getitem Dt (-1) = Ok t -> t < dt -> (0 < emptied Dt dt)%nat.
Proof.
  intros Ht Hlt.
  apply (Marginal.getitem_from_end Dt 1%nat) in Ht; [|lia].
  destruct Ht as [_ Ht]. unfold emptied.
  apply (count_pos _ (length Dt - 1)%nat).
  rewrite (Marginal.emptied_mask_nth Dt dt _ t Ht). f_equal.
  apply NpFacts.Qltb_lt. lra.
Qed.

Lemma finite_map_Num (r : list Q) : finite (map Num r) = Ok r.
Proof. induction r as [|x r IH]; simpl; [|rewrite IH]; reflexivity. Qed.

(** The fixed provider with a positive rate has positive rates. *)
Lemma Fixed_positive_rates (self : Evap) (d : Disc) (q : Q) :
  cls self = FixedExternalEvaporation -> _Mdot self = Scalar q -> 0 < q ->
  positive_rates self d.
Proof.
  intros Hc Hq Hpos Track self1 dM_evap dM_gas e Hu He.
  pose proof pi_pos as Hpi. pose proof Msun_pos as HMs.
  unfold unweighted_rates, mass_loss_rate, Fixed_mass_loss_rate in Hu.
  rewrite Hc, Hq in Hu.
  inv_binds. rename v1 into rates, E2 into Hfin.
  rewrite finite_map_Num in Hfin. injection Hfin as <-.
  apply NpFacts.bool_index_Ok in He. destruct He as [_ ->].
  apply CompressFacts.compress_Forall.
  rewrite !Forall_map. apply Forall_forall. intros o Ho.
  unfold Np.ones_like in Ho. apply repeat_spec in Ho. subst o.
  apply Qlt_shift_div_l; [lra|].
  setoid_replace (0 * (2 * np_pi)) with 0 by ring.
  apply Qmult_lt_0_compat; lra.
Qed.

End Timescales.

(** ** The marginal annulus of [timescale_remove] *)

(** C2 fails on the program.  Five annuli of surface density 10, the
    fixed provider at 1e-8 Msun/yr, and a step of half the depletion time
    of the outermost annulus: no annulus is emptied, so the marginal
    annulus is the outermost one, [half_empty] is -1, and [half_empty + 1]
    is 0, the innermost annulus.  The outermost surface density is scaled by
    [(Dt[-1] - dt) / (Dt[-1] - Dt[0])] and ends at -55/24, not at 5; the
    interior annuli are unchanged. *)
Theorem C2_half_step_outermost_goes_negative :
  exists (t : Q) (self' : Evap) (d' : Disc),
    outer_depletion_time (E := cgs) fixed_default disc_uniform = Ok t /\
    0 < t /\
    timescale_remove (E := cgs) fixed_default disc_uniform (t / 2) true
    = Ok (self', d') /\
    Forall2 Qeq (_Sigma d') [10; 10; 10; 10; - (55 # 24)].
Proof.
  do 3 eexists. split; [vm_compute; reflexivity|].
  split; [reflexivity|].
  split; [vm_compute; reflexivity|].
  repeat constructor.
Qed.

(** C3 fails on the program for [timescale_remove].  The same disc and
    provider with [dt = 0]: the outermost surface density is scaled by
    [Dt[-1] / (Dt[-1] - Dt[0])] and ends at -55/12 instead of staying
    at 10. *)
Theorem C3_zero_step_changes_outermost :
  exists (self' : Evap) (d' : Disc),
    timescale_remove (E := cgs) fixed_default disc_uniform 0 true
    = Ok (self', d') /\
    Forall2 Qeq (_Sigma d') [10; 10; 10; 10; - (55 # 12)].
Proof.
  do 2 eexists. split; [vm_compute; reflexivity|].
  repeat constructor.
Qed.

(** ** Surface density after a removal *)

Section Removal.
Context {E : Env} {L : EnvLaws E}.

Lemma map2_nth_inv {A B C : Type} (f : A -> B -> C) (a : list A) (b : list B)
  (i : nat) (z : C) :
  nth_error (Np.map2 f a b) i = Some z ->
  exists x y, nth_error a i = Some x /\ nth_error b i = Some y /\ z = f x y.
Proof.
  revert b i. induction a as [|x a IH]; intros [|y b] [|i]; simpl; intros Hz;
    try discriminate.
  - injection Hz as <-. eauto.
  - now apply IH.
Qed.

Lemma timescale_remove_nonneg (self self' : Evap) (d d' : Disc) (dt t : Q)
  (Track : bool) :
  wf_shape d -> wf_edges d ->
  Forall (fun s => 0 <= s) (_Sigma d) ->
  positive_rates self d ->
  outer_depletion_time self d = Ok t -> t < dt ->
  timescale_remove self d dt Track = Ok (self', d') ->
  Forall (fun s => 0 <= s) (_Sigma d').
Proof.
  intros Hshape Hedges HS Hrates Ht Hlt. unfold timescale_remove. intros Hr.
  inv_bind Hr. destruct v as [self1 [[[ev g] M] Dt]]. rename E0 into Hg.
  inv_bind Hr. injection Hr as _ <-. simpl.
  unfold outer_depletion_time in Ht.
  rewrite (get_timescale_untracked _ _ _ _ _ Hg) in Ht. simpl in Ht.
  eapply deplete_nonneg; eauto.
  - eapply get_timescale_nonincreasing; eauto.
  - eapply outer_time_emptied; eauto.
Qed.

Lemma weighted_removal_nonneg_iff (self self1 self' : Evap) (d d' : Disc) (dt : Q)
  (Track : bool) (dM_dot dM_gas : list Q) :
  wf_shape d -> wf_edges d -> dust d = None ->
  optically_thin_weighting self d Track = Ok (self1, (dM_dot, dM_gas)) ->
  weighted_removal self d dt Track = Ok (self', d') ->
  Forall (fun s => 0 <= s) (_Sigma d') <-> within_supply d dM_dot dt.
Proof.
  intros Hshape Hedges Hnd Ho Hw.
  pose proof (optically_thin_weighting_length _ _ _ _ _ _ Ho) as Hl.
  unfold weighted_removal in Hw. rewrite Ho in Hw. simpl in Hw.
  rewrite Hnd, (gas_loss_Ok d dM_dot dt Hshape Hedges Hl) in Hw.
  simpl in Hw. injection Hw as _ <-. simpl.
  pose proof (annulus_areas_positive d Hedges) as HA.
  rewrite Forall_forall in HA.
  split.
  - intros HF i r s a Hr Hs Ha.
    assert (Hq : nth_error (Np.map2 Qdiv (map (fun x => x * dt) dM_dot)
                              (annulus_areas d)) i = Some (r * dt / a)).
    { apply (NpFacts.map2_nth Qdiv); [|exact Ha].
      rewrite nth_error_map, Hr. reflexivity. }
    pose proof (NpFacts.map2_nth Qminus _ _ _ _ _ Hs Hq) as Hn.
    rewrite Forall_forall in HF. apply nth_error_In, HF in Hn.
    assert (Hap : 0 < a) by (eapply HA, nth_error_In; eauto).
    assert (Heq : r * dt == r * dt / a * a) by (field; lra).
    rewrite Heq. clear Heq Hq.
    set (q := r * dt / a) in *. clearbody q.
    apply Qmult_le_compat_r; lra.
  - intros Hsup. apply Forall_forall. intros z Hz.
    apply In_nth_error in Hz. destruct Hz as [i Hz].
    apply map2_nth_inv in Hz. destruct Hz as (s & q & Hs & Hq & ->).
    apply map2_nth_inv in Hq. destruct Hq as (x & a & Hx & Ha & ->).
    rewrite nth_error_map in Hx.
    destruct (nth_error dM_dot i) as [r|] eqn:Hr; [|discriminate].
    injection Hx as <-.
    assert (Hap : 0 < a) by (eapply HA, nth_error_In; eauto).
    pose proof (Hsup i r s a Hr Hs Ha) as Hle.
    assert (Hq : r * dt / a <= s) by (apply Qle_shift_div_r; auto).
    set (q := r * dt / a) in *. clearbody q. lra.
Qed.

End Removal.

(** C1, as amended.  On a disc of the data contract with non-negative
    surface density: after [timescale_remove] every entry of the surface
    density is non-negative when the raw rates of the annuli holding gas
    are positive and the step is longer than the depletion time of the
    outermost annulus (so that at least one annulus is emptied); after
    [weighted_removal] on a disc without dust every entry is non-negative
    exactly when no annulus loses more gas in the step than it holds,
    [rate * dt <= Sigma * area], since nothing clamps the subtraction. *)
Theorem C1_density_nonnegative_within_supply :
  forall (E : Env) (L : EnvLaws E) (self self' : Evap) (d d' : Disc) (dt : Q)
         (Track : bool),
    wf_shape d -> wf_edges d ->
    Forall (fun s => 0 <= s) (_Sigma d) ->
    (forall t : Q,
        positive_rates self d ->
        outer_depletion_time self d = Ok t -> t < dt ->
        timescale_remove self d dt Track = Ok (self', d') ->
        Forall (fun s => 0 <= s) (_Sigma d')) /\
    (forall (self1 : Evap) (dM_dot dM_gas : list Q),
        dust d = None ->
        optically_thin_weighting self d Track = Ok (self1, (dM_dot, dM_gas)) ->
        weighted_removal self d dt Track = Ok (self', d') ->
        (Forall (fun s => 0 <= s) (_Sigma d') <-> within_supply d dM_dot dt)).
Proof.
  intros E L self self' d d' dt Track Hshape Hedges HS. split.
  - intros t Hrates Ht Hlt Hr. eapply timescale_remove_nonneg; eauto.
  - intros self1 dM_dot dM_gas Hnd Ho Hw.
    eapply weighted_removal_nonneg_iff; eauto.
Qed.

(** C1 as stated fails: [weighted_removal] subtracts [rate * dt / area]
    without a clamp, and a step of 1e6 dynamical times takes the outermost
    annulus of [disc_peak] below zero. *)
Lemma C1_counterexample :
  exists (self' : Evap) (d' : Disc) (s : Q),
    0 <= 1e6 /\
    Forall (fun s => 0 <= s) (_Sigma disc_peak) /\
    weighted_removal (E := cgs) fried_S_linear disc_peak 1e6 false
    = Ok (self', d') /\
    nth_error (_Sigma d') 3 = Some s /\ s < 0.
Proof.
  do 3 eexists. split; [discriminate|].
  split; [repeat constructor; discriminate|].
  split; [vm_compute; reflexivity|].
  split; reflexivity.
Qed.

Lemma C1_witness :
  (exists (self' : Evap) (d' : Disc),
      timescale_remove (E := cgs) fixed_default disc_uniform 30000 true
      = Ok (self', d') /\
      Forall (fun s => 0 <= s) (_Sigma d')) /\
  (exists (self' : Evap) (d' : Disc) (dM_dot : list Q),
      weighted_removal (E := cgs) fried_S_linear disc_peak 1 false
      = Ok (self', d') /\
      within_supply (E := cgs) disc_peak dM_dot 1).
Proof.
  split.
  - destruct (timescale_remove (E := cgs) fixed_default disc_uniform 30000 true)
      as [[self' d']|e] eqn:Hr; [|vm_compute in Hr; discriminate Hr].
    destruct (outer_depletion_time (E := cgs) fixed_default disc_uniform)
      as [t|e] eqn:Ht; [|vm_compute in Ht; discriminate Ht].
    assert (Hlt : t < 30000)
      by (vm_compute in Ht; injection Ht as <-; reflexivity).
    assert (Hshape : wf_shape disc_uniform) by (repeat split).
    assert (Hedges : wf_edges disc_uniform)
      by (split; repeat constructor; discriminate).
    assert (HS : Forall (fun s => 0 <= s) (_Sigma disc_uniform))
      by (repeat constructor; discriminate).
    destruct (C1_density_nonnegative_within_supply cgs cgs_laws fixed_default
                self' disc_uniform d' 30000 true Hshape Hedges HS) as [Ha _].
    exists self', d'. split; [reflexivity|].
    apply (Ha t); auto.
    apply (Fixed_positive_rates (L := cgs_laws) fixed_default disc_uniform 1e-8);
      reflexivity.
  - destruct (optically_thin_weighting (E := cgs) fried_S_linear disc_peak false)
      as [[self1 [dM_dot dM_gas]]|e] eqn:Ho; [|vm_compute in Ho; discriminate Ho].
    destruct (weighted_removal (E := cgs) fried_S_linear disc_peak 1 false)
      as [[self' d']|e] eqn:Hw; [|vm_compute in Hw; discriminate Hw].
    assert (Hshape : wf_shape disc_peak) by (repeat split).
    assert (Hedges : wf_edges disc_peak)
      by (split; repeat constructor; discriminate).
    assert (HS : Forall (fun s => 0 <= s) (_Sigma disc_peak))
      by (repeat constructor; discriminate).
    destruct (C1_density_nonnegative_within_supply cgs cgs_laws fried_S_linear
                self' disc_peak d' 1 false Hshape Hedges HS) as [_ Hb].
    exists self', d', dM_dot. split; [reflexivity|].
    apply (Hb self1 dM_dot dM_gas eq_refl Ho Hw).
    vm_compute in Hw. injection Hw as _ <-.
    repeat constructor; discriminate.
Defined.

(** ** A step of length zero under [weighted_removal] *)

Module ZeroStep.
Import Np.


Lemma zeros_zero (n : nat) : Forall zero (zeros n).
Proof.
  unfold zeros. apply Forall_forall. intros x Hx.
  apply repeat_spec in Hx. subst x. reflexivity.
Qed.






End ZeroStep.

Section ZeroStepRemoval.
Context {E : Env}.




End ZeroStepRemoval.

(** ** The Facchini limit *)

Section Facchini.
Context {E : Env} {L : EnvLaws E}.

Lemma Facchini_cell_pos_coeff (h r c Mstar rho : Q) :
  0 < h -> 0 < c -> 0 < Mstar -> 0 < rho ->
  0 < np_sqrt (8 / np_pi) * c /\
  0 < h / np_sqrt (h * h + r * r) /\
  0 < Msun / (AU * AU) / yr.
Proof.
  intros Hh Hc HM Hrho.
  pose proof pi_pos as Hpi. pose proof AU_pos as HAU.
  pose proof Msun_pos as HMs. pose proof yr_pos as Hyr.
  assert (Hs8 : 0 < np_sqrt (8 / np_pi)).
  { apply sqrt_pos. apply Qlt_shift_div_l; lra. }
  assert (Hhr : 0 < h * h + r * r).
  { assert (0 < h * h) by (apply Qmult_lt_0_compat; lra).
    assert (0 <= r * r) by nra. lra. }
  pose proof (sqrt_pos _ Hhr) as Hsq.
  repeat split.
  - apply Qmult_lt_0_compat; lra.
  - apply Qlt_shift_div_l; lra.
  - apply Qlt_shift_div_l; [lra|]. apply Qlt_shift_div_l; [|lra].
    apply Qmult_lt_0_compat; lra.
Qed.

(** The three monotonicities of one annulus. *)
Lemma Facchini_cell_Mdot (h r c Mstar rho m1 m2 : Q) :
  0 < h -> 0 < c -> 0 < Mstar -> 0 < rho -> m1 < m2 ->
  Facchini_cell h r c Mstar rho m1 < Facchini_cell h r c Mstar rho m2.
Proof.
  intros Hh Hc HM Hrho Hm.
  destruct (Facchini_cell_pos_coeff h r c Mstar rho Hh Hc HM Hrho)
    as (HA & HF & Hk).
  unfold Facchini_cell.
  set (A := np_sqrt (8 / np_pi) * c) in *.
  set (F := h / np_sqrt (h * h + r * r)) in *.
  set (k := Msun / (AU * AU) / yr) in *.
  clearbody A F k.
  pose proof pi_pos as Hpi.
  assert (HD : 0 < Mstar * 4 * np_pi * F * rho)
    by (repeat apply Qmult_lt_0_compat; lra).
  apply Qmult_lt_compat_r; [exact Hk|].
  unfold Qdiv. apply Qmult_lt_compat_r; [now apply Qinv_lt_0_compat|].
  now apply Qmult_lt_l.
Qed.

Lemma Facchini_cell_denominator (h r c m k D1 D2 : Q) :
  0 < np_sqrt (8 / np_pi) * c -> 0 < m -> 0 < k -> 0 < D1 -> D1 < D2 ->
  np_sqrt (8 / np_pi) * c * m / D2 * k < np_sqrt (8 / np_pi) * c * m / D1 * k.
Proof.
  intros HA Hm Hk HD1 HD.
  apply Qmult_lt_compat_r; [exact Hk|].
  assert (HD2 : 0 < D2) by (eapply Qlt_trans; eauto).
  unfold Qdiv. apply Qmult_lt_l; [now apply Qmult_lt_0_compat|].
  exact (proj1 (Qinv_lt_contravar D1 D2 HD1 HD2) HD).
Qed.

Lemma Facchini_cell_Mstar (h r c M1 M2 rho m : Q) :
  0 < h -> 0 < c -> 0 < M1 -> 0 < rho -> 0 < m -> M1 < M2 ->
  Facchini_cell h r c M2 rho m < Facchini_cell h r c M1 rho m.
Proof.
  intros Hh Hc HM Hrho Hm HMM.
  destruct (Facchini_cell_pos_coeff h r c M1 rho Hh Hc HM Hrho)
    as (HA & HF & Hk).
  pose proof pi_pos as Hpi.
  unfold Facchini_cell.
  set (F := h / np_sqrt (h * h + r * r)) in *. clearbody F.
  assert (Hc4 : 0 < 4 * np_pi * F * rho)
    by (repeat apply Qmult_lt_0_compat; lra).
  apply Facchini_cell_denominator; auto.
  - repeat apply Qmult_lt_0_compat; lra.
  - setoid_replace (M1 * 4 * np_pi * F * rho) with (M1 * (4 * np_pi * F * rho)) by ring.
    setoid_replace (M2 * 4 * np_pi * F * rho) with (M2 * (4 * np_pi * F * rho)) by ring.
    now apply Qmult_lt_compat_r.
Qed.

Lemma Facchini_cell_rho (h r c Mstar rho1 rho2 m : Q) :
  0 < h -> 0 < c -> 0 < Mstar -> 0 < rho1 -> 0 < m -> rho1 < rho2 ->
  Facchini_cell h r c Mstar rho2 m < Facchini_cell h r c Mstar rho1 m.
Proof.
  intros Hh Hc HM Hrho Hm Hrr.
  destruct (Facchini_cell_pos_coeff h r c Mstar rho1 Hh Hc HM Hrho)
    as (HA & HF & Hk).
  pose proof pi_pos as Hpi.
  unfold Facchini_cell.
  set (F := h / np_sqrt (h * h + r * r)) in *. clearbody F.
  assert (Hc4 : 0 < Mstar * 4 * np_pi * F)
    by (repeat apply Qmult_lt_0_compat; lra).
  apply Facchini_cell_denominator; auto.
  - apply Qmult_lt_0_compat; lra.
  - now apply Qmult_lt_l.
Qed.

End Facchini.

Section FacchiniArray.
Context {E : Env} {L : EnvLaws E}.

(** On a disc with positive scale height, stellar mass and grain density
    the limit is defined, and each entry is the formula of its annulus. *)
Lemma Facchini_limit_Ok (d : Disc) (du : Dust) (Mdot : list Q) :
  dust d = Some du ->
  length (H d) = length (R d) -> length (cs d) = length (R d) ->
  length Mdot = length (R d) ->
  Forall (fun h => 0 < h) (H d) -> 0 < star_M d -> 0 < _rho_s du ->
  exists a : list Q,
    Facchini_limit d Mdot = Ok a /\
    forall i h r c m,
      nth_error (H d) i = Some h -> nth_error (R d) i = Some r ->
      nth_error (cs d) i = Some c -> nth_error Mdot i = Some m ->
      nth_error a i = Some (Facchini_cell h r c (star_M d) (_rho_s du) m).
Proof.
  intros Hdu HlH Hlc HlM HH HM Hrho.
  pose proof pi_pos as Hpi.
  unfold Facchini_limit.
  rewrite (SumFacts.broadcast_same_length _ _ _ HlH). simpl.
  set (h2r2 := Np.map2 (fun h r => h * h + r * r) (H d) (R d)).
  assert (Hl2 : length h2r2 = length (H d))
    by (apply NpFacts.map2_length; exact HlH).
  assert (Hsq : Forall (fun x => 0 < x) (map np_sqrt h2r2)).
  { rewrite Forall_map.
    apply (ListFacts.Forall_map2 (fun h => 0 < h) (fun _ => True));
      [|exact HH | apply ListFacts.Forall_True].
    intros h r Hh _. apply sqrt_pos.
    assert (0 < h * h) by (apply Qmult_lt_0_compat; lra).
    assert (0 <= r * r) by nra. lra. }
  rewrite SumFacts.divide_same_length;
    [|rewrite length_map; congruence | now apply ListFacts.pos_nonzero].
  simpl. unfold the_dust. rewrite Hdu. simpl.
  set (F := Np.map2 Qdiv (H d) (map np_sqrt h2r2)).
  assert (HlF : length F = length (H d))
    by (apply NpFacts.map2_length; rewrite length_map; congruence).
  assert (HF : Forall (fun f => 0 < f) F).
  { apply (ListFacts.Forall_map2 (fun h => 0 < h) (fun s => 0 < s));
      [|exact HH | exact Hsq].
    intros h s Hh Hs. simpl in *. apply Qlt_shift_div_l; lra. }
  rewrite SumFacts.broadcast_same_length by (rewrite length_map; congruence).
  simpl.
  rewrite SumFacts.divide_same_length.
  2:{ rewrite NpFacts.map2_length; rewrite !length_map; congruence. }
  2:{ apply ListFacts.pos_nonzero. rewrite Forall_map.
      eapply Forall_impl; [|exact HF]. intros f Hf. simpl in *.
      repeat apply Qmult_lt_0_compat; lra. }
  simpl. eexists. split; [reflexivity|].
  intros i h r c m Hh Hr Hc Hm.
  assert (H1 : nth_error h2r2 i = Some (h * h + r * r))
    by exact (NpFacts.map2_nth (fun h r => h * h + r * r) _ _ _ _ _ Hh Hr).
  assert (H2 : nth_error F i = Some (h / np_sqrt (h * h + r * r))).
  { apply (NpFacts.map2_nth Qdiv); [exact Hh|].
    rewrite nth_error_map, H1. reflexivity. }
  assert (H3 : nth_error (Np.map2 Qmult (map (fun c => np_sqrt (8 / np_pi) * c) (cs d)) Mdot) i
               = Some (np_sqrt (8 / np_pi) * c * m)).
  { apply (NpFacts.map2_nth Qmult); [|exact Hm].
    rewrite nth_error_map, Hc. reflexivity. }
  rewrite nth_error_map.
  rewrite (NpFacts.map2_nth Qdiv _ _ _ _ _ H3
             (map_nth_error (fun f => star_M d * 4 * np_pi * f * _rho_s du) _ _ H2)).
  reflexivity.
Qed.

End FacchiniArray.

(** C8. On a disc with positive scale height, sound speed, stellar mass
    and grain density (and any radii), [Facchini_limit] is defined and, in
    every annulus, its value strictly increases with [Mdot], and, for a
    positive [Mdot], strictly decreases when the stellar mass or the grain
    density is raised, everything else being kept. *)
Theorem C8_Facchini_monotone :
  forall (E : Env) (L : EnvLaws E) (d : Disc) (du : Dust),
    dust d = Some du ->
    length (H d) = length (R d) -> length (cs d) = length (R d) ->
    Forall (fun h => 0 < h) (H d) -> Forall (fun c => 0 < c) (cs d) ->
    0 < star_M d -> 0 < _rho_s du ->
    (forall Mdot1 Mdot2 : list Q,
        length Mdot1 = length (R d) -> length Mdot2 = length (R d) ->
        exists a1 a2 : list Q,
          Facchini_limit d Mdot1 = Ok a1 /\ Facchini_limit d Mdot2 = Ok a2 /\
          forall i m1 m2 x1 x2,
            nth_error Mdot1 i = Some m1 -> nth_error Mdot2 i = Some m2 ->
            nth_error a1 i = Some x1 -> nth_error a2 i = Some x2 ->
            m1 < m2 -> x1 < x2) /\
    (forall (Mdot : list Q) (M' : Q),
        length Mdot = length (R d) -> star_M d < M' ->
        exists a a' : list Q,
          Facchini_limit d Mdot = Ok a /\
          Facchini_limit (set_star_M d M') Mdot = Ok a' /\
          forall i m x x',
            nth_error Mdot i = Some m -> 0 < m ->
            nth_error a i = Some x -> nth_error a' i = Some x' ->
            x' < x) /\
    (forall (Mdot : list Q) (rho' : Q),
        length Mdot = length (R d) -> _rho_s du < rho' ->
        exists a a' : list Q,
          Facchini_limit d Mdot = Ok a /\
          Facchini_limit (set_rho_s d du rho') Mdot = Ok a' /\
          forall i m x x',
            nth_error Mdot i = Some m -> 0 < m ->
            nth_error a i = Some x -> nth_error a' i = Some x' ->
            x' < x).
Proof.
  intros E L d du Hdu HlH Hlc HH Hcs HM Hrho.
  assert (Hcell : forall (Mdot : list Q) i m,
             length Mdot = length (R d) -> nth_error Mdot i = Some m ->
             exists h r c, nth_error (H d) i = Some h /\ nth_error (R d) i = Some r /\
                           nth_error (cs d) i = Some c /\ 0 < h /\ 0 < c).
  { intros Mdot i m Hl Hm.
    assert (Hi : (i < length (R d))%nat)
      by (rewrite <- Hl; apply nth_error_Some; congruence).
    destruct (ListFacts.nth_error_ex (H d) i) as [h Hh]; [lia|].
    destruct (ListFacts.nth_error_ex (R d) i) as [r Hr]; [lia|].
    destruct (ListFacts.nth_error_ex (cs d) i) as [c Hc]; [lia|].
    exists h, r, c. repeat split; auto.
    - rewrite Forall_forall in HH. apply HH. eapply nth_error_In; eauto.
    - rewrite Forall_forall in Hcs. apply Hcs. eapply nth_error_In; eauto. }
  repeat split.
  - intros Mdot1 Mdot2 Hl1 Hl2.
    destruct (Facchini_limit_Ok d du Mdot1 Hdu HlH Hlc Hl1 HH HM Hrho) as (a1 & Ha1 & Hn1).
    destruct (Facchini_limit_Ok d du Mdot2 Hdu HlH Hlc Hl2 HH HM Hrho) as (a2 & Ha2 & Hn2).
    exists a1, a2. repeat split; auto.
    intros i m1 m2 x1 x2 Hm1 Hm2 Hx1 Hx2 Hlt.
    destruct (Hcell Mdot1 i m1 Hl1 Hm1) as (h & r & c & Hh & Hr & Hc & Hhp & Hcp).
    rewrite (Hn1 i h r c m1 Hh Hr Hc Hm1) in Hx1. injection Hx1 as <-.
    rewrite (Hn2 i h r c m2 Hh Hr Hc Hm2) in Hx2. injection Hx2 as <-.
    now apply Facchini_cell_Mdot.
  - intros Mdot M' Hl HMM.
    destruct (Facchini_limit_Ok d du Mdot Hdu HlH Hlc Hl HH HM Hrho) as (a & Ha & Hn).
    assert (HM' : 0 < star_M (set_star_M d M')) by (simpl; lra).
    destruct (Facchini_limit_Ok (set_star_M d M') du Mdot Hdu HlH Hlc Hl HH HM' Hrho)
      as (a' & Ha' & Hn').
    exists a, a'. repeat split; auto.
    intros i m x x' Hm Hmp Hx Hx'.
    destruct (Hcell Mdot i m Hl Hm) as (h & r & c & Hh & Hr & Hc & Hhp & Hcp).
    rewrite (Hn i h r c m Hh Hr Hc Hm) in Hx. injection Hx as <-.
    rewrite (Hn' i h r c m Hh Hr Hc Hm) in Hx'. injection Hx' as <-.
    simpl. now apply Facchini_cell_Mstar.
  - intros Mdot rho' Hl Hrr.
    destruct (Facchini_limit_Ok d du Mdot Hdu HlH Hlc Hl HH HM Hrho) as (a & Ha & Hn).
    set (du' := mkDust (Sigma_D du) (_eps du) (integ_dust_frac du) (grain_size du)
                       (_p du) rho' (_Mwind_cum du)).
    assert (Hrho' : 0 < _rho_s du') by (simpl; lra).
    destruct (Facchini_limit_Ok (set_rho_s d du rho') du' Mdot eq_refl HlH Hlc Hl HH HM Hrho')
      as (a' & Ha' & Hn').
    exists a, a'. repeat split; auto.
    intros i m x x' Hm Hmp Hx Hx'.
    destruct (Hcell Mdot i m Hl Hm) as (h & r & c & Hh & Hr & Hc & Hhp & Hcp).
    rewrite (Hn i h r c m Hh Hr Hc Hm) in Hx. injection Hx as <-.
    rewrite (Hn' i h r c m Hh Hr Hc Hm) in Hx'. injection Hx' as <-.
    simpl. now apply Facchini_cell_rho.
Qed.

Lemma C8_witness :
  exists (a1 a2 : list Q) (x1 x2 : Q),
    Facchini_limit (E := cgs) dusty_peak [1e-8; 1e-8; 1e-8; 1e-8] = Ok a1 /\
    Facchini_limit (E := cgs) dusty_peak [2e-8; 2e-8; 2e-8; 2e-8] = Ok a2 /\
    nth_error a1 1 = Some x1 /\ nth_error a2 1 = Some x2 /\ x1 < x2.
Proof.
  assert (Hpos : Forall (fun h => 0 < h) [3; 3; 1; 1])
    by (repeat constructor).
  assert (Hone : Forall (fun c => 0 < c) [1; 1; 1; 1])
    by (repeat constructor).
  destruct (C8_Facchini_monotone cgs cgs_laws dusty_peak dust_peak
              eq_refl eq_refl eq_refl Hpos Hone eq_refl eq_refl)
    as (HMdot & _ & _).
  destruct (HMdot [1e-8; 1e-8; 1e-8; 1e-8] [2e-8; 2e-8; 2e-8; 2e-8]
                  eq_refl eq_refl) as (a1 & a2 & H1 & H2 & Hmono).
  destruct (nth_error a1 1) as [x1|] eqn:Hx1;
    [|vm_compute in H1; injection H1 as <-; discriminate Hx1].
  destruct (nth_error a2 1) as [x2|] eqn:Hx2;
    [|vm_compute in H2; injection H2 as <-; discriminate Hx2].
  exists a1, a2, x1, x2. repeat split; auto.
  apply (Hmono 1%nat 1e-8 2e-8); auto. reflexivity.
Defined.

(** ** Dust entrainment *)

Section Entrainment.
Context {E : Env}.

Lemma entrained_fraction_Ok (self : Evap) (d : Disc) (du : Dust) (f_ent : list Q) :
  dust d = Some du ->
  entrained_fraction self d = Ok f_ent ->
  length (_amax self) = length (Sigma_G d) /\
  length (snd (grain_size du)) = length (Sigma_G d) /\
  f_ent = Np.compress (Np.gt0 (Sigma_G d))
            (Np.map2 (fraction_of (_p du)) (_amax self) (snd (grain_size du))).
Proof.
  intros Hdu. unfold entrained_fraction, the_dust. rewrite Hdu. simpl.
  intros Hf. inv_binds.
  apply NpFacts.bool_index_Ok in E0, E1, E2.
  destruct E0 as [Hl0 ->], E1 as [Hl1 ->], E2 as [Hl2 ->].
  unfold Np.ones_like in *. rewrite repeat_length in Hl0.
  unfold Np.gt0 in Hl0, Hl1, Hl2. rewrite length_map in Hl0, Hl1, Hl2.
  unfold Np.divide in E3.
  destruct (Np.all_nonzero _); [|discriminate].
  rewrite SumFacts.broadcast_same_length in E3
    by (rewrite !CompressFacts.compress_length;
        unfold Np.gt0; rewrite ?length_map; congruence).
  injection E3 as <-.
  rewrite SumFacts.broadcast_same_length in Hf.
  2:{ rewrite length_map, NpFacts.map2_length;
      rewrite !CompressFacts.compress_length;
      unfold Np.gt0; rewrite ?length_map, ?repeat_length; congruence. }
  injection Hf as <-.
  repeat split; try congruence.
  rewrite CompressFacts.compress_ones.
  - rewrite NpFacts.compress_map2, !CompressFacts.compress_map,
      CompressFacts.map_map2, CompressFacts.map_map2. reflexivity.
  - unfold Np.gt0. rewrite length_map. congruence.
  - rewrite length_map, NpFacts.map2_length;
      rewrite !CompressFacts.compress_length;
      unfold Np.gt0; rewrite ?length_map; congruence.
Qed.

Lemma fraction_le_1 (p a g : Q) : fraction_of p a g <= 1.
Proof. unfold fraction_of. apply Q.le_min_l. Qed.

End Entrainment.

Section EntrainedMass.
Context {E : Env}.

Lemma dust_entrainment_Ok (self : Evap) (d : Disc) (du : Dust)
  (M_dust M_ent : list Q) :
  dust d = Some du ->
  dust_mass d = Ok M_dust ->
  dust_entrainment self d = Ok M_ent ->
  length M_dust = length (Sigma_G d) /\
  length (Sigma d) = length (Sigma_G d) /\
  length (_amax self) = length (Sigma_G d) /\
  length (snd (grain_size du)) = length (Sigma_G d) /\
  M_ent = Np.scatter (Np.gt0 (Sigma_G d)) (Np.zeros_like (Sigma d))
            (Np.compress (Np.gt0 (Sigma_G d))
               (Np.map2 Qmult M_dust
                  (Np.map2 (fraction_of (_p du)) (_amax self)
                           (snd (grain_size du))))).
Proof.
  intros Hdu HM. unfold dust_entrainment. rewrite HM. simpl.
  intros He. inv_binds. rename v into f_ent.
  apply (entrained_fraction_Ok _ _ _ _ Hdu) in E0. destruct E0 as (Hla & Hlg & ->).
  apply NpFacts.bool_index_Ok in E1. destruct E1 as [HlM ->].
  unfold Np.gt0 in HlM. rewrite length_map in HlM.
  rewrite SumFacts.broadcast_same_length in E2.
  2:{ rewrite !CompressFacts.compress_length; auto;
      unfold Np.gt0; rewrite ?length_map, ?NpFacts.map2_length; congruence. }
  injection E2 as <-.
  apply NpFacts.mask_assign_Ok in He. destruct He as (HlS & _ & ->).
  unfold Np.zeros_like, Np.zeros, Np.gt0 in HlS.
  rewrite repeat_length, length_map in HlS.
  rewrite NpFacts.compress_map2. auto.
Qed.

End EntrainedMass.

(** C9, as amended.  Where [dust_entrainment] returns: the entrained
    fraction of an annulus that holds gas is
    [min(1, (a_entrained / a_max_grain)^(4 - p))], whatever its dust mass,
    and so at most 1; the entrained mass of that annulus is its dust mass
    times the fraction; an annulus without gas has entrained mass exactly
    0; and an annulus without dust has entrained mass 0. *)
Theorem C9_entrained_mass :
  forall (E : Env) (self : Evap) (d : Disc) (du : Dust)
         (f_ent M_dust M_ent : list Q),
    dust d = Some du ->
    entrained_fraction self d = Ok f_ent ->
    dust_mass d = Ok M_dust ->
    dust_entrainment self d = Ok M_ent ->
    f_ent = Np.compress (Np.gt0 (Sigma_G d))
              (Np.map2 (fraction_of (_p du)) (_amax self) (snd (grain_size du))) /\
    Forall (fun f => f <= 1) f_ent /\
    (forall i s a g m,
        nth_error (Sigma_G d) i = Some s -> 0 < s ->
        nth_error (_amax self) i = Some a ->
        nth_error (snd (grain_size du)) i = Some g ->
        nth_error M_dust i = Some m ->
        nth_error M_ent i = Some (m * Qmin 1 (np_power (a / g) (4 - _p du)))) /\
    (forall i s,
        nth_error (Sigma_G d) i = Some s -> s <= 0 ->
        nth_error M_ent i = Some 0) /\
    (forall i m x,
        nth_error M_dust i = Some m -> m == 0 ->
        nth_error M_ent i = Some x -> x == 0).
Proof.
  intros E self d du f_ent M_dust M_ent Hdu Hf HM He.
  destruct (entrained_fraction_Ok _ _ _ _ Hdu Hf) as (_ & _ & ->).
  destruct (dust_entrainment_Ok _ _ _ _ _ Hdu HM He)
    as (HlM & HlS & Hla & Hlg & ->).
  set (mask := Np.gt0 (Sigma_G d)).
  set (fr := Np.map2 (fraction_of (_p du)) (_amax self) (snd (grain_size du))).
  assert (Hlz : length (Np.zeros_like (Sigma d)) = length mask).
  { unfold Np.zeros_like, Np.zeros, mask, Np.gt0.
    rewrite repeat_length, length_map. exact HlS. }
  assert (Hmask : forall i s, nth_error (Sigma_G d) i = Some s ->
                              nth_error mask i = Some (Np.Qltb 0 s)).
  { intros i s Hs. unfold mask, Np.gt0. rewrite nth_error_map, Hs. reflexivity. }
  assert (Hgas : forall i s a g m,
             nth_error (Sigma_G d) i = Some s -> 0 < s ->
             nth_error (_amax self) i = Some a ->
             nth_error (snd (grain_size du)) i = Some g ->
             nth_error M_dust i = Some m ->
             nth_error (Np.scatter mask (Np.zeros_like (Sigma d))
                          (Np.compress mask (Np.map2 Qmult M_dust fr))) i
             = Some (m * Qmin 1 (np_power (a / g) (4 - _p du)))).
  { intros i s a g m Hs Hpos Ha Hg Hm.
    apply NpFacts.scatter_compress_true; auto.
    - rewrite (Hmask i s Hs). f_equal. now apply NpFacts.Qltb_lt.
    - apply (NpFacts.map2_nth Qmult); [exact Hm|].
      exact (NpFacts.map2_nth (fraction_of (_p du)) _ _ _ _ _ Ha Hg). }
  assert (Hnogas : forall i s,
             nth_error (Sigma_G d) i = Some s -> s <= 0 ->
             nth_error (Np.scatter mask (Np.zeros_like (Sigma d))
                          (Np.compress mask (Np.map2 Qmult M_dust fr))) i
             = Some 0).
  { intros i s Hs Hle.
    rewrite NpFacts.scatter_false
      by (rewrite (Hmask i s Hs); f_equal; now apply NpFacts.Qltb_ge).
    unfold Np.zeros_like, Np.zeros. apply nth_error_repeat.
    rewrite HlS. apply nth_error_Some. congruence. }
  repeat split; auto.
  - apply CompressFacts.compress_Forall.
    apply (ListFacts.Forall_map2 (fun _ => True) (fun _ => True));
      try apply ListFacts.Forall_True.
    intros a g _ _. apply fraction_le_1.
  - intros i m x Hm Hz Hx.
    assert (Hi : (i < length (Sigma_G d))%nat)
      by (rewrite <- HlM; apply nth_error_Some; congruence).
    destruct (ListFacts.nth_error_ex (Sigma_G d) i Hi) as [s Hs].
    destruct (Qlt_le_dec 0 s) as [Hpos | Hle].
    + destruct (ListFacts.nth_error_ex (_amax self) i) as [a Ha]; [lia|].
      destruct (ListFacts.nth_error_ex (snd (grain_size du)) i) as [g Hg]; [lia|].
      rewrite (Hgas i s a g m Hs Hpos Ha Hg Hm) in Hx. injection Hx as <-.
      rewrite Hz. ring.
    + rewrite (Hnogas i s Hs Hle) in Hx. injection Hx as <-. reflexivity.
Qed.

(** C9 as stated fails: in [dusty_peak] the second annulus holds gas and
    no dust; with an entrained size of 4, the size of its largest grains,
    its entrained fraction is 1, not 0. *)
Lemma C9_counterexample :
  exists (f_ent M_dust : list Q) (m f : Q),
    entrained_fraction (E := cgs) fried_S_amax4 dusty_peak = Ok f_ent /\
    dust_mass (E := cgs) dusty_peak = Ok M_dust /\
    nth_error M_dust 1 = Some m /\ m == 0 /\
    nth_error f_ent 1 = Some f /\ f == 1.
Proof.
  do 4 eexists. split; [vm_compute; reflexivity|].
  split; [vm_compute; reflexivity|].
  split; [reflexivity|]. split; [reflexivity|].
  split; reflexivity.
Qed.

Lemma C9_witness :
  exists (M_ent : list Q) (x : Q),
    dust_entrainment (E := cgs) fried_S_amax dusty_peak = Ok M_ent /\
    nth_error M_ent 1 = Some x /\ x == 0.
Proof.
  destruct (entrained_fraction (E := cgs) fried_S_amax dusty_peak)
    as [f_ent|e] eqn:Hf; [|vm_compute in Hf; discriminate Hf].
  destruct (dust_mass (E := cgs) dusty_peak)
    as [M_dust|e] eqn:HM; [|vm_compute in HM; discriminate HM].
  destruct (dust_entrainment (E := cgs) fried_S_amax dusty_peak)
    as [M_ent|e] eqn:He; [|vm_compute in He; discriminate He].
  destruct (C9_entrained_mass cgs fried_S_amax dusty_peak dust_peak
              f_ent M_dust M_ent eq_refl Hf HM He) as (_ & _ & _ & _ & Hnodust).
  destruct (nth_error M_dust 1) as [m|] eqn:Hm;
    [|vm_compute in HM; injection HM as <-; discriminate Hm].
  destruct (nth_error M_ent 1) as [x|] eqn:Hx;
    [|vm_compute in He; injection He as <-; discriminate Hx].
  exists M_ent, x. repeat split; auto.
  apply (Hnodust 1%nat m x Hm); auto.
  vm_compute in HM. injection HM as <-. injection Hm as <-. reflexivity.
Defined.

(** * Further properties of the engine *)

(** ** What a step does to the provider *)

Section ProviderState.
Context {E : Env}.

Lemma unweighted_rates_provider (self self1 : Evap) (d : Disc) (Track : bool)
  (x : list Q * list Q) :
  unweighted_rates self d Track = Ok (self1, x) ->
  if Track then recorded_one self self1 else self1 = self.
Proof.
  unfold unweighted_rates. intros Hu.
  inv_bind Hu. inv_bind Hu. inv_bind Hu. inv_bind Hu.
  injection Hu as <- _.
  destruct Track.
  - inv_binds. unfold recorded_one. simpl. eauto.
  - now injection E3 as <-.
Qed.

Lemma get_timescale_provider (self self1 : Evap) (d : Disc) (Track : bool)
  (x : list Q * list Q * list Q * list Q) :
  get_timescale self d Track = Ok (self1, x) ->
  if Track then recorded_one self self1 else self1 = self.
Proof.
  unfold get_timescale. intros Hg. inv_bind Hg.
  destruct v as [self0 [dM_evap dM_gas]].
  apply unweighted_rates_provider in E0.
  inv_bind Hg. inv_bind Hg. inv_bind Hg. inv_bind Hg. inv_bind Hg.
  injection Hg as <- _. exact E0.
Qed.

Lemma timescale_remove_provider (self self' : Evap) (d d' : Disc) (dt : Q)
  (Track : bool) :
  timescale_remove self d dt Track = Ok (self', d') ->
  (if Track then recorded_one self self' else self' = self) /\
  same_geometry d d' /\ dust d' = dust d.
Proof.
  unfold timescale_remove. intros Hr. inv_bind Hr.
  destruct v as [self1 [[[ev g] M] Dt]].
  apply get_timescale_provider in E0.
  inv_bind Hr. injection Hr as <- <-.
  split; [exact E0|]. unfold same_geometry. simpl. auto 10.
Qed.

End ProviderState.

Section CallState.
Context {E : Env}.

Lemma optically_thin_weighting_provider (self self1 : Evap) (d : Disc)
  (Track : bool) (x : list Q * list Q) :
  optically_thin_weighting self d Track = Ok (self1, x) ->
  if Track then recorded_one self self1 else self1 = self.
Proof.
  unfold optically_thin_weighting. intros Ho. inv_bind Ho.
  destruct v as [self0 [Mdot dM_gas]].
  apply unweighted_rates_provider in E0. subst self0.
  inv_bind Ho. inv_bind Ho. inv_bind Ho. injection Ho as <- _.
  destruct Track; [|reflexivity].
  unfold recorded_one. simpl. eauto.
Qed.

Lemma dust_loss_geometry (d d' : Disc) (du : Dust) (Sigma1 dM_gas dM_evap : list Q)
  (pre : list Q * list Q * list Q) :
  dust_loss d du Sigma1 dM_gas dM_evap pre = Ok d' -> same_geometry d d'.
Proof.
  unfold dust_loss. destruct pre as [[Sigma_D0 f_m] M_ent]. intros Hd.
  inv_binds. unfold same_geometry. simpl. auto 10.
Qed.

Lemma weighted_removal_provider (self self' : Evap) (d d' : Disc) (dt : Q)
  (Track : bool) :
  weighted_removal self d dt Track = Ok (self', d') ->
  cls self' = cls self /\ same_geometry d d' /\
  (if Track then exists v, _Mdot self' = np_append (_Mdot self) v
   else _Mdot self' = _Mdot self) /\
  (dust d = None -> _amax self' = _amax self /\ dust d' = None).
Proof.
  unfold weighted_removal. intros Hw. inv_bind Hw.
  destruct v as [self1 [dM_dot dM_gas]].
  apply optically_thin_weighting_provider in E0.
  assert (H1 : cls self1 = cls self /\ _amax self1 = _amax self /\
               if Track then exists v, _Mdot self1 = np_append (_Mdot self) v
               else _Mdot self1 = _Mdot self).
  { destruct Track; [destruct E0 as (? & ? & ?) | subst self1]; auto. }
  clear E0. destruct H1 as (Hc & Ha & Hm).
  destruct (dust d) as [du|] eqn:Hdu.
  - inv_bind Hw. destruct v as [self2 pre].
    inv_bind Hw. destruct v as [dM_evap Sigma1].
    inv_bind Hw. injection Hw as <- <-.
    match goal with
    | H : dust_loss _ _ _ _ _ _ = Ok _ |- _ => apply dust_loss_geometry in H
    end.
    match goal with
    | H : entrainment_setup _ _ _ _ = Ok _ |- _ =>
        unfold entrainment_setup in H; inv_binds
    end.
    simpl. split; [exact Hc|]. split; [assumption|]. split; [exact Hm|].
    intros Hx. discriminate Hx.
  - inv_bind Hw. destruct v as [dM_evap Sigma1]. injection Hw as <- <-.
    unfold same_geometry. simpl. repeat split; auto.
Qed.

End CallState.

(** X1. One step through [__call__] keeps the class of the provider and
    the grid, scale height, sound speed, star and UV field of the disc.  The fixed
    provider either skips the step (rate not positive: provider and disc
    are returned as they were) or records one more entry in [_Mdot]; the
    provider keyed by integrated mass records one entry; the two providers
    keyed by surface density never record anything, since [__call__] runs
    [weighted_removal] without tracking, and on a disc without dust they
    are returned unchanged. *)
Theorem call_provider_state :
  forall (E : Env) (self self' : Evap) (d d' : Disc) (dt age : Q),
    call self d dt age = Ok (self', d') ->
    cls self' = cls self /\ same_geometry d d' /\
    match cls self with
    | FixedExternalEvaporation =>
        (positive (_Mdot self) = Ok false /\ self' = self /\ d' = d) \/
        (positive (_Mdot self) = Ok true /\ recorded_one self self')
    | FRIEDExternalEvaporationM _ => recorded_one self self'
    | _ => _Mdot self' = _Mdot self /\ (dust d = None -> self' = self)
    end.
Proof.
  intros E self self' d d' dt age. unfold call.
  assert (Hgeo : same_geometry d d) by (unfold same_geometry; auto 10).
  assert (Hw : weighted_removal self d dt false = Ok (self', d') ->
               cls self' = cls self /\ same_geometry d d' /\
               _Mdot self' = _Mdot self /\ (dust d = None -> self' = self)).
  { intros Hr. apply weighted_removal_provider in Hr.
    destruct Hr as (Hc & Hg & Hm & Ha).
    split; [exact Hc|]. split; [exact Hg|]. split; [exact Hm|].
    intros Hnd. destruct (Ha Hnd) as [Ha' _].
    destruct self, self'. simpl in *. congruence. }
  assert (Ht : timescale_remove self d dt true = Ok (self', d') ->
               cls self' = cls self /\ same_geometry d d' /\
               recorded_one self self').
  { intros Hr. apply timescale_remove_provider in Hr.
    destruct Hr as (Hrec & Hg & _).
    split; [apply Hrec|]. split; [exact Hg | exact Hrec]. }
  destruct (cls self) eqn:Hcls.
  - intros Hr. inv_bind Hr. destruct v.
    + destruct (Ht Hr) as (Hc & Hg & Hrec).
      split; [congruence|]. split; [exact Hg|]. right. split; assumption.
    + injection Hr as <- <-.
      split; [congruence|]. split; [exact Hgeo|]. left. repeat split; assumption.
  - intros Hr. destruct (Hw Hr) as (Hc & Hg & Hm).
    split; [congruence|]. split; assumption.
  - intros Hr. destruct (Hw Hr) as (Hc & Hg & Hm).
    split; [congruence|]. split; assumption.
  - intros Hr. destruct (Ht Hr) as (Hc & Hg & Hrec).
    split; [congruence|]. split; assumption.
Qed.

Lemma call_provider_state_witness :
  exists (self' : Evap) (d' : Disc),
    call (E := cgs) fixed_default disc_uniform 30000 0 = Ok (self', d') /\
    recorded_one fixed_default self'.
Proof.
  destruct (call (E := cgs) fixed_default disc_uniform 30000 0)
    as [[self' d']|e] eqn:Hc; [|vm_compute in Hc; discriminate Hc].
  exists self', d'. split; [reflexivity|].
  destruct (call_provider_state cgs _ _ _ _ _ _ Hc) as (_ & _ & [[Hp _] | [_ Hr]]).
  - discriminate Hp.
  - exact Hr.
Defined.

(** X2. The fixed provider can take one step only.  After a step that was
    not skipped, [_Mdot] is no longer a float but the array of the rate and
    the recorded entry, and the test [self._Mdot > 0] of every later
    [__call__] raises [ValueError], whatever the disc and the step. *)
Theorem fixed_provider_second_call_raises :
  forall (E : Env) (self self' : Evap) (d d' : Disc) (dt age q : Q),
    cls self = FixedExternalEvaporation ->
    _Mdot self = Scalar q -> 0 < q ->
    call self d dt age = Ok (self', d') ->
    forall (d2 : Disc) (dt2 age2 : Q),
      call self' d2 dt2 age2 = Raise ValueError.
Proof.
  intros E self self' d d' dt age q Hcls Hq Hpos Hc d2 dt2 age2.
  unfold call in Hc. rewrite Hcls, Hq in Hc. simpl in Hc.
  apply NpFacts.Qltb_lt in Hpos. rewrite Hpos in Hc.
  apply timescale_remove_provider in Hc.
  destruct Hc as ((Hc' & _ & v & Hm) & _).
  unfold call. rewrite Hc', Hcls, Hm, Hq. reflexivity.
Qed.

Lemma fixed_provider_second_call_raises_witness :
  exists (self' : Evap) (d' : Disc),
    call (E := cgs) fixed_default disc_uniform 30000 0 = Ok (self', d') /\
    call (E := cgs) self' d' 30000 0 = Raise ValueError.
Proof.
  destruct (call (E := cgs) fixed_default disc_uniform 30000 0)
    as [[self' d']|e] eqn:Hc; [|vm_compute in Hc; discriminate Hc].
  exists self', d'. split; [reflexivity|].
  apply (fixed_provider_second_call_raises cgs fixed_default self'
           disc_uniform d' 30000 0 1e-8 eq_refl eq_refl eq_refl Hc).
Defined.

(** ** Annuli without gas *)

Module GasFree.
Import Np.

Lemma count_lt_length (m : list bool) (i : nat) :
  nth_error m i = Some false -> (count m < length m)%nat.
Proof.
  revert i. induction m as [|b m IH]; intros [|i] Hi; simpl in Hi;
    try discriminate; rewrite Marginal.count_cons; cbn [length].
  - injection Hi as ->. pose proof (Marginal.count_le_length m). simpl. lia.
  - apply IH in Hi. destruct b; simpl; lia.
Qed.

Lemma gt0_nth (a : list Q) (i : nat) (s : Q) :
  nth_error a i = Some s -> nth_error (gt0 a) i = Some (Qltb 0 s).
Proof. intros Hs. unfold gt0. now rewrite nth_error_map, Hs. Qed.

Lemma gt0_none (a : list Q) :
  Forall (fun s => s <= 0) a -> Forall (fun b => b = false) (gt0 a).
Proof.
  intros Ha. unfold gt0. rewrite Forall_map.
  eapply Forall_impl; [|exact Ha]. intros s Hs. simpl in *.
  now apply NpFacts.Qltb_ge.
Qed.

Lemma compress_none {A : Type} (m : list bool) (a : list A) :
  Forall (fun b => b = false) m -> compress m a = [].
Proof.
  intros Hm. revert a. induction Hm as [|b m Hb Hm IH]; intros [|x a]; simpl;
    try reflexivity.
  subst b. apply IH.
Qed.

Lemma finite_defined (a : list fval) :
  Forall (fun v => isnan v = false) a -> exists r, finite a = Ok r.
Proof.
  induction 1 as [|v a Hv Ha [r IH]]; simpl; [eauto|].
  destruct v; [|discriminate]. rewrite IH. simpl. eauto.
Qed.

End GasFree.

Section GasFreeAnnuli.
Context {E : Env}.

Lemma Fixed_unweighted_rates (self : Evap) (d : Disc) (q : Q) (Track : bool) :
  cls self = FixedExternalEvaporation -> _Mdot self = Scalar q -> wf_shape d ->
  unweighted_rates self d Track
  = (self' <- (if Track
               then sel <- Np.bool_index (Fixed_rates d q) (Np.gt0 (Sigma_G d)) ;;
                    last <- Np.getitem sel (-1) ;;
                    Ok (set_Mdot self (np_append (_Mdot self) (last * (yr / Msun))))
               else Ok self) ;;
     Ok (self', (Fixed_rates d q, Np.map2 Qmult (Sigma_G d) (annulus_areas d)))).
Proof.
  intros Hc Hq (He & HS & HG).
  unfold unweighted_rates, mass_loss_rate, Fixed_mass_loss_rate.
  rewrite Hc, Hq.
  rewrite SumFacts.broadcast_same_length
    by (rewrite annulus_areas_length, He; exact HG).
  simpl.
  rewrite bool_index_same_length
    by (unfold Sigma, Np.gt0; rewrite length_map; congruence).
  simpl. rewrite finite_map_Num. reflexivity.
Qed.

Lemma Fixed_rates_short (d : Disc) (q : Q) (i : nat) (s : Q) :
  wf_shape d -> nth_error (Sigma_G d) i = Some s -> s <= 0 ->
  Np.bool_index (Fixed_rates d q) (Np.gt0 (Sigma_G d)) = Raise IndexError.
Proof.
  intros (He & HS & HG) Hi Hs. unfold Np.bool_index.
  assert (Hl : (length (Fixed_rates d q) < length (Np.gt0 (Sigma_G d)))%nat).
  { unfold Fixed_rates. rewrite !length_map. unfold Np.ones_like.
    rewrite repeat_length, CompressFacts.compress_length
      by (unfold Sigma, Np.gt0; rewrite length_map; congruence).
    apply (GasFree.count_lt_length _ i).
    rewrite (GasFree.gt0_nth _ _ _ Hi). f_equal. now apply NpFacts.Qltb_ge. }
  destruct (Nat.eqb_spec (length (Fixed_rates d q)) (length (Np.gt0 (Sigma_G d))));
    [lia | reflexivity].
Qed.

End GasFreeAnnuli.

(** X3. The fixed provider needs gas in every annulus.  Its rates have one
    entry per annulus that holds gas, while the mask [Sigma_G > 0] has one
    per annulus: as soon as one annulus of a disc of the data contract has
    no gas, indexing the rates by the mask raises [IndexError], in
    [unweighted_rates] when the step is tracked and in [get_timescale]
    when it is not.  So [timescale_remove] raises for either value of
    [Track], and so does every [__call__] that is not skipped. *)
Theorem fixed_provider_needs_gas_everywhere :
  forall (E : Env) (self : Evap) (d : Disc) (dt age q : Q) (i : nat) (s : Q),
    cls self = FixedExternalEvaporation -> _Mdot self = Scalar q -> 0 < q ->
    wf_shape d ->
    nth_error (Sigma_G d) i = Some s -> s <= 0 ->
    (forall Track : bool, timescale_remove self d dt Track = Raise IndexError) /\
    call self d dt age = Raise IndexError.
Proof.
  intros E self d dt age q i s Hc Hq Hpos Hshape Hi Hs.
  assert (Ht : forall Track : bool,
             timescale_remove self d dt Track = Raise IndexError).
  { intros Track. unfold timescale_remove, get_timescale.
    rewrite (Fixed_unweighted_rates self d q Track Hc Hq Hshape).
    pose proof (Fixed_rates_short d q i s Hshape Hi Hs) as Hshort.
    destruct Track; simpl.
    - rewrite Hshort. reflexivity.
    - rewrite bool_index_same_length.
      + simpl. rewrite Hshort. reflexivity.
      + destruct Hshape as (He & HS & HG).
        rewrite NpFacts.map2_length by (rewrite annulus_areas_length, He; exact HG).
        unfold Np.gt0. now rewrite length_map. }
  split; [exact Ht|].
  unfold call. rewrite Hc, Hq. simpl.
  apply NpFacts.Qltb_lt in Hpos. rewrite Hpos. apply Ht.
Qed.

Lemma fixed_provider_needs_gas_everywhere_witness :
  call (E := cgs) fixed_default disc_gap 30000 0 = Raise IndexError.
Proof.
  apply (fixed_provider_needs_gas_everywhere cgs fixed_default disc_gap 30000 0
           1e-8 2 0 eq_refl eq_refl eq_refl).
  - repeat split.
  - reflexivity.
  - discriminate.
Defined.

(** X4. A tracked step needs gas somewhere.  On a disc of the data
    contract whose gas surface density is nowhere positive, a table
    provider still returns its rates, but the entry to record,
    [dM_dot[not_empty][-1]], is the last element of an empty array:
    [timescale_remove] with tracking raises [IndexError], and so does
    [__call__] on the provider keyed by integrated mass. *)
Theorem tracked_step_without_gas_raises :
  forall (E : Env) (self : Evap) (d : Disc) (dt age : Q) (t : Q -> Q -> fval),
    table (cls self) = Some t ->
    wf_shape d ->
    Forall (fun s => s <= 0) (Sigma_G d) ->
    timescale_remove self d dt true = Raise IndexError /\
    (cls self = FRIEDExternalEvaporationM t ->
     call self d dt age = Raise IndexError).
Proof.
  intros E self d dt age t Ht Hshape Hgas.
  assert (Hr : timescale_remove self d dt true = Raise IndexError).
  { unfold timescale_remove, get_timescale, unweighted_rates.
    assert (Hm : length (Np.gt0 (Sigma_G d)) = length (R d)).
    { unfold Np.gt0. rewrite length_map. apply Hshape. }
    destruct (mass_loss_rate_table_total self d _ t Ht Hshape Hm)
      as (key & rates & Hkey & Hrates).
    destruct (table_rates_floored E self d _ t key rates Ht Hkey Hrates)
      as [Hdef _].
    destruct (GasFree.finite_defined rates Hdef) as [r Hfin].
    destruct Hshape as (He & HS & HG).
    rewrite SumFacts.broadcast_same_length
      by (rewrite annulus_areas_length, He; exact HG).
    simpl. rewrite Hrates. simpl. rewrite Hfin. simpl.
    unfold Np.bool_index at 1.
    destruct (Nat.eqb _ _); [|reflexivity].
    simpl. rewrite GasFree.compress_none by now apply GasFree.gt0_none.
    reflexivity. }
  split; [exact Hr|].
  intros Hc. unfold call. rewrite Hc. exact Hr.
Qed.

(** Four annuli, none of which holds gas. *)
Lemma tracked_step_without_gas_raises_witness :
  call (E := cgs) fried_M_to_10AU (set_Sigma_G disc_gap [0; 0; 0; 0]) 30000 0
  = Raise IndexError.
Proof.
  apply (tracked_step_without_gas_raises cgs fried_M_to_10AU
           (set_Sigma_G disc_gap [0; 0; 0; 0]) 30000 0 table_to_10AU eq_refl).
  - repeat split.
  - repeat constructor; discriminate.
  - reflexivity.
Defined.

(** ** What [timescale_remove] does to each annulus *)

Module Frame.
Import Np.

Lemma nth_error_replace_other {A : Type} (a : list A) (m i : nat) (v : A) :
  (m < length a)%nat -> i <> m ->
  nth_error (firstn m a ++ v :: skipn (S m) a) i = nth_error a i.
Proof.
  intros Hm Hi.
  rewrite <- (firstn_skipn m a) at 3.
  assert (Hl : length (firstn m a) = m) by (rewrite length_firstn; lia).
  destruct (Nat.lt_ge_cases i m) as [Hlt|Hge].
  - rewrite !nth_error_app1 by lia. reflexivity.
  - rewrite !nth_error_app2 by lia. rewrite Hl, (nth_error_skipn m a).
    replace (i - m)%nat with (S (i - S m)) by lia.
    cbn [nth_error]. rewrite nth_error_skipn. f_equal. lia.
Qed.

Lemma nth_error_replace_same {A : Type} (a : list A) (m : nat) (v : A) :
  (m < length a)%nat ->
  nth_error (firstn m a ++ v :: skipn (S m) a) m = Some v.
Proof.
  intros Hm.
  assert (Hl : length (firstn m a) = m) by (rewrite length_firstn; lia).
  rewrite nth_error_app2 by lia. rewrite Hl, Nat.sub_diag. reflexivity.
Qed.

Lemma replace_length {A : Type} (a : list A) (m : nat) (v : A) :
  (m < length a)%nat ->
  length (firstn m a ++ v :: skipn (S m) a) = length a.
Proof.
  intros Hm. rewrite length_app, length_firstn. cbn [length].
  rewrite length_skipn. lia.
Qed.

(** The mask of the emptied annuli, entry by entry. *)
Lemma masked_nth (Sigma0 Dt : list Q) (dt : Q) (i : nat) (s t : Q) :
  nth_error Sigma0 i = Some s -> nth_error Dt i = Some t ->
  nth_error (map2 (fun (b : bool) x => if b then 0 else x)
                  (gt0 (map (fun t => dt - t) Dt)) Sigma0) i
  = Some (if Qltb 0 (dt - t) then 0 else s).
Proof.
  intros Hs Ht.
  apply (NpFacts.map2_nth (fun (b : bool) x => if b then 0 else x)); [|exact Hs].
  now apply Marginal.emptied_mask_nth.
Qed.

(** Away from the marginal annulus, [timescale_remove] zeroes the annuli
    whose depletion time is shorter than the step and leaves the others
    as they were. *)
Lemma deplete_frame (Sigma0 Dt : list Q) (n : nat) (dt : Q) (Sigma' : list Q) :
  deplete Sigma0 Dt n dt = Ok Sigma' ->
  length Sigma0 = length Dt /\ length Sigma' = length Sigma0 /\
  forall (i : nat) (s t : Q),
    nth_error Sigma0 i = Some s -> nth_error Dt i = Some t ->
    ((emptied Dt dt < n)%nat -> i <> (length Dt - S (emptied Dt dt))%nat) ->
    nth_error Sigma' i = Some (if Qltb 0 (dt - t) then 0 else s).
Proof.
  unfold deplete, emptied.
  set (excess := map (fun t => dt - t) Dt).
  set (empty := gt0 excess).
  set (k := count empty).
  intros Hr. inv_bind Hr. rename v into Sigma1.
  apply NpFacts.mask_set_Ok in E. destruct E as [Hl ->].
  assert (HlE : length empty = length Dt)
    by (unfold empty, gt0, excess; now rewrite !length_map).
  assert (Hl1 : length (map2 (fun (b : bool) x => if b then 0 else x) empty Sigma0)
                = length Dt).
  { rewrite NpFacts.map2_length; congruence. }
  split; [congruence|].
  destruct (Nat.ltb_spec k n) as [Hkn|Hkn].
  - replace (- (Z.of_nat k + 1))%Z with (- Z.of_nat (S k))%Z in Hr by lia.
    inv_bind Hr. rename E into Hs.
    apply Marginal.getitem_from_end in Hs; [|lia]. destruct Hs as [Hk1 _].
    rewrite Hl1 in Hk1.
    inv_bind Hr. inv_bind Hr. inv_bind Hr. inv_bind Hr.
    apply Marginal.setitem_from_end in Hr; [|lia]. subst Sigma'.
    rewrite Hl1. split.
    + rewrite replace_length; [congruence | lia].
    + intros i s t Hs Ht Hi.
      rewrite nth_error_replace_other; [|lia|now apply Hi].
      now apply masked_nth.
  - injection Hr as <-. split; [congruence|].
    intros i s t Hs Ht _. now apply masked_nth.
Qed.

(** At least as many annuli are emptied as there are from [g] outwards
    with a depletion time shorter than the step. *)
Lemma count_tail (m : list bool) (g : nat) :
  (forall j, (g <= j < length m)%nat -> nth_error m j = Some true) ->
  (length m - g <= count m)%nat.
Proof.
  revert g. induction m as [|b m IH]; intros g Hall; [simpl; lia|].
  destruct g as [|g].
  - rewrite (Marginal.count_all_true (b :: m)) by (intros i Hi; apply Hall; lia).
    lia.
  - rewrite Marginal.count_cons. cbn [length]. specialize (IH g).
    assert (length m - g <= count m)%nat; [|destruct b; simpl; lia].
    apply IH. intros j Hj. apply (Hall (S j)). simpl. lia.
Qed.

End Frame.

Section PaddedTimes.
Context {E : Env}.

(** The depletion times of [get_timescale]: one quotient per annulus
    that holds gas, then zeros up to the number of annuli, summed from
    the outer edge inwards. *)
Lemma get_timescale_shape (self self1 : Evap) (d : Disc) (Track : bool)
  (ev g M Dt : list Q) :
  wf_shape d ->
  get_timescale self d Track = Ok (self1, (ev, g, M, Dt)) ->
  exists Dt_R : list Q,
    length Dt_R = Np.count (Np.gt0 (Sigma_G d)) /\
    Dt = rev (Np.cumsum (rev (Dt_R ++ Np.zeros (length (Sigma_G d) - length Dt_R)))) /\
    length Dt = length (Sigma_G d).
Proof.
  intros Hshape. unfold get_timescale. intros Hg.
  inv_bind Hg. destruct v as [self0 [dM_evap dM_gas]]. rename E0 into Hu.
  inv_bind Hg. rename v into sel_g, E0 into Hsg.
  inv_bind Hg. rename v into sel_e, E0 into Hse.
  inv_bind Hg. rename v into Dt_R, E0 into Hdiv.
  inv_bind Hg. rename v into Dt_R', E0 into Hpad.
  inv_bind Hg. injection Hg as _ _ _ _ <-.
  apply NpFacts.bool_index_Ok in Hsg, Hse.
  destruct Hsg as [Hlg ->], Hse as [Hle ->].
  assert (Hlm : length (Np.gt0 (Sigma_G d)) = length (Sigma_G d))
    by (unfold Np.gt0; now rewrite length_map).
  unfold Np.divide in Hdiv. destruct (Np.all_nonzero _); [|discriminate].
  rewrite SumFacts.broadcast_same_length in Hdiv
    by (rewrite !CompressFacts.compress_length; congruence).
  injection Hdiv as <-.
  set (Dt_R := Np.map2 Qdiv _ _) in *.
  assert (Hc : length Dt_R = Np.count (Np.gt0 (Sigma_G d))).
  { unfold Dt_R. rewrite NpFacts.map2_length;
      rewrite !CompressFacts.compress_length; congruence. }
  unfold Np.pad_zeros in Hpad.
  destruct (Nat.leb_spec (length Dt_R) (length (Sigma_G d))) as [Hle'|];
    [|discriminate].
  injection Hpad as <-.
  exists Dt_R. split; [exact Hc|]. split; [reflexivity|].
  rewrite length_rev, Cumulative.cumsum_length, length_rev, length_app.
  unfold Np.zeros. rewrite repeat_length. lia.
Qed.

(** The depletion time of an annulus whose index is at least the number
    of annuli that hold gas is a sum of padding zeros. *)
Lemma get_timescale_padding (self self1 : Evap) (d : Disc) (Track : bool)
  (ev g M Dt : list Q) (i : nat) (t : Q) :
  wf_shape d ->
  get_timescale self d Track = Ok (self1, (ev, g, M, Dt)) ->
  (Np.count (Np.gt0 (Sigma_G d)) <= i)%nat ->
  nth_error Dt i = Some t -> t == 0.
Proof.
  intros Hshape Hg Hi Ht.
  destruct (get_timescale_shape _ _ _ _ _ _ _ _ Hshape Hg) as (Dt_R & Hc & -> & _).
  apply Cumulative.suffix_sum_nth in Ht. rewrite Ht.
  apply SumFacts.sum_zero.
  rewrite skipn_app.
  rewrite skipn_all2 by lia. simpl.
  apply Cumulative.Forall_skipn.
  apply ZeroStep.zeros_zero.
Qed.

End PaddedTimes.

(** X5. The zeros that [get_timescale] appends for the annuli without gas
    stand at the outer end of the depletion times, wherever those annuli
    are.  So on a disc of the data contract of which only [g] annuli hold
    gas, every annulus from index [g] outwards has depletion time 0, and
    a step of any positive length that [timescale_remove] completes
    leaves it with surface density 0, whether it held gas or not. *)
Theorem gas_free_annuli_empty_the_outer_edge :
  forall (E : Env) (self self' : Evap) (d d' : Disc) (dt : Q) (Track : bool)
         (i : nat),
    wf_shape d -> 0 < dt ->
    timescale_remove self d dt Track = Ok (self', d') ->
    (Np.count (Np.gt0 (Sigma_G d)) <= i < length (R d))%nat ->
    nth_error (_Sigma d') i = Some 0.
Proof.
  intros E self self' d d' dt Track i Hshape Hdt Hr Hi.
  unfold timescale_remove in Hr.
  inv_bind Hr. destruct v as [self1 [[[ev g] M] Dt]]. rename E0 into Hg.
  inv_bind Hr. rename v into Sigma', E0 into Hd. injection Hr as _ <-. simpl.
  destruct (get_timescale_shape _ _ _ _ _ _ _ _ Hshape Hg) as (_ & _ & _ & HlD).
  pose proof (fun j u => get_timescale_padding _ _ _ _ _ _ _ _ j u Hshape Hg)
    as Hpad.
  destruct Hshape as (He & HS & HG).
  destruct (Frame.deplete_frame _ _ _ _ _ Hd) as (Hl0 & Hl' & Hframe).
  destruct (ListFacts.nth_error_ex (_Sigma d) i) as [s Hs]; [lia|].
  destruct (ListFacts.nth_error_ex Dt i) as [t Ht]; [lia|].
  assert (Hempty : forall j, (Np.count (Np.gt0 (Sigma_G d)) <= j < length Dt)%nat ->
             nth_error (Np.gt0 (map (fun t => dt - t) Dt)) j = Some true).
  { intros j Hj.
    destruct (ListFacts.nth_error_ex Dt j) as [u Hu]; [lia|].
    rewrite (Marginal.emptied_mask_nth Dt dt j u Hu). f_equal.
    apply NpFacts.Qltb_lt.
    assert (u == 0) by (apply (Hpad j u); [lia | exact Hu]). lra. }
  rewrite (Hframe i s t Hs Ht).
  - assert (Hb : Np.Qltb 0 (dt - t) = true).
    { specialize (Hempty i ltac:(lia)).
      rewrite (Marginal.emptied_mask_nth Dt dt i t Ht) in Hempty.
      now injection Hempty. }
    now rewrite Hb.
  - intros Hk.
    pose proof (Frame.count_tail (Np.gt0 (map (fun t => dt - t) Dt))
                  (Np.count (Np.gt0 (Sigma_G d)))) as Hc.
    unfold emptied in *.
    assert (Hlm : length (Np.gt0 (map (fun t => dt - t) Dt)) = length Dt)
      by (unfold Np.gt0; now rewrite !length_map).
    rewrite Hlm in Hc. specialize (Hc Hempty). lia.
Qed.

(** The disc [disc_gap] has no gas in its third annulus: a step of a
    millionth of a time unit empties the fourth, which held gas. *)
Lemma gas_free_annuli_empty_the_outer_edge_witness :
  exists (self' : Evap) (d' : Disc),
    timescale_remove (E := cgs) fried_M_to_10AU disc_gap (1 # 1000000) true
    = Ok (self', d') /\
    nth_error (Sigma_G disc_gap) 3 = Some 2 /\
    nth_error (_Sigma d') 3 = Some 0.
Proof.
  destruct (timescale_remove (E := cgs) fried_M_to_10AU disc_gap (1 # 1000000) true)
    as [[self' d']|e] eqn:Hc; [|vm_compute in Hc; discriminate Hc].
  exists self', d'. split; [reflexivity|]. split; [reflexivity|].
  apply (gas_free_annuli_empty_the_outer_edge cgs fried_M_to_10AU self'
           disc_gap d' (1 # 1000000) true 3).
  - repeat split.
  - reflexivity.
  - exact Hc.
  - vm_compute. lia.
Defined.

Section MarginalAnnulus.
Import Np.

(** The marginal annulus, when at least one annulus is emptied and the
    depletion times do not increase outwards: it is the annulus just
    inside the emptied ones, its own depletion time [a] is not shorter
    than the step and that of its outer neighbour [b] is, and it keeps
    the share [(a - dt) / (a - b)] of its surface density. *)
Lemma deplete_marginal (Sigma0 Dt : list Q) (n : nat) (dt : Q) (Sigma' : list Q) :
  nonincreasing Dt ->
  (0 < emptied Dt dt < n)%nat ->
  deplete Sigma0 Dt n dt = Ok Sigma' ->
  exists s a b : Q,
    nth_error Sigma0 (length Dt - S (emptied Dt dt)) = Some s /\
    nth_error Dt (length Dt - S (emptied Dt dt)) = Some a /\
    nth_error Dt (length Dt - emptied Dt dt) = Some b /\
    b < dt /\ dt <= a /\
    nth_error Sigma' (length Dt - S (emptied Dt dt))
    = Some (s * (- (1) * (dt - a) / (a - b))).
Proof.
  intros Hd [Hk Hkn]. unfold deplete, emptied in *.
  set (excess := map (fun t => dt - t) Dt) in *.
  set (empty := gt0 excess) in *.
  set (k := count empty) in *.
  intros Hr. inv_bind Hr. rename v into Sigma1.
  apply NpFacts.mask_set_Ok in E. destruct E as [Hl ->].
  set (Sigma1 := map2 _ empty Sigma0) in *.
  assert (HlE : length empty = length Dt)
    by (unfold empty, gt0, excess; now rewrite !length_map).
  assert (Hl1 : length Sigma1 = length Dt).
  { unfold Sigma1. rewrite NpFacts.map2_length; congruence. }
  apply Nat.ltb_lt in Hkn. rewrite Hkn in Hr.
  replace (- (Z.of_nat k + 1))%Z with (- Z.of_nat (S k))%Z in Hr by lia.
  replace (- Z.of_nat (S k) + 1)%Z with (- Z.of_nat k)%Z in Hr by lia.
  inv_bind Hr. rename v into s1, E into Hs.
  inv_bind Hr. rename v into x, E into Hx.
  inv_bind Hr. rename v into a, E into Ha.
  inv_bind Hr. rename v into b, E into Hb.
  inv_bind Hr. rename v into f, E into Hf.
  apply Marginal.getitem_from_end in Hs, Hx, Ha; try lia.
  apply Marginal.getitem_from_end in Hb; [|exact Hk].
  destruct Hs as [Hk1 Hs], Hx as [_ Hx], Ha as [_ Ha], Hb as [_ Hb].
  rewrite Hl1 in Hk1, Hs.
  unfold excess in Hx. rewrite length_map, nth_error_map, Ha in Hx.
  injection Hx as <-.
  pose proof (Marginal.upward_threshold empty
                (Marginal.emptied_mask_upward Dt dt Hd)) as Hth.
  fold excess empty k in Hth. rewrite HlE in Hth.
  assert (Hin : Qltb 0 (dt - a) = false).
  { specialize (Hth (length Dt - S k)%nat ltac:(lia)).
    unfold empty, excess in Hth.
    rewrite (Marginal.emptied_mask_nth Dt dt _ a Ha) in Hth.
    injection Hth as ->. apply Nat.leb_gt. lia. }
  assert (Hout : Qltb 0 (dt - b) = true).
  { specialize (Hth (length Dt - k)%nat ltac:(lia)).
    unfold empty, excess in Hth.
    rewrite (Marginal.emptied_mask_nth Dt dt _ b Hb) in Hth.
    injection Hth as ->. apply Nat.leb_le. lia. }
  destruct (ListFacts.nth_error_ex Sigma0 (length Dt - S k)) as [s Hs0]; [lia|].
  assert (Hs1 : s1 = s).
  { unfold Sigma1, empty, excess in Hs.
    rewrite (Frame.masked_nth Sigma0 Dt dt _ s a Hs0 Ha), Hin in Hs.
    congruence. }
  subst s1.
  apply NpFacts.Qltb_ge in Hin. apply NpFacts.Qltb_lt in Hout.
  apply qdiv_Ok in Hf. destruct Hf as [_ ->].
  apply Marginal.setitem_from_end in Hr; [|lia]. subst Sigma'.
  exists s, a, b. rewrite Hl1.
  repeat (split; [first [assumption | lra]|]).
  apply Frame.nth_error_replace_same. lia.
Qed.

End MarginalAnnulus.

(** X6. A step of [timescale_remove] that empties [k >= 1] annuli, on a
    disc of the data contract with positive raw rates.  The [k] emptied
    annuli are the outermost ones and end at surface density 0; the
    annuli inside the marginal one keep their surface density; the
    marginal annulus, just inside the emptied ones, keeps the share
    [(a - dt) / (a - b)] of its own, where [a] is its depletion time and
    [b] that of its outer neighbour, and this share lies in [[0, 1)]. *)
Theorem timescale_remove_frame :
  forall (E : Env) (L : EnvLaws E) (self self1 self' : Evap) (d d' : Disc)
         (dt : Q) (Track : bool) (ev g M Dt : list Q),
    wf_shape d -> wf_edges d -> positive_rates self d ->
    get_timescale self d false = Ok (self1, (ev, g, M, Dt)) ->
    timescale_remove self d dt Track = Ok (self', d') ->
    (0 < emptied Dt dt)%nat ->
    let N := length (R d) in
    let k := emptied Dt dt in
    length (_Sigma d') = N /\
    (forall i : nat, (N - k <= i < N)%nat -> nth_error (_Sigma d') i = Some 0) /\
    (forall (i : nat) (s : Q),
        (i + S k < N)%nat -> nth_error (_Sigma d) i = Some s ->
        nth_error (_Sigma d') i = Some s) /\
    ((k < N)%nat ->
     exists s a b f : Q,
       nth_error (_Sigma d) (N - S k) = Some s /\
       nth_error Dt (N - S k) = Some a /\
       nth_error Dt (N - k) = Some b /\
       f == (a - dt) / (a - b) /\ 0 <= f /\ f < 1 /\
       nth_error (_Sigma d') (N - S k) = Some (s * f)).
Proof.
  intros E L self self1 self' d d' dt Track ev g M Dt Hshape Hedges Hrates Hg Hr Hk
         N k.
  pose proof (get_timescale_nonincreasing _ _ _ _ _ _ _ _ Hshape Hedges Hrates Hg)
    as Hmono.
  destruct (get_timescale_shape _ _ _ _ _ _ _ _ Hshape Hg) as (_ & _ & _ & HlD).
  unfold timescale_remove in Hr.
  inv_bind Hr. destruct v as [self2 [[[ev' g'] M'] Dt']]. rename E0 into Hg'.
  apply get_timescale_untracked in Hg'. rewrite Hg in Hg'.
  injection Hg' as _ <- <- <- <-.
  inv_bind Hr. rename v into Sigma', E0 into Hd. injection Hr as _ <-. simpl.
  destruct Hshape as (He & HS & HG).
  destruct (Frame.deplete_frame _ _ _ _ _ Hd) as (Hl0 & Hl' & Hframe).
  assert (HN : length Dt = N) by (unfold N; congruence).
  pose proof (Marginal.upward_threshold _
                (Marginal.emptied_mask_upward Dt dt Hmono)) as Hth.
  assert (Hlm : length (Np.gt0 (map (fun t => dt - t) Dt)) = N)
    by (unfold Np.gt0; now rewrite !length_map).
  rewrite Hlm in Hth. fold (emptied Dt dt) in Hth. fold k in Hth.
  assert (Hmask : forall i t, (i < N)%nat -> nth_error Dt i = Some t ->
                              Np.Qltb 0 (dt - t) = Nat.leb (N - k) i).
  { intros i t Hi Ht. specialize (Hth i Hi).
    rewrite (Marginal.emptied_mask_nth Dt dt i t Ht) in Hth. now injection Hth. }
  fold k in Hframe. rewrite HN in Hframe.
  split; [congruence|]. split; [|split].
  - intros i Hi.
    destruct (ListFacts.nth_error_ex (_Sigma d) i) as [s Hs]; [lia|].
    destruct (ListFacts.nth_error_ex Dt i) as [t Ht]; [lia|].
    rewrite (Hframe i s t Hs Ht) by lia.
    rewrite (Hmask i t) by (lia || assumption).
    destruct (Nat.leb_spec (N - k) i); [reflexivity | lia].
  - intros i s Hi Hs.
    destruct (ListFacts.nth_error_ex Dt i) as [t Ht]; [lia|].
    rewrite (Hframe i s t Hs Ht) by lia.
    rewrite (Hmask i t) by (lia || assumption).
    destruct (Nat.leb_spec (N - k) i); [lia | reflexivity].
  - intros HkN.
    assert (Hkn : (0 < emptied Dt dt < length (Sigma_G d))%nat)
      by (unfold N, k in HkN; lia).
    destruct (deplete_marginal _ _ _ _ _ Hmono Hkn Hd)
      as (s & a & b & Hs & Ha & Hb & Hlt & Hle & Hs').
    fold k in Hs, Ha, Hb, Hs'. rewrite HN in Hs, Ha, Hb, Hs'.
    exists s, a, b, (- (1) * (dt - a) / (a - b)).
    repeat (split; [assumption|]).
    assert (Hab : 0 < a - b) by lra.
    split; [field; lra|].
    split; [apply Qle_shift_div_l; lra|].
    split; [apply Qlt_shift_div_r; lra | exact Hs'].
Qed.

(** Five annuli of surface density 10 and a step that empties the
    outermost one: it ends at 0 and the three innermost stay at 10. *)
Lemma timescale_remove_frame_witness :
  exists (self' : Evap) (d' : Disc),
    timescale_remove (E := cgs) fixed_default disc_uniform 30000 true
    = Ok (self', d') /\
    nth_error (_Sigma d') 4 = Some 0 /\
    nth_error (_Sigma d') 2 = Some 10.
Proof.
  destruct (timescale_remove (E := cgs) fixed_default disc_uniform 30000 true)
    as [[self' d']|e] eqn:Hr; [|vm_compute in Hr; discriminate Hr].
  destruct (get_timescale (E := cgs) fixed_default disc_uniform false)
    as [[self1 [[[ev g] M] Dt]]|e] eqn:Hg; [|vm_compute in Hg; discriminate Hg].
  assert (Hk : emptied Dt 30000 = 1%nat)
    by (vm_compute in Hg; injection Hg as _ _ _ _ <-; reflexivity).
  assert (Hshape : wf_shape disc_uniform) by (repeat split).
  assert (Hedges : wf_edges disc_uniform)
    by (split; repeat constructor; discriminate).
  assert (Hrates : positive_rates (E := cgs) fixed_default disc_uniform)
    by (apply (Fixed_positive_rates (L := cgs_laws) fixed_default disc_uniform 1e-8);
        reflexivity).
  assert (Hpos : (0 < emptied Dt 30000)%nat) by (rewrite Hk; lia).
  destruct (timescale_remove_frame cgs cgs_laws fixed_default self1 self'
              disc_uniform d' 30000 true ev g M Dt Hshape Hedges Hrates Hg Hr Hpos)
    as (_ & Hout & Hin & _).
  exists self', d'. split; [reflexivity|]. split.
  - apply Hout. rewrite Hk. simpl. lia.
  - apply (Hin 2%nat 10); [rewrite Hk; simpl; lia | reflexivity].
Defined.

(** ** The rate that [weighted_removal] records *)

Section RecordedRate.
Context {E : Env} {L : EnvLaws E}.

Lemma sum_scale_l (a : list Q) (c : Q) :
  Np.sum (map (fun x => c * x) a) == c * Np.sum a.
Proof. induction a as [|x a IH]; simpl; [ring | rewrite IH; ring]. Qed.

(** The effective rates add up to the one total rate that tracking
    records, in Msun / yr. *)
Lemma optically_thin_weighting_total (self self1 : Evap) (d : Disc)
  (Track : bool) (M_dot_eff dM_gas : list Q) :
  optically_thin_weighting self d Track = Ok (self1, (M_dot_eff, dM_gas)) ->
  exists tot : Q,
    Np.sum M_dot_eff == tot /\
    self1 = if Track
            then set_Mdot self (np_append (_Mdot self) (tot * (yr / Msun)))
            else self.
Proof.
  unfold optically_thin_weighting. intros Ho. inv_bind Ho.
  destruct v as [self0 [Mdot dM_gas0]].
  rename E0 into Hu. apply unweighted_rates_provider in Hu. subst self0.
  inv_bind Ho. rename v into i, E0 into Hi.
  inv_bind Ho. rename v into w, E0 into Hw.
  inv_bind Ho. rename v into contrib, E0 into Hc. injection Ho as <- <- _.
  exists (Np.sum contrib). split; [|reflexivity].
  apply ot_weights_Ok in Hw. destruct Hw as (ot & s & _ & _ & Hnz & ->).
  rewrite sum_scale_l, SumFacts.sum_masked_quotient. field. exact Hnz.
Qed.

(** [weighted_removal] leaves [_Mdot] as the weighting set it. *)
Lemma weighted_removal_Mdot (self self1 self' : Evap) (d d' : Disc) (dt : Q)
  (Track : bool) (x : list Q * list Q) :
  optically_thin_weighting self d Track = Ok (self1, x) ->
  weighted_removal self d dt Track = Ok (self', d') ->
  _Mdot self' = _Mdot self1.
Proof.
  intros Ho. unfold weighted_removal. rewrite Ho. simpl.
  destruct x as [dM_dot dM_gas]. intros Hw.
  destruct (dust d) as [du|].
  - inv_bind Hw. destruct v as [self2 pre]. rename E0 into Hpre.
    inv_bind Hw. destruct v as [dM_evap Sigma1].
    inv_bind Hw. injection Hw as <- _.
    unfold entrainment_setup in Hpre. inv_binds. reflexivity.
  - inv_bind Hw. destruct v as [dM_evap Sigma1]. injection Hw as <- _.
    reflexivity.
Qed.

End RecordedRate.

(** X7. What a tracked [weighted_removal] appends to [_Mdot] is the rate
    at which it removes gas.  On a disc of the data contract, the mass
    that leaves the surface density, summed over the annuli, is the
    recorded entry (in Msun / yr, converted back) times [dt], plus the
    entrained dust that the call adds to [_Mwind_cum] when the disc is
    dusty. *)
Theorem weighted_removal_records_removal_rate :
  forall (E : Env) (L : EnvLaws E) (self self' : Evap) (d d' : Disc) (dt : Q),
    wf_shape d -> wf_edges d ->
    weighted_removal self d dt true = Ok (self', d') ->
    exists v : Q,
      _Mdot self' = np_append (_Mdot self) v /\
      removed_mass d (_Sigma d') == v * (Msun / yr) * dt + wind_gain d d'.
Proof.
  intros E L self self' d d' dt Hshape Hedges Hw.
  pose proof Msun_pos as HMs. pose proof yr_pos as Hyr.
  destruct (optically_thin_weighting self d true)
    as [[self1 [dM_dot dM_gas]]|e] eqn:Ho;
    [|unfold weighted_removal in Hw; rewrite Ho in Hw; discriminate Hw].
  destruct (optically_thin_weighting_total _ _ _ _ _ _ Ho) as (tot & Htot & Hself).
  exists (tot * (yr / Msun)).
  split.
  { rewrite (weighted_removal_Mdot _ _ _ _ _ _ _ _ Ho Hw), Hself. reflexivity. }
  assert (Hunits : tot * (yr / Msun) * (Msun / yr) * dt == Np.sum dM_dot * dt)
    by (rewrite Htot; field; split; lra).
  rewrite Hunits.
  pose proof (optically_thin_weighting_length _ _ _ _ _ _ Ho) as Hl.
  destruct (dust d) as [du|] eqn:Hdu.
  - destruct (weighted_removal_mass_balance _ _ _ _ _ du _ _ _ _
                Hshape Hedges Hdu Ho Hw) as (du' & Hdu' & Hbal).
    unfold wind_gain. rewrite Hdu, Hdu'. exact Hbal.
  - unfold weighted_removal in Hw. rewrite Ho in Hw. simpl in Hw.
    rewrite Hdu, (gas_loss_Ok d dM_dot dt Hshape Hedges Hl) in Hw.
    simpl in Hw. injection Hw as _ <-.
    unfold wind_gain. rewrite Hdu. simpl.
    unfold removed_mass. destruct Hshape as (He & HS & HG).
    rewrite removed_sum; [ring | congruence | | now apply annulus_areas_nonzero].
    rewrite annulus_areas_length, He. exact Hl.
Qed.

Lemma weighted_removal_records_removal_rate_witness :
  exists (self' : Evap) (d' : Disc) (v : Q),
    weighted_removal (E := cgs) fried_S_amax4 dusty_peak 1 true = Ok (self', d') /\
    _Mdot self' = Array [v] /\
    removed_mass (E := cgs) dusty_peak (_Sigma d')
    == v * (@Msun cgs / @yr cgs) * 1 + wind_gain dusty_peak d'.
Proof.
  destruct (weighted_removal (E := cgs) fried_S_amax4 dusty_peak 1 true)
    as [[self' d']|e] eqn:Hw; [|vm_compute in Hw; discriminate Hw].
  assert (Hshape : wf_shape dusty_peak) by (repeat split).
  assert (Hedges : wf_edges dusty_peak)
    by (split; repeat constructor; discriminate).
  destruct (weighted_removal_records_removal_rate cgs cgs_laws fried_S_amax4 self'
              dusty_peak d' 1 Hshape Hedges Hw) as (v & Hv & Hm).
  exists self', d', v. split; [reflexivity|]. split; [exact Hv | exact Hm].
Defined.

(** ** A step of length zero, dust included *)

Section ZeroStepDust.
Context {E : Env}.


End ZeroStepDust.



(** ** The dust fractions after [weighted_removal] *)

Module Fractions.
Import Np.

Lemma compress_scatter {A : Type} (m : list bool) (a v : list A) :
  length a = length m -> length v = length m ->
  compress m (scatter m a (compress m v)) = compress m v.
Proof.
  revert a v. induction m as [|b m IH]; intros [|x a] [|y v] Ha Hv;
    simpl in *; try discriminate; try reflexivity.
  injection Ha as Ha. injection Hv as Hv.
  destruct b; simpl; rewrite IH; auto.
Qed.

Lemma divide_Ok_same_length (a b r : list Q) :
  length a = length b -> divide a b = Ok r -> r = map2 Qdiv a b.
Proof.
  intros Hl. unfold divide. destruct (all_nonzero b); [|discriminate].
  rewrite (SumFacts.broadcast_same_length _ _ _ Hl). now intros [= <-].
Qed.

Lemma broadcast_Ok_same_length {A B C : Type} (f : A -> B -> C) (a : list A)
  (b : list B) (r : list C) :
  length a = length b -> broadcast f a b = Ok r -> r = map2 f a b.
Proof.
  intros Hl. rewrite (SumFacts.broadcast_same_length _ _ _ Hl). now intros [= <-].
Qed.

Lemma inplace_Ok_same_length {A B : Type} (f : A -> B -> A) (a : list A)
  (b : list B) (r : list A) :
  length a = length b -> inplace f a b = Ok r -> r = map2 f a b.
Proof.
  intros Hl. rewrite (SumFacts.inplace_same_length _ _ _ Hl). now intros [= <-].
Qed.

Lemma zeros_like_length {A : Type} (a : list A) :
  length (zeros_like a) = length a.
Proof. unfold zeros_like, zeros. apply repeat_length. Qed.

Lemma gt0_length (a : list Q) : length (gt0 a) = length a.
Proof. unfold gt0. apply length_map. Qed.

End Fractions.

Section DustFractions.
Context {E : Env}.

(** The second dust block of [weighted_removal], annulus by annulus. *)
Lemma dust_loss_fractions (d d' : Disc) (du : Dust)
  (Sigma1 dM_gas dM_evap Sigma_D0 f_m M_ent : list Q) :
  length Sigma1 = length (annulus_areas d) ->
  length dM_gas = length (annulus_areas d) ->
  dust_loss d du Sigma1 dM_gas dM_evap (Sigma_D0, f_m, M_ent) = Ok d' ->
  exists du' : Dust,
    dust d' = Some du' /\
    length (_Sigma d') = length Sigma1 /\
    length Sigma_D0 = length Sigma1 /\
    length (fst (_eps du)) = length Sigma1 /\
    length (snd (_eps du)) = length Sigma1 /\
    forall (i : nat) (s' : Q),
      nth_error (_Sigma d') i = Some s' ->
      (s' <= 0 ->
       nth_error (fst (_eps du')) i = nth_error (fst (_eps du)) i /\
       nth_error (snd (_eps du')) i = nth_error (snd (_eps du)) i) /\
      (0 < s' ->
       forall s1 D : Q,
         nth_error Sigma1 i = Some s1 -> nth_error Sigma_D0 i = Some D ->
         exists x0 x1 : Q,
           nth_error (fst (_eps du')) i = Some x0 /\
           nth_error (snd (_eps du')) i = Some x1 /\
           (x0 + x1) * s' == D - (s1 - s')).
Proof.
  intros Hl1 Hlg. unfold dust_loss. intros Hd.
  set (dA := annulus_areas d) in *.
  set (gas := Np.gt0 dM_gas) in *.
  inv_bind Hd. rename v into a, E0 into Ha.
  inv_bind Hd. rename v into b, E0 into Hb.
  inv_bind Hd. rename v into c, E0 into Hc.
  inv_bind Hd. rename v into ab, E0 into Hab.
  inv_bind Hd. rename v into q, E0 into Hq.
  inv_bind Hd. rename v into M_ent_w, E0 into Hw.
  inv_bind Hd. rename v into lost, E0 into Hlost.
  inv_bind Hd. rename v into Sigma2, E0 into H2.
  set (ne := Np.gt0 Sigma2) in *.
  inv_bind Hd. rename v into sd, E0 into Hsd.
  inv_bind Hd. rename v into mw, E0 into Hmw.
  inv_bind Hd. rename v into da, E0 into Hda.
  inv_bind Hd. rename v into l, E0 into Hl.
  inv_bind Hd. rename v into new_Sigma_D, E0 into Hnew.
  inv_bind Hd. rename v into s2, E0 into Hs2.
  inv_bind Hd. rename v into ndf, E0 into Hndf.
  inv_bind Hd. rename v into new_dust_frac, E0 into Hfrac.
  inv_bind Hd. rename v into nd, E0 into Hnd.
  inv_bind Hd. rename v into fm, E0 into Hfm.
  inv_bind Hd. rename v into v0, E0 into Hv0.
  inv_bind Hd. rename v into eps0, E0 into He0.
  inv_bind Hd. rename v into v1, E0 into Hv1.
  inv_bind Hd. rename v into eps1, E0 into He1.
  injection Hd as <-.
  (* lengths *)
  apply NpFacts.bool_index_Ok in Ha. destruct Ha as [HlM _].
  apply NpFacts.mask_assign_Ok in Hw. destruct Hw as (_ & _ & ->).
  assert (HlMw : length (Np.scatter gas (Np.zeros_like M_ent) q) = length dA).
  { rewrite scatter_length, Fractions.zeros_like_length, HlM.
    unfold gas. rewrite Fractions.gt0_length. exact Hlg. }
  set (M_ent_w := Np.scatter gas (Np.zeros_like M_ent) q) in *.
  apply (Fractions.divide_Ok_same_length _ _ _ HlMw) in Hlost. subst lost.
  set (lost := Np.map2 Qdiv M_ent_w dA) in *.
  assert (Hllost : length lost = length dA)
    by (unfold lost; rewrite NpFacts.map2_length; auto).
  apply Fractions.inplace_Ok_same_length in H2; [|congruence]. subst Sigma2.
  set (Sigma2 := Np.map2 Qminus Sigma1 lost) in *.
  assert (Hl2 : length Sigma2 = length Sigma1)
    by (unfold Sigma2; rewrite NpFacts.map2_length; congruence).
  assert (Hlne : length ne = length Sigma1)
    by (unfold ne; rewrite Fractions.gt0_length; exact Hl2).
  apply NpFacts.bool_index_Ok in Hsd, Hmw, Hda, Hs2, Hfm.
  destruct Hsd as [HlD ->], Hmw as [_ ->], Hda as [_ ->], Hs2 as [_ ->],
           Hfm as [Hlf ->].
  apply Fractions.divide_Ok_same_length in Hl;
    [|rewrite !CompressFacts.compress_length; congruence].
  rewrite NpFacts.compress_map2 in Hl. fold lost in Hl. subst l.
  apply Fractions.broadcast_Ok_same_length in Hnew;
    [|rewrite !CompressFacts.compress_length; congruence].
  rewrite NpFacts.compress_map2 in Hnew. subst new_Sigma_D.
  assert (HlDl : length (Np.map2 Qminus Sigma_D0 lost) = length Sigma1)
    by (rewrite NpFacts.map2_length; congruence).
  apply Fractions.divide_Ok_same_length in Hndf;
    [|rewrite !CompressFacts.compress_length; congruence].
  rewrite NpFacts.compress_map2 in Hndf. subst ndf.
  set (V := Np.map2 Qdiv (Np.map2 Qminus Sigma_D0 lost) Sigma2) in *.
  assert (HlV : length V = length Sigma1)
    by (unfold V; rewrite NpFacts.map2_length; congruence).
  apply NpFacts.mask_assign_Ok in Hfrac. destruct Hfrac as (_ & _ & ->).
  apply NpFacts.bool_index_Ok in Hnd. destruct Hnd as [_ ->].
  rewrite Fractions.compress_scatter in Hv0, Hv1;
    try (rewrite ?Fractions.zeros_like_length; congruence).
  apply Fractions.broadcast_Ok_same_length in Hv0, Hv1;
    try (rewrite !CompressFacts.compress_length; congruence).
  rewrite NpFacts.compress_map2 in Hv0, Hv1. subst v0 v1.
  apply NpFacts.mask_assign_Ok in He0, He1.
  destruct He0 as (Hle0 & _ & ->), He1 as (Hle1 & _ & ->).
  eexists. split; [reflexivity|]. simpl.
  split; [exact Hl2|]. split; [congruence|].
  split; [congruence|]. split; [congruence|].
  intros i s' Hs'.
  assert (Hnei : nth_error ne i = Some (Np.Qltb 0 s'))
    by (unfold ne; now apply GasFree.gt0_nth).
  split.
  - intros Hneg. apply NpFacts.Qltb_ge in Hneg. rewrite Hneg in Hnei.
    split; now apply NpFacts.scatter_false.
  - intros Hpos s1 D Hs1 HD.
    assert (Hb' := Hpos). apply NpFacts.Qltb_lt in Hb'. rewrite Hb' in Hnei.
    assert (Hi : (i < length Sigma1)%nat)
      by (apply nth_error_Some; congruence).
    destruct (ListFacts.nth_error_ex lost i) as [w Hw]; [congruence|].
    destruct (ListFacts.nth_error_ex f_m i) as [f Hf]; [congruence|].
    assert (Hs2 : s' = s1 - w).
    { unfold Sigma2 in Hs'.
      rewrite (NpFacts.map2_nth Qminus _ _ _ _ _ Hs1 Hw) in Hs'. congruence. }
    assert (HV : nth_error V i = Some ((D - w) / s')).
    { unfold V.
      apply (NpFacts.map2_nth Qdiv); [|exact Hs'].
      now apply (NpFacts.map2_nth Qminus). }
    exists ((D - w) / s' * (1 - f)), ((D - w) / s' * f).
    split; [|split].
    + apply NpFacts.scatter_compress_true; [congruence | exact Hnei|].
      now apply (NpFacts.map2_nth (fun n f => n * (1 - f))).
    + apply NpFacts.scatter_compress_true; [congruence | exact Hnei|].
      now apply (NpFacts.map2_nth Qmult).
    + rewrite Hs2 in *. field. lra.
Qed.

End DustFractions.

Section DustFractionsStep.
Context {E : Env} {L : EnvLaws E}.

Lemma optically_thin_weighting_gas (self self1 : Evap) (d : Disc) (Track : bool)
  (dM_dot dM_gas : list Q) :
  wf_shape d ->
  optically_thin_weighting self d Track = Ok (self1, (dM_dot, dM_gas)) ->
  dM_gas = Np.map2 Qmult (Sigma_G d) (annulus_areas d).
Proof.
  intros Hshape. unfold optically_thin_weighting. intros Ho.
  inv_bind Ho. destruct v as [self0 [Mdot dM_gas0]]. rename E0 into Hu.
  apply (unweighted_rates_gas _ _ _ _ _ _ Hshape) in Hu. subst dM_gas0.
  inv_binds. reflexivity.
Qed.

Lemma entrainment_setup_Sigma_D (self self2 : Evap) (d : Disc) (du : Dust)
  (dM_dot Sigma_D0 f_m M_ent : list Q) :
  length (fst (Sigma_D du)) = length (snd (Sigma_D du)) ->
  entrainment_setup self d du dM_dot = Ok (self2, (Sigma_D0, f_m, M_ent)) ->
  Sigma_D0 = Np.map2 Qplus (fst (Sigma_D du)) (snd (Sigma_D du)).
Proof.
  intros Hl. unfold entrainment_setup.
  rewrite (SumFacts.broadcast_same_length _ _ _ Hl). simpl.
  intros Hs. inv_binds. reflexivity.
Qed.

End DustFractionsStep.

(** X9. The dust fractions after [weighted_removal] on a dusty disc of the
    data contract, annulus by annulus.  Where surface density remains,
    the two new fractions together, times the new surface density, are
    the dust surface density before the step less the dust that left the
    annulus (what the surface density lost beyond the gas,
    [rate * dt / area]).  Where the surface density is zero or negative
    after the step, both fractions stay as they were; they are not set
    to zero. *)
Theorem weighted_removal_dust_fractions :
  forall (E : Env) (L : EnvLaws E) (self self1 self' : Evap) (d d' : Disc)
         (du : Dust) (dt : Q) (Track : bool) (dM_dot dM_gas : list Q),
    wf_shape d -> wf_edges d -> dust d = Some du ->
    length (fst (Sigma_D du)) = length (R d) ->
    length (snd (Sigma_D du)) = length (R d) ->
    optically_thin_weighting self d Track = Ok (self1, (dM_dot, dM_gas)) ->
    weighted_removal self d dt Track = Ok (self', d') ->
    exists du' : Dust,
      dust d' = Some du' /\
      forall (i : nat) (s' : Q),
        nth_error (_Sigma d') i = Some s' ->
        (s' <= 0 ->
         nth_error (fst (_eps du')) i = nth_error (fst (_eps du)) i /\
         nth_error (snd (_eps du')) i = nth_error (snd (_eps du)) i) /\
        (0 < s' ->
         forall s r a D0 D1 : Q,
           nth_error (_Sigma d) i = Some s ->
           nth_error dM_dot i = Some r ->
           nth_error (annulus_areas d) i = Some a ->
           nth_error (fst (Sigma_D du)) i = Some D0 ->
           nth_error (snd (Sigma_D du)) i = Some D1 ->
           exists x0 x1 : Q,
             nth_error (fst (_eps du')) i = Some x0 /\
             nth_error (snd (_eps du')) i = Some x1 /\
             (x0 + x1) * s' == D0 + D1 - (s - r * dt / a - s')).
Proof.
  intros E L self self1 self' d d' du dt Track dM_dot dM_gas Hshape Hedges Hdu
         HD0 HD1 Ho Hw.
  pose proof (optically_thin_weighting_length _ _ _ _ _ _ Ho) as Hl.
  pose proof (optically_thin_weighting_gas _ _ _ _ _ _ Hshape Ho) as Hgas.
  unfold weighted_removal in Hw. rewrite Ho in Hw. simpl in Hw.
  rewrite Hdu in Hw.
  inv_bind Hw. destruct v as [self2 [[Sigma_D0 f_m] M_ent]]. rename E0 into Hpre.
  apply entrainment_setup_Sigma_D in Hpre; [|congruence]. subst Sigma_D0.
  rewrite (gas_loss_Ok d dM_dot dt Hshape Hedges Hl) in Hw. simpl in Hw.
  inv_bind Hw. rename v into d2, E0 into Hloss. injection Hw as _ <-.
  destruct Hshape as (He & HS & HG).
  assert (HA : length (annulus_areas d) = length (R d))
    by (rewrite annulus_areas_length, He; reflexivity).
  assert (Hlq : length (Np.map2 Qdiv (map (fun x => x * dt) dM_dot) (annulus_areas d))
                = length (R d))
    by (rewrite NpFacts.map2_length; rewrite length_map; congruence).
  apply dust_loss_fractions in Hloss.
  - destruct Hloss as (du' & Hdu' & _ & _ & _ & _ & Hfrac).
    exists du'. split; [exact Hdu'|].
    intros i s' Hs'. destruct (Hfrac i s' Hs') as [Hneg Hpos].
    split; [exact Hneg|].
    intros Hs0 s r a D0 D1 Hs Hr Ha H0 H1.
    apply (Hpos Hs0).
    + apply (NpFacts.map2_nth Qminus); [exact Hs|].
      apply (NpFacts.map2_nth Qdiv); [|exact Ha].
      rewrite nth_error_map, Hr. reflexivity.
    + now apply (NpFacts.map2_nth Qplus).
  - rewrite NpFacts.map2_length; congruence.
  - subst dM_gas. rewrite NpFacts.map2_length; congruence.
Qed.

(** A step of 1e5 time units takes the outermost annulus of [dusty_peak]
    below zero: its dust fractions are those of before the step. *)
Lemma weighted_removal_dust_fractions_witness :
  exists (self' : Evap) (d' : Disc) (du' : Dust) (s' : Q),
    weighted_removal (E := cgs) fried_S_amax4 dusty_peak 1e5 false = Ok (self', d') /\
    dust d' = Some du' /\
    nth_error (_Sigma d') 3 = Some s' /\ s' <= 0 /\
    nth_error (fst (_eps du')) 3 = Some 0.005 /\
    nth_error (snd (_eps du')) 3 = Some 0.01.
Proof.
  destruct (weighted_removal (E := cgs) fried_S_amax4 dusty_peak 1e5 false)
    as [[self' d']|e] eqn:Hw; [|vm_compute in Hw; discriminate Hw].
  destruct (optically_thin_weighting (E := cgs) fried_S_amax4 dusty_peak false)
    as [[self1 [dM_dot dM_gas]]|e] eqn:Ho; [|vm_compute in Ho; discriminate Ho].
  assert (Hshape : wf_shape dusty_peak) by (repeat split).
  assert (Hedges : wf_edges dusty_peak)
    by (split; repeat constructor; discriminate).
  destruct (weighted_removal_dust_fractions cgs cgs_laws fried_S_amax4 self1 self'
              dusty_peak d' dust_peak 1e5 false dM_dot dM_gas Hshape Hedges
              eq_refl eq_refl eq_refl Ho Hw) as (du' & Hdu' & Hfrac).
  assert (Hs : exists s', nth_error (_Sigma d') 3 = Some s' /\ s' <= 0).
  { vm_compute in Hw. injection Hw as _ <-.
    eexists. split; [reflexivity | discriminate]. }
  destruct Hs as (s' & Hs' & Hneg).
  destruct (Hfrac 3%nat s' Hs') as [Hstale _].
  destruct (Hstale Hneg) as [H0 H1].
  exists self', d', du', s'.
  repeat (split; [first [reflexivity | assumption]|]).
  assumption.
Defined.

(** ** The entrained size of a table provider *)

Section MaxSize.
Context {E : Env} {L : EnvLaws E}.

Lemma broadcast_mismatch {A B C : Type} (f : A -> B -> C) (a : list A)
  (b : list B) :
  length a <> 1%nat -> length b <> 1%nat -> length a <> length b ->
  Np.broadcast f a b = Raise ValueError.
Proof.
  intros Ha Hb Hab. unfold Np.broadcast.
  destruct a as [|x [|x' a]], b as [|y [|y' b]]; simpl in *;
    try congruence; try reflexivity.
  destruct (Nat.eqb_spec (length a) (length b)); [congruence | reflexivity].
Qed.

(** [Facchini_limit] multiplies the thermal speed of each annulus by the
    rate array it is given: an array that has neither one entry nor one
    per annulus cannot be broadcast against it. *)
Lemma Facchini_limit_mismatch (d : Disc) (du : Dust) (Mdot : list Q) :
  dust d = Some du ->
  length (H d) = length (R d) -> length (cs d) = length (R d) ->
  Forall (fun h => 0 < h) (H d) ->
  length (R d) <> 1%nat -> length Mdot <> 1%nat -> length Mdot <> length (R d) ->
  Facchini_limit d Mdot = Raise ValueError.
Proof.
  intros Hdu HlH Hlc HH HN H1 HM.
  unfold Facchini_limit.
  rewrite (SumFacts.broadcast_same_length _ _ _ HlH). simpl.
  set (h2r2 := Np.map2 (fun h r => h * h + r * r) (H d) (R d)).
  assert (Hl2 : length h2r2 = length (H d))
    by (apply NpFacts.map2_length; exact HlH).
  assert (Hsq : Forall (fun x => 0 < x) (map np_sqrt h2r2)).
  { rewrite Forall_map.
    apply (ListFacts.Forall_map2 (fun h => 0 < h) (fun _ => True));
      [|exact HH | apply ListFacts.Forall_True].
    intros h r Hh _. apply sqrt_pos.
    assert (0 < h * h) by (apply Qmult_lt_0_compat; lra).
    assert (0 <= r * r) by nra. lra. }
  rewrite SumFacts.divide_same_length;
    [|rewrite length_map; congruence | now apply ListFacts.pos_nonzero].
  simpl. unfold the_dust. rewrite Hdu. simpl.
  rewrite broadcast_mismatch; [reflexivity | | exact H1 |];
    rewrite length_map; congruence.
Qed.

End MaxSize.

(** X10. [max_size_entrained] of a table provider hands the whole history
    [_Mdot] to [Facchini_limit] as if it were one rate per annulus.  On a
    dusty disc with more than one annulus it therefore raises
    [ValueError] unless the history holds exactly one entry or exactly as
    many entries as the disc has annuli; in particular it raises on a
    provider that has just been constructed, whose history is empty. *)
Theorem max_size_entrained_needs_matching_history :
  forall (E : Env) (L : EnvLaws E) (self : Evap) (d : Disc) (du : Dust)
         (h : list Q) (t : Q -> Q -> fval),
    table (cls self) = Some t -> _Mdot self = Array h ->
    dust d = Some du ->
    length (H d) = length (R d) -> length (cs d) = length (R d) ->
    Forall (fun x => 0 < x) (H d) ->
    length (R d) <> 1%nat -> length h <> 1%nat -> length h <> length (R d) ->
    max_size_entrained self d = Raise ValueError.
Proof.
  intros E L self d du h t Ht Hm Hdu HlH Hlc HH HN H1 Hh.
  assert (HF : Facchini_limit d (as_array (_Mdot self)) = Raise ValueError).
  { rewrite Hm. simpl. now apply (Facchini_limit_mismatch d du). }
  unfold max_size_entrained.
  destruct (cls self); simpl in Ht; [discriminate| | |]; rewrite HF; reflexivity.
Qed.

Lemma max_size_entrained_needs_matching_history_witness :
  max_size_entrained (E := cgs)
    (FRIED_init FRIEDExternalEvaporationS table_linear dusty_peak 0) dusty_peak
  = Raise ValueError.
Proof.
  apply (max_size_entrained_needs_matching_history cgs cgs_laws
           (FRIED_init FRIEDExternalEvaporationS table_linear dusty_peak 0)
           dusty_peak dust_peak [] table_linear
           eq_refl eq_refl eq_refl eq_refl eq_refl).
  - repeat constructor.
  - discriminate.
  - discriminate.
  - discriminate.
Defined.

(** ** The entrained size that [weighted_removal] sets *)

Section EntrainedSize.
Context {E : Env} {L : EnvLaws E}.

Lemma entrainment_setup_amax (self self2 : Evap) (d : Disc) (du : Dust)
  (dM_dot : list Q) (pre : list Q * list Q * list Q) :
  entrainment_setup self d du dM_dot = Ok (self2, pre) ->
  Facchini_limit d
    (map (fun x => Np.sum dM_dot * bool_to_Q (Np.Qltb 0 x) * (yr / Msun)) dM_dot)
  = Ok (_amax self2).
Proof.
  unfold entrainment_setup. intros Hs.
  inv_bind Hs. inv_bind Hs. inv_bind Hs. inv_bind Hs. inv_bind Hs.
  inv_bind Hs. rename v4 into amax, E5 into HF.
  inv_bind Hs. injection Hs as <- _. exact HF.
Qed.

Lemma weighted_removal_amax (self self1 self' : Evap) (d d' : Disc) (du : Dust)
  (dt : Q) (Track : bool) (dM_dot dM_gas : list Q) :
  dust d = Some du ->
  optically_thin_weighting self d Track = Ok (self1, (dM_dot, dM_gas)) ->
  weighted_removal self d dt Track = Ok (self', d') ->
  Facchini_limit d
    (map (fun x => Np.sum dM_dot * bool_to_Q (Np.Qltb 0 x) * (yr / Msun)) dM_dot)
  = Ok (_amax self').
Proof.
  intros Hdu Ho. unfold weighted_removal. rewrite Ho. simpl. rewrite Hdu.
  intros Hw.
  inv_bind Hw. destruct v as [self2 pre]. rename E0 into Hpre.
  inv_bind Hw. destruct v as [dM_evap Sigma1].
  inv_bind Hw. injection Hw as <- _.
  exact (entrainment_setup_amax _ _ _ _ _ _ Hpre).
Qed.

Lemma Facchini_cell_zero (h r c Mstar rho m : Q) :
  m == 0 -> Facchini_cell h r c Mstar rho m == 0.
Proof. intros Hm. unfold Facchini_cell, Qdiv. rewrite Hm. ring. Qed.

End EntrainedSize.

(** X11. The entrained size that [weighted_removal] leaves in [_amax] on a
    dusty disc.  Every annulus whose effective rate is positive gets the
    Facchini limit at the total rate of the wind, the sum of the
    effective rates of all annuli (in Msun / yr), not at its own rate;
    every annulus whose effective rate is not positive, in particular
    every annulus inside the transition, gets an entrained size of 0. *)
Theorem weighted_removal_entrained_size :
  forall (E : Env) (L : EnvLaws E) (self self1 self' : Evap) (d d' : Disc)
         (du : Dust) (dt : Q) (Track : bool) (dM_dot dM_gas : list Q),
    dust d = Some du ->
    length (H d) = length (R d) -> length (cs d) = length (R d) ->
    Forall (fun h => 0 < h) (H d) -> 0 < star_M d -> 0 < _rho_s du ->
    optically_thin_weighting self d Track = Ok (self1, (dM_dot, dM_gas)) ->
    weighted_removal self d dt Track = Ok (self', d') ->
    forall (i : nat) (h r c m : Q),
      nth_error (H d) i = Some h -> nth_error (R d) i = Some r ->
      nth_error (cs d) i = Some c -> nth_error dM_dot i = Some m ->
      exists a : Q,
        nth_error (_amax self') i = Some a /\
        (0 < m ->
         a = Facchini_cell h r c (star_M d) (_rho_s du)
               (Np.sum dM_dot * 1 * (yr / Msun))) /\
        (m <= 0 -> a == 0).
Proof.
  intros E L self self1 self' d d' du dt Track dM_dot dM_gas Hdu HlH Hlc HH HM Hrho
         Ho Hw i h r c m Hh Hr Hc Hm.
  pose proof (optically_thin_weighting_length _ _ _ _ _ _ Ho) as Hl.
  pose proof (weighted_removal_amax _ _ _ _ _ _ _ _ _ _ Hdu Ho Hw) as HF.
  set (rates := map (fun x => Np.sum dM_dot * bool_to_Q (Np.Qltb 0 x) * (yr / Msun))
                    dM_dot) in *.
  destruct (Facchini_limit_Ok d du rates Hdu HlH Hlc) as (a & Ha & Hn);
    auto.
  { unfold rates. rewrite length_map. exact Hl. }
  rewrite Ha in HF. injection HF as <-.
  assert (Hrate : nth_error rates i
                  = Some (Np.sum dM_dot * bool_to_Q (Np.Qltb 0 m) * (yr / Msun))).
  { unfold rates. rewrite nth_error_map, Hm. reflexivity. }
  eexists. split; [exact (Hn i h r c _ Hh Hr Hc Hrate)|]. split.
  - intros Hpos. apply NpFacts.Qltb_lt in Hpos. rewrite Hpos. reflexivity.
  - intros Hneg. apply NpFacts.Qltb_ge in Hneg. rewrite Hneg.
    apply Facchini_cell_zero. simpl. ring.
Qed.

Lemma weighted_removal_entrained_size_witness :
  exists (self' : Evap) (d' : Disc) (a : Q),
    weighted_removal (E := cgs) fried_S_amax4 dusty_peak 1 false = Ok (self', d') /\
    nth_error (_amax self') 0 = Some a /\ a == 0.
Proof.
  destruct (weighted_removal (E := cgs) fried_S_amax4 dusty_peak 1 false)
    as [[self' d']|e] eqn:Hw; [|vm_compute in Hw; discriminate Hw].
  destruct (optically_thin_weighting (E := cgs) fried_S_amax4 dusty_peak false)
    as [[self1 [dM_dot dM_gas]]|e] eqn:Ho; [|vm_compute in Ho; discriminate Ho].
  assert (HH : Forall (fun h => 0 < h) (H dusty_peak))
    by (repeat constructor).
  assert (Hm : exists m, nth_error dM_dot 0 = Some m /\ m <= 0).
  { vm_compute in Ho. injection Ho as _ <- _.
    eexists. split; [reflexivity | discriminate]. }
  destruct Hm as (m & Hm & Hneg).
  destruct (weighted_removal_entrained_size cgs cgs_laws fried_S_amax4 self1 self'
              dusty_peak d' dust_peak 1 false dM_dot dM_gas eq_refl eq_refl eq_refl
              HH eq_refl eq_refl Ho Hw 0%nat 3 1 1 m eq_refl eq_refl eq_refl Hm)
    as (a & Ha & _ & Hzero).
  exists self', d', a. split; [reflexivity|]. split; [exact Ha | exact (Hzero Hneg)].
Defined.

(** ** The fixed provider on a disc with gas everywhere *)

Module Total.
Import Np.

Lemma gt0_all (a : list Q) :
  Forall (fun s => 0 < s) a -> Forall (fun b => b = true) (gt0 a).
Proof.
  intros Ha. unfold gt0. rewrite Forall_map.
  eapply Forall_impl; [|exact Ha]. intros s Hs. simpl in *.
  now apply NpFacts.Qltb_lt.
Qed.

Lemma compress_all {A : Type} (m : list bool) (a : list A) :
  Forall (fun b => b = true) m -> length a = length m -> compress m a = a.
Proof.
  intros Hm. revert a. induction Hm as [|b m Hb Hm IH]; intros [|x a] Hl;
    simpl in *; try discriminate; try reflexivity.
  subst b. f_equal. apply IH. now injection Hl.
Qed.

Lemma getitem_from_end_Ok {A : Type} (a : list A) (j : nat) :
  (0 < j <= length a)%nat ->
  exists x, getitem a (- Z.of_nat j) = Ok x /\
            nth_error a (length a - j) = Some x.
Proof.
  intros Hj. unfold getitem, py_index.
  destruct (0 <=? - Z.of_nat j)%Z eqn:H0; [apply Z.leb_le in H0; lia|].
  simpl.
  destruct (- Z.of_nat j <? 0)%Z eqn:H1; [|apply Z.ltb_ge in H1; lia].
  simpl.
  destruct (- Z.of_nat (length a) <=? - Z.of_nat j)%Z eqn:H2;
    [|apply Z.leb_gt in H2; lia].
  replace (Z.to_nat (Z.of_nat (length a) + - Z.of_nat j))
    with (length a - j)%nat by lia.
  destruct (ListFacts.nth_error_ex a (length a - j)) as [x Hx]; [lia|].
  exists x. rewrite Hx. auto.
Qed.

Lemma getitem_first_Ok {A : Type} (a : list A) :
  (0 < length a)%nat ->
  exists x, getitem a 0 = Ok x /\ nth_error a 0 = Some x.
Proof.
  destruct a as [|x a]; simpl; [lia|]. intros _. exists x.
  split; reflexivity.
Qed.

Lemma setitem_from_end_Ok {A : Type} (a : list A) (j : nat) (v : A) :
  (0 < j <= length a)%nat -> exists r, setitem a (- Z.of_nat j) v = Ok r.
Proof.
  intros Hj. unfold setitem, py_index.
  destruct (0 <=? - Z.of_nat j)%Z eqn:H0; [apply Z.leb_le in H0; lia|].
  simpl.
  destruct (- Z.of_nat j <? 0)%Z eqn:H1; [|apply Z.ltb_ge in H1; lia].
  simpl.
  destruct (- Z.of_nat (length a) <=? - Z.of_nat j)%Z eqn:H2;
    [|apply Z.leb_gt in H2; lia].
  eauto.
Qed.

Lemma sum_pos (l : list Q) :
  Forall (fun x => 0 < x) l -> l <> [] -> 0 < sum l.
Proof.
  intros Hl Hne. destruct Hl as [|x l Hx Hl]; [congruence|].
  simpl. assert (0 <= sum l); [|lra].
  apply Cumulative.sum_nonneg. eapply Forall_impl; [|exact Hl].
  intros y Hy. simpl in *. lra.
Qed.

(** Suffix sums of positive entries decrease strictly. *)
Lemma suffix_sum_decreasing (l : list Q) (i j : nat) (x y : Q) :
  Forall (fun x => 0 < x) l -> (i < j)%nat ->
  nth_error (rev (cumsum (rev l))) i = Some x ->
  nth_error (rev (cumsum (rev l))) j = Some y ->
  y < x.
Proof.
  intros Hl Hij Hx Hy.
  assert (Hj : (j < length l)%nat).
  { assert (Hlt : (j < length (rev (cumsum (rev l))))%nat)
      by (apply nth_error_Some; congruence).
    now rewrite length_rev, Cumulative.cumsum_length, length_rev in Hlt. }
  apply Cumulative.suffix_sum_nth in Hx, Hy. rewrite Hx, Hy.
  replace j with ((j - i) + i)%nat by lia.
  rewrite <- skipn_skipn.
  rewrite <- (firstn_skipn (j - i) (skipn i l)) at 2.
  rewrite SumFacts.sum_app.
  assert (0 < sum (firstn (j - i) (skipn i l))); [|lra].
  apply sum_pos; [now apply Cumulative.Forall_firstn, Cumulative.Forall_skipn|].
  intros Hnil. apply (f_equal (@length Q)) in Hnil.
  rewrite length_firstn, length_skipn in Hnil. simpl in Hnil. lia.
Qed.

(** With strictly decreasing depletion times on at least two annuli, the
    marginal annulus never divides by zero: [deplete] returns for every
    step. *)
Lemma deplete_total (Sigma0 Dt : list Q) (n : nat) (dt : Q) :
  (forall i j x y, (i < j)%nat -> nth_error Dt i = Some x ->
                   nth_error Dt j = Some y -> y < x) ->
  length Dt = n -> length Sigma0 = n -> (2 <= n)%nat ->
  exists Sigma', deplete Sigma0 Dt n dt = Ok Sigma'.
Proof.
  intros Hdec HlD HlS Hn. unfold deplete.
  set (excess := map (fun t => dt - t) Dt).
  set (empty := gt0 excess).
  set (k := count empty).
  assert (HlE : length empty = n)
    by (unfold empty, gt0, excess; now rewrite !length_map).
  unfold mask_set. rewrite HlS, HlE, Nat.eqb_refl. simpl.
  set (Sigma1 := map2 _ empty Sigma0).
  assert (Hl1 : length Sigma1 = n)
    by (unfold Sigma1; rewrite NpFacts.map2_length; congruence).
  destruct (Nat.ltb_spec k n) as [Hkn|Hkn]; [|eauto].
  replace (- (Z.of_nat k + 1))%Z with (- Z.of_nat (S k))%Z by lia.
  replace (- Z.of_nat (S k) + 1)%Z with (- Z.of_nat k)%Z by lia.
  destruct (getitem_from_end_Ok Sigma1 (S k)) as (s & -> & _); [lia|].
  destruct (getitem_from_end_Ok excess (S k)) as (x & -> & _);
    [unfold excess; rewrite length_map; lia|].
  destruct (getitem_from_end_Ok Dt (S k)) as (a & -> & Ha); [lia|].
  cbn [bind].
  assert (Hb : exists b j, getitem Dt (- Z.of_nat k) = Ok b /\
                           nth_error Dt j = Some b /\ j <> (length Dt - S k)%nat).
  { destruct k as [|k'].
    - destruct (getitem_first_Ok Dt) as (b & Hb & Hb0); [lia|].
      exists b, 0%nat. simpl. split; [exact Hb|]. split; [exact Hb0 | lia].
    - destruct (getitem_from_end_Ok Dt (S k')) as (b & Hb & Hbn); [lia|].
      exists b, (length Dt - S k')%nat. split; [exact Hb|].
      split; [exact Hbn | lia]. }
  destruct Hb as (b & j & -> & Hbj & Hne). cbn [bind].
  assert (Hab : ~ a - b == 0).
  { destruct (Nat.lt_ge_cases j (length Dt - S k)) as [Hlt|Hge].
    - pose proof (Hdec _ _ _ _ Hlt Hbj Ha). lra.
    - assert (Hgt : (length Dt - S k < j)%nat) by lia.
      pose proof (Hdec _ _ _ _ Hgt Ha Hbj). lra. }
  unfold qdiv. destruct (Qeq_bool (a - b) 0) eqn:Hq;
    [apply Qeq_bool_iff in Hq; contradiction|].
  cbn [bind]. apply setitem_from_end_Ok. lia.
Qed.

End Total.

Section FixedTotal.
Context {E : Env} {L : EnvLaws E}.

(** On a disc with gas in every annulus the rates of the fixed provider
    have one entry per annulus, each the rate in code units. *)
Lemma Fixed_rates_full (d : Disc) (q : Q) :
  wf_shape d -> Forall (fun s => 0 < s) (Sigma_G d) ->
  Fixed_rates d q
  = repeat (q * 1 * Msun / (2 * np_pi)) (length (R d)).
Proof.
  intros (He & HS & HG) Hgas. unfold Fixed_rates.
  rewrite Total.compress_all;
    [|now apply Total.gt0_all
     |unfold Sigma; rewrite Fractions.gt0_length; congruence].
  unfold Np.ones_like, Sigma. rewrite HS.
  generalize (length (R d)). clear.
  induction n as [|n IH]; simpl; [reflexivity|].
  f_equal. exact IH.
Qed.

Lemma Fixed_get_timescale (self : Evap) (d : Disc) (q : Q) (Track : bool) :
  cls self = FixedExternalEvaporation -> _Mdot self = Scalar q -> 0 < q ->
  wf_shape d -> wf_edges d -> Forall (fun s => 0 < s) (Sigma_G d) ->
  (0 < length (R d))%nat ->
  exists (ev g M Dt_R : list Q),
    get_timescale self d Track
    = Ok (if Track
          then set_Mdot self (Array [q; q * 1 * Msun / (2 * np_pi) * (yr / Msun)])
          else self,
          (ev, g, M, rev (Np.cumsum (rev Dt_R)))) /\
    length Dt_R = length (R d) /\
    Forall (fun t => 0 < t) Dt_R.
Proof.
  intros Hc Hq Hpos Hshape Hedges Hgas HN.
  pose proof pi_pos as Hpi. pose proof Msun_pos as HMs.
  unfold get_timescale.
  rewrite (Fixed_unweighted_rates self d q Track Hc Hq Hshape).
  rewrite (Fixed_rates_full d q Hshape Hgas).
  destruct Hshape as (He & HS & HG).
  set (c := q * 1 * Msun / (2 * np_pi)).
  set (rates := repeat c (length (R d))).
  set (mask := Np.gt0 (Sigma_G d)).
  set (dM_gas := Np.map2 Qmult (Sigma_G d) (annulus_areas d)).
  assert (Hmask : Forall (fun b => b = true) mask) by now apply Total.gt0_all.
  assert (Hlm : length mask = length (R d))
    by (unfold mask; rewrite Fractions.gt0_length; exact HG).
  assert (Hlr : length rates = length (R d))
    by (unfold rates; apply repeat_length).
  assert (HA : length (annulus_areas d) = length (R d))
    by (rewrite annulus_areas_length, He; reflexivity).
  assert (Hlg : length dM_gas = length (R d))
    by (unfold dM_gas; rewrite NpFacts.map2_length; congruence).
  assert (Hcpos : 0 < c).
  { unfold c. apply Qlt_shift_div_l; [lra|].
    setoid_replace (0 * (2 * np_pi)) with 0 by ring.
    repeat apply Qmult_lt_0_compat; lra. }
  assert (Hrpos : Forall (fun x => 0 < x) rates).
  { apply Forall_forall. intros x Hx. apply repeat_spec in Hx. now subst x. }
  assert (Hgpos : Forall (fun x => 0 < x) dM_gas).
  { apply (ListFacts.Forall_map2 (fun s => 0 < s) (fun a => 0 < a));
      [|exact Hgas | now apply annulus_areas_positive].
    intros s a Hs Ha. simpl in *. now apply Qmult_lt_0_compat. }
  assert (Hsel : Np.bool_index rates mask = Ok rates).
  { rewrite bool_index_same_length by congruence.
    rewrite Total.compress_all; auto; congruence. }
  assert (Hselg : Np.bool_index dM_gas mask = Ok dM_gas).
  { rewrite bool_index_same_length by congruence.
    rewrite Total.compress_all; auto; congruence. }
  assert (Hlast : Np.getitem rates (-1) = Ok c).
  { destruct (Total.getitem_from_end_Ok rates 1) as (x & Hx & Hn); [lia|].
    change (- Z.of_nat 1)%Z with (-1)%Z in Hx. rewrite Hx. f_equal.
    apply nth_error_In in Hn. now apply repeat_spec in Hn. }
  assert (Hself : (if Track
                   then sel <- Np.bool_index rates mask ;;
                        last <- Np.getitem sel (-1) ;;
                        Ok (set_Mdot self (np_append (_Mdot self) (last * (yr / Msun))))
                   else Ok self)
                  = Ok (if Track
                        then set_Mdot self (Array [q; c * (yr / Msun)])
                        else self)).
  { destruct Track; [|reflexivity].
    rewrite Hsel. cbn [bind]. rewrite Hlast. cbn [bind]. rewrite Hq.
    reflexivity. }
  rewrite Hself. cbn [bind]. rewrite Hselg, Hsel. cbn [bind].
  rewrite SumFacts.divide_same_length;
    [|congruence | now apply ListFacts.pos_nonzero].
  cbn [bind].
  set (Dt_R := Np.map2 Qdiv dM_gas rates).
  assert (HlD : length Dt_R = length (R d))
    by (unfold Dt_R; rewrite NpFacts.map2_length; congruence).
  unfold Np.pad_zeros. rewrite HlD, Hlr, HG, Nat.leb_refl, Nat.sub_diag.
  cbn [bind]. do 4 eexists. split; [reflexivity|].
  unfold Np.zeros. simpl repeat. rewrite app_nil_r.
  split; [exact HlD|].
  apply (ListFacts.Forall_map2 (fun x => 0 < x) (fun y => 0 < y));
    [|exact Hgpos | exact Hrpos].
  intros x y Hx Hy. simpl in *. apply Qlt_shift_div_l; lra.
Qed.

End FixedTotal.

(** X12. The fixed provider always completes its first step on a disc that
    holds gas everywhere.  With a positive rate [q], on a disc of the
    data contract with at least two annuli and positive gas surface
    density in each, [__call__] returns for every [dt]: no index is out
    of range and the marginal annulus never divides by zero.  What it
    records in [_Mdot] beside [q] is [q * yr / (2 pi)]. *)
Theorem fixed_provider_first_step_returns :
  forall (E : Env) (L : EnvLaws E) (self : Evap) (d : Disc) (dt age q : Q),
    cls self = FixedExternalEvaporation -> _Mdot self = Scalar q -> 0 < q ->
    wf_shape d -> wf_edges d ->
    Forall (fun s => 0 < s) (Sigma_G d) ->
    (2 <= length (R d))%nat ->
    exists (self' : Evap) (d' : Disc) (v : Q),
      call self d dt age = Ok (self', d') /\
      _Mdot self' = Array [q; v] /\ v == q * yr / (2 * np_pi).
Proof.
  intros E L self d dt age q Hc Hq Hpos Hshape Hedges Hgas HN.
  pose proof pi_pos as Hpi. pose proof Msun_pos as HMs.
  destruct (Fixed_get_timescale self d q true Hc Hq Hpos Hshape Hedges Hgas)
    as (ev & g & M & Dt_R & Hg & HlD & HD); [lia|].
  destruct (Total.deplete_total (_Sigma d) (rev (Np.cumsum (rev Dt_R)))
              (length (Sigma_G d)) dt) as [Sigma' HS'].
  - intros i j x y. now apply Total.suffix_sum_decreasing.
  - rewrite length_rev, Cumulative.cumsum_length, length_rev.
    destruct Hshape as (_ & _ & HG). congruence.
  - destruct Hshape as (_ & HS & HG). congruence.
  - destruct Hshape as (_ & _ & HG). lia.
  - exists (set_Mdot self (Array [q; q * 1 * Msun / (2 * np_pi) * (yr / Msun)])),
           (set_Sigma d Sigma'), (q * 1 * Msun / (2 * np_pi) * (yr / Msun)).
    split; [|split; [reflexivity | field; split; lra]].
    unfold call. rewrite Hc, Hq. simpl.
    apply NpFacts.Qltb_lt in Hpos. rewrite Hpos.
    unfold timescale_remove. rewrite Hg. cbn [bind]. rewrite HS'. reflexivity.
Qed.

Lemma fixed_provider_first_step_returns_witness :
  exists (self' : Evap) (d' : Disc),
    call (E := cgs) (Fixed_init disc_uniform 1e-8 10) disc_uniform 30000 0
    = Ok (self', d').
Proof.
  destruct (fixed_provider_first_step_returns cgs cgs_laws
              (Fixed_init disc_uniform 1e-8 10) disc_uniform 30000 0 1e-8
              eq_refl eq_refl eq_refl) as (self' & d' & v & Hc & _).
  - repeat split.
  - split; repeat constructor; discriminate.
  - repeat constructor.
  - simpl. lia.
  - exists self', d'. exact Hc.
Defined.

(** ** What the history records *)

Module History.
Import Np.

Lemma compress_nil_no_true {A : Type} (m : list bool) (a : list A) (j : nat) :
  length a = length m -> compress m a = [] -> nth_error m j <> Some true.
Proof.
  intros Hl Hc Hj. apply count_pos in Hj.
  rewrite <- (CompressFacts.compress_length m a Hl), Hc in Hj.
  simpl in Hj. lia.
Qed.

(** The last selected entry is the entry at the last [True] of the mask. *)
Lemma compress_last {A : Type} (m : list bool) (a : list A) (x : A) :
  length a = length m ->
  nth_error (compress m a) (length (compress m a) - 1) = Some x ->
  exists i : nat,
    nth_error m i = Some true /\ nth_error a i = Some x /\
    forall j, (i < j)%nat -> nth_error m j <> Some true.
Proof.
  revert a. induction m as [|b m IH]; intros [|y a] Hl Hx; simpl in *;
    try discriminate.
  injection Hl as Hl.
  assert (Hrest : nth_error (compress m a) (length (compress m a) - 1) = Some x ->
                  exists i : nat,
                    nth_error (b :: m) i = Some true /\
                    nth_error (y :: a) i = Some x /\
                    forall j, (i < j)%nat -> nth_error (b :: m) j <> Some true).
  { intros Hx'. destruct (IH a Hl Hx') as (i & Hm & Ha & Hlast).
    exists (S i). split; [exact Hm|]. split; [exact Ha|].
    intros [|j] Hj; [lia|]. simpl. apply Hlast. lia. }
  destruct b; [|now apply Hrest].
  destruct (compress m a) as [|z c] eqn:Hc.
  - simpl in Hx. injection Hx as <-. exists 0%nat.
    split; [reflexivity|]. split; [reflexivity|].
    intros [|j] Hj; [lia|]. simpl.
    now apply (compress_nil_no_true m a).
  - apply Hrest. simpl in Hx. simpl. rewrite Nat.sub_0_r in *. exact Hx.
Qed.

End History.

(** X13. What a tracked step appends to [_Mdot].  Where
    [unweighted_rates] returns with tracking, as [__call__] runs it for
    the fixed provider and for the provider keyed by integrated mass, the
    new entry is the raw rate of the outermost annulus that holds gas:
    at that annulus the provider's rate is [m] (Msun / yr), the entry is
    [m * yr / (2 pi)], and every annulus further out has no gas. *)
Theorem tracked_rates_record_the_outer_edge :
  forall (E : Env) (L : EnvLaws E) (self self1 : Evap) (d : Disc)
         (dM_dot dM_gas : list Q),
    unweighted_rates self d true = Ok (self1, (dM_dot, dM_gas)) ->
    exists (rates : list fval) (Mdot : list Q) (i : nat) (s m v : Q),
      mass_loss_rate self d (Np.gt0 (Sigma_G d)) = Ok rates /\
      finite rates = Ok Mdot /\
      nth_error (Sigma_G d) i = Some s /\ 0 < s /\
      (forall j s', (i < j)%nat -> nth_error (Sigma_G d) j = Some s' -> s' <= 0) /\
      nth_error Mdot i = Some m /\
      _Mdot self1 = np_append (_Mdot self) v /\
      v == m * yr / (2 * np_pi).
Proof.
  intros E L self self1 d dM_dot dM_gas Hu.
  pose proof pi_pos as Hpi. pose proof Msun_pos as HMs.
  unfold unweighted_rates in Hu.
  inv_bind Hu. rename v into gas, E0 into Hgas.
  inv_bind Hu. rename v into rates, E0 into Hrates.
  inv_bind Hu. rename v into Mdot, E0 into Hfin.
  inv_bind Hu. rename v into self2, E0 into Hrec.
  injection Hu as <- <- _.
  inv_bind Hrec. rename v into sel, E0 into Hsel.
  inv_bind Hrec. rename v into last, E0 into Hlast.
  injection Hrec as <-.
  apply NpFacts.bool_index_Ok in Hsel. destruct Hsel as [Hl ->].
  apply (Marginal.getitem_from_end _ 1%nat) in Hlast; [|lia].
  destruct Hlast as [_ Hlast].
  destruct (History.compress_last _ _ _ Hl Hlast) as (i & Hm & Hr & Hout).
  rewrite nth_error_map in Hr.
  destruct (nth_error Mdot i) as [m|] eqn:HMi; [|discriminate].
  injection Hr as <-.
  unfold Np.gt0 in Hm. rewrite nth_error_map in Hm.
  destruct (nth_error (Sigma_G d) i) as [s|] eqn:Hs; [|discriminate].
  injection Hm as Hm. apply NpFacts.Qltb_lt in Hm.
  exists rates, Mdot, i, s, m, (m * Msun / (2 * np_pi) * (yr / Msun)).
  repeat (split; [first [assumption | reflexivity]|]).
  split.
  - intros j s' Hj Hs'. apply NpFacts.Qltb_ge.
    destruct (Np.Qltb 0 s') eqn:Hb; [|reflexivity].
    exfalso. apply (Hout j Hj). rewrite (GasFree.gt0_nth _ _ _ Hs'), Hb.
    reflexivity.
  - split; [exact HMi|]. split; [reflexivity|]. field. split; lra.
Qed.

(** In [disc_gap] the outermost annulus that holds gas is the fourth; the
    table knows no rate there, and the entry comes from the floor. *)
Lemma tracked_rates_record_the_outer_edge_witness :
  exists (self1 : Evap) (x : list Q * list Q) (v : Q),
    unweighted_rates (E := cgs) fried_M_to_10AU disc_gap true = Ok (self1, x) /\
    _Mdot self1 = Array [v] /\ v == 1e-10 * @yr cgs / (2 * @np_pi cgs).
Proof.
  destruct (unweighted_rates (E := cgs) fried_M_to_10AU disc_gap true)
    as [[self1 [dM_dot dM_gas]]|e] eqn:Hu; [|vm_compute in Hu; discriminate Hu].
  destruct (tracked_rates_record_the_outer_edge cgs cgs_laws _ _ _ _ _ Hu)
    as (rates & Mdot & i & s & m & v & Hr & Hf & Hs & Hpos & Hout & Hm & Hv & Hv').
  assert (Hi : i = 3%nat).
  { destruct i as [|[|[|[|i]]]]; simpl in Hs; try discriminate Hs.
    - exfalso. apply (Qlt_not_le 0 2); [reflexivity|].
      apply (Hout 3%nat 2); [lia | reflexivity].
    - exfalso. apply (Qlt_not_le 0 2); [reflexivity|].
      apply (Hout 3%nat 2); [lia | reflexivity].
    - injection Hs as <-. discriminate Hpos.
    - reflexivity.
    - destruct i; discriminate Hs. }
  subst i.
  assert (Hm3 : m = 1e-10).
  { vm_compute in Hr. injection Hr as <-. simpl in Hf. injection Hf as <-.
    simpl in Hm. now injection Hm. }
  subst m.
  exists self1, (dM_dot, dM_gas), v.
  split; [reflexivity|]. split; [exact Hv | exact Hv'].
Defined.

(** ** A bound on the weighted rate *)

Module Bound.
Import Np.

Lemma finite_length (a : list fval) (r : list Q) :
  finite a = Ok r -> length r = length a.
Proof.
  revert r. induction a as [|v a IH]; intros r; simpl.
  - now intros [= <-].
  - destruct v; [|discriminate]. intros Hr. inv_bind Hr.
    injection Hr as <-. simpl. f_equal. now apply IH.
Qed.

Lemma weighted_sum_le (Mdot w : list Q) (mx : Q) :
  length Mdot = length w ->
  Forall (fun x => 0 <= x) w -> Forall (fun y => y <= mx) Mdot ->
  sum (map2 Qmult Mdot w) <= mx * sum w.
Proof.
  intros Hl Hw. revert Mdot Hl.
  induction Hw as [|x w Hx Hw IH]; intros [|y Mdot] Hl HM;
    simpl in *; try discriminate.
  - lra.
  - inversion HM as [|? ? Hy HM']; subst.
    injection Hl as Hl. specialize (IH Mdot Hl HM'). nra.
Qed.

Lemma compress_nonneg_sum (m : list bool) (s : list Q) :
  Forall (fun x => 0 <= x) s -> 0 <= sum (compress m s).
Proof.
  intros Hs. apply Cumulative.sum_nonneg.
  now apply CompressFacts.compress_Forall.
Qed.

Lemma masked_weights_nonneg (s : list Q) (ot : list bool) (t : Q) :
  Forall (fun x => 0 <= x) s -> 0 < t ->
  Forall (fun x => 0 <= x)
         (map2 (fun x (b : bool) => x * bool_to_Q b) (map (fun x => x / t) s) ot).
Proof.
  intros Hs Ht.
  apply (ListFacts.Forall_map2 (fun x => 0 <= x) (fun _ => True));
    [| |apply ListFacts.Forall_True].
  - intros x b Hx _. destruct b; simpl; lra.
  - rewrite Forall_map. eapply Forall_impl; [|exact Hs].
    intros x Hx. simpl in *. apply Qle_shift_div_l; lra.
Qed.

End Bound.

Section WeightedBound.
Context {E : Env}.

Lemma table_raw_rates_length (self self1 : Evap) (d : Disc) (Track : bool)
  (t : Q -> Q -> fval) (Mdot g : list Q) :
  table (cls self) = Some t ->
  unweighted_rates self d Track = Ok (self1, (Mdot, g)) ->
  length Mdot = length (R d).
Proof.
  intros Ht. unfold unweighted_rates. intros Hu.
  inv_bind Hu. rename v into gas, E0 into Hgas.
  inv_bind Hu. rename v into rates, E0 into Hrates.
  inv_bind Hu. rename v into raw, E0 into Hfin.
  inv_bind Hu. injection Hu as _ <- _.
  rewrite (mass_loss_rate_table _ _ _ _ Ht) in Hrates.
  inv_bind Hrates. rename v0 into key.
  apply FRIED_mass_loss_rate_Ok in Hrates. destruct Hrates as (_ & _ & ->).
  apply Bound.finite_length in Hfin.
  rewrite length_map, Hfin, length_map, scatter_length, length_map.
  apply Fractions.zeros_like_length.
Qed.

End WeightedBound.

(** X14. The optically thin weighting never removes gas faster than the
    peak raw rate.  For a table provider on a disc of the data contract
    with non-negative gas surface density (and radii at which
    [R ** (3/2)] is non-negative), the effective rates add up to a
    weighted mean of the raw rates over the annuli at or beyond the
    transition, so their sum is at most the raw rate at the transition,
    which is the largest raw rate of the disc. *)
Theorem weighted_rate_bounded_by_peak :
  forall (E : Env) (self self0 self1 : Evap) (d : Disc) (Track : bool)
         (t : Q -> Q -> fval) (Mdot g M_dot_eff dM_gas : list Q),
    table (cls self) = Some t ->
    wf_shape d ->
    Forall (fun s => 0 <= s) (Sigma_G d) ->
    Forall (fun r => 0 <= np_power r (3 # 2)) (R d) ->
    unweighted_rates self d false = Ok (self0, (Mdot, g)) ->
    optically_thin_weighting self d Track = Ok (self1, (M_dot_eff, dM_gas)) ->
    exists (i : Z) (peak : Q),
      transition_index Mdot = Ok i /\
      nth_error Mdot (Z.to_nat i) = Some peak /\
      (forall j y, nth_error Mdot j = Some y -> y <= peak) /\
      Np.sum M_dot_eff <= peak.
Proof.
  intros E self self0 self1 d Track t Mdot g eff dM_gas Ht Hshape Hgas Hpow Hu Ho.
  pose proof (table_raw_rates_length _ _ _ _ _ _ _ Ht Hu) as HlM.
  unfold optically_thin_weighting in Ho. rewrite Hu in Ho. cbn [bind] in Ho.
  inv_bind Ho. rename v into i, E0 into Hi.
  inv_bind Ho. rename v into w, E0 into Hw.
  inv_bind Ho. rename v into contrib, E0 into Hc.
  injection Ho as _ <- _.
  destruct (transition_index_spec _ _ Hi) as [_ (peak & Hpeak & Hall & _)].
  exists i, peak. split; [exact Hi|]. split; [exact Hpeak|].
  split; [exact Hall|].
  destruct Hshape as (He & HS & HG).
  unfold ot_weights in Hw.
  inv_bind Hw. rename v into ot, E0 into Hot.
  inv_bind Hw. rename v into s, E0 into Hs.
  inv_bind Hw. rename v into sel, E0 into Hsel.
  inv_bind Hw. rename v into sw, E0 into Hsw.
  apply Fractions.broadcast_Ok_same_length in Hs;
    [|rewrite length_map; congruence].
  assert (Hspos : Forall (fun x => 0 <= x) s).
  { subst s.
    apply (ListFacts.Forall_map2 (fun x => 0 <= x) (fun y => 0 <= y));
      [|now rewrite Forall_map | exact Hgas].
    intros x y Hx Hy. simpl in *. now apply Qmult_le_0_compat. }
  assert (Hls : length s = length (R d)).
  { subst s. rewrite NpFacts.map2_length; rewrite length_map; congruence. }
  apply NpFacts.bool_index_Ok in Hsel. destruct Hsel as [Hlot ->].
  apply SumFacts.divide_scalar in Hsw. destruct Hsw as [Hnz ->].
  rewrite SumFacts.inplace_same_length in Hw by now rewrite length_map.
  injection Hw as <-.
  set (tt := Np.sum (Np.compress ot s)) in *.
  assert (Htpos : 0 < tt).
  { pose proof (Bound.compress_nonneg_sum ot s Hspos) as Hnn. fold tt in Hnn.
    destruct (Qlt_le_dec 0 tt) as [Hlt|Hle]; [exact Hlt|].
    exfalso. apply Hnz. lra. }
  set (w := Np.map2 (fun x (b : bool) => x * bool_to_Q b)
                    (map (fun x => x / tt) s) ot) in *.
  assert (Hwpos : Forall (fun x => 0 <= x) w)
    by now apply Bound.masked_weights_nonneg.
  assert (Hwsum : Np.sum w == 1).
  { unfold w. rewrite SumFacts.sum_masked_quotient. fold tt. field. lra. }
  assert (Hlw : length w = length (R d)).
  { unfold w. rewrite NpFacts.map2_length; rewrite length_map; congruence. }
  apply Fractions.broadcast_Ok_same_length in Hc; [|congruence]. subst contrib.
  assert (HM : Forall (fun y => y <= peak) Mdot).
  { apply Forall_forall. intros y Hy. apply In_nth_error in Hy.
    destruct Hy as [j Hj]. exact (Hall j y Hj). }
  pose proof (Bound.weighted_sum_le Mdot w peak ltac:(congruence) Hwpos HM) as Hle.
  rewrite sum_scale_l, Hwsum. rewrite Hwsum in Hle. lra.
Qed.

Lemma weighted_rate_bounded_by_peak_witness :
  exists (self1 : Evap) (M_dot_eff dM_gas : list Q) (peak : Q),
    optically_thin_weighting (E := cgs) fried_S_linear disc_peak false
    = Ok (self1, (M_dot_eff, dM_gas)) /\
    Np.sum M_dot_eff <= peak.
Proof.
  destruct (optically_thin_weighting (E := cgs) fried_S_linear disc_peak false)
    as [[self1 [eff dM_gas]]|e] eqn:Ho; [|vm_compute in Ho; discriminate Ho].
  destruct (unweighted_rates (E := cgs) fried_S_linear disc_peak false)
    as [[self0 [Mdot g]]|e] eqn:Hu; [|vm_compute in Hu; discriminate Hu].
  assert (Hshape : wf_shape disc_peak) by (repeat split).
  assert (Hgas : Forall (fun s => 0 <= s) (Sigma_G disc_peak))
    by (repeat constructor; discriminate).
  assert (Hpow : Forall (fun r => 0 <= np_power (Env := cgs) r (3 # 2)) (R disc_peak))
    by (repeat constructor; vm_compute; discriminate).
  destruct (weighted_rate_bounded_by_peak cgs fried_S_linear self0 self1 disc_peak
              false table_linear Mdot g eff dM_gas eq_refl Hshape Hgas Hpow Hu Ho)
    as (i & peak & _ & _ & _ & Hle).
  exists self1, eff, dM_gas, peak. split; [reflexivity | exact Hle].
Defined.

(** ** When [weighted_removal] returns *)

Module Returns.
Import Np.

Lemma finite_nth (a : list fval) (r : list Q) (j : nat) (q : Q) :
  finite a = Ok r -> nth_error a j = Some (Num q) -> nth_error r j = Some q.
Proof.
  revert r j. induction a as [|v a IH]; intros r j Hf Hj;
    [destruct j; discriminate|].
  simpl in Hf. destruct v as [x|]; [|discriminate].
  inv_bind Hf. injection Hf as <-.
  destruct j as [|j]; simpl in *; [congruence | eauto].
Qed.

Lemma getitem_nonneg_Ok {A : Type} (a : list A) (i : Z) (x : A) :
  (0 <= i < size a)%Z -> nth_error a (Z.to_nat i) = Some x ->
  getitem a i = Ok x.
Proof.
  unfold size. intros [H0 H1] Hx. unfold getitem, py_index.
  apply Z.leb_le in H0. apply Z.ltb_lt in H1. rewrite H0, H1. simpl.
  now rewrite Hx.
Qed.

Lemma divide_scalar_Ok (s : list Q) (t : Q) :
  ~ t == 0 -> divide s [t] = Ok (map (fun x => x / t) s).
Proof.
  intros Ht. unfold divide. simpl.
  destruct (Qeq_bool t 0) eqn:Hb; [apply Qeq_bool_iff in Hb; contradiction|].
  simpl. destruct s as [|x [|x' s]]; reflexivity.
Qed.

(** A selection of non-negative entries that holds a positive one has a
    positive sum. *)
Lemma selected_sum_pos (m : list bool) (s : list Q) (j : nat) (x : Q) :
  Forall (fun y => 0 <= y) s ->
  nth_error m j = Some true -> nth_error s j = Some x -> 0 < x ->
  0 < sum (compress m s).
Proof.
  intros Hs. revert m j. induction Hs as [|y s Hy Hs IH]; intros [|b m] [|j] Hm Hx Hpos;
    simpl in *; try discriminate.
  - injection Hm as ->. injection Hx as ->. simpl.
    assert (0 <= sum (compress m s)) by now apply Bound.compress_nonneg_sum.
    lra.
  - specialize (IH m j Hm Hx Hpos). destruct b; simpl; lra.
Qed.

Lemma compress_Forall_nth {A : Type} (P : A -> Prop) (m : list bool)
  (a : list A) (j : nat) (x : A) :
  Forall P (compress m a) ->
  nth_error m j = Some true -> nth_error a j = Some x -> P x.
Proof.
  revert a j. induction m as [|b m IH]; intros [|y a] [|j] HP Hm Hx;
    simpl in *; try discriminate.
  - injection Hm as ->. injection Hx as ->. now inversion HP.
  - destruct b; [inversion HP; subst|]; eauto.
Qed.

End Returns.

Section WeightedReturns.
Context {E : Env} {L : EnvLaws E}.

(** The optically thin weighting is defined on every disc of the data
    contract that holds gas somewhere, for a table provider whose rates
    are positive where there is gas. *)
Lemma optically_thin_weighting_returns (self : Evap) (d : Disc) (Track : bool)
  (t : Q -> Q -> fval) (j0 : nat) (s0 : Q) :
  table (cls self) = Some t ->
  positive_rates self d ->
  wf_shape d ->
  Forall (fun s => 0 <= s) (Sigma_G d) ->
  nth_error (Sigma_G d) j0 = Some s0 -> 0 < s0 ->
  Forall (fun r => 0 < np_power r (3 # 2)) (R d) ->
  exists (self1 : Evap) (M_dot_eff dM_gas : list Q),
    optically_thin_weighting self d Track = Ok (self1, (M_dot_eff, dM_gas)).
Proof.
  intros Ht Hpos Hshape Hgas Hs0 Hs0pos Hpow.
  pose proof pi_pos as Hpi. pose proof Msun_pos as HMs.
  set (mask := Np.gt0 (Sigma_G d)).
  assert (Hlm : length mask = length (R d)).
  { unfold mask. rewrite Fractions.gt0_length. apply Hshape. }
  destruct (mass_loss_rate_table_total self d mask t Ht Hshape Hlm)
    as (key & rates & Hkey & Hrates).
  destruct (table_rates_floored E self d mask t key rates Ht Hkey Hrates)
    as [Hdef _].
  destruct (GasFree.finite_defined rates Hdef) as [Mdot Hfin].
  set (c := fun x : Q => x * Msun / (2 * np_pi)).
  set (dM_gas := Np.map2 Qmult (Sigma_G d) (annulus_areas d)).
  assert (Hu : unweighted_rates self d false
               = Ok (self, (map c Mdot, dM_gas))).
  { unfold unweighted_rates. destruct Hshape as (He & HS & HG).
    rewrite SumFacts.broadcast_same_length
      by (rewrite annulus_areas_length, He; exact HG).
    cbn [bind]. fold mask. rewrite Hrates. cbn [bind]. rewrite Hfin.
    reflexivity. }
  pose proof (table_raw_rates_length _ _ _ _ _ _ _ Ht Hu) as HlM.
  assert (Hj0 : (j0 < length (R d))%nat).
  { destruct Hshape as (_ & _ & HG). rewrite <- HG.
    apply nth_error_Some. congruence. }
  (* the transition *)
  destruct (Argmax.argmax_total (rev (map c Mdot))) as [k Hk].
  { intros Hnil. apply (f_equal (@length Q)) in Hnil.
    rewrite length_rev, HlM in Hnil. simpl in Hnil. lia. }
  assert (Hi : transition_index (map c Mdot)
               = Ok (Np.size (map c Mdot) - Z.of_nat k - 1)%Z).
  { unfold transition_index. rewrite Hk. reflexivity. }
  set (i := (Np.size (map c Mdot) - Z.of_nat k - 1)%Z) in *.
  destruct (transition_index_spec _ _ Hi) as [Hrange (peak & Hpeak & Hall & _)].
  unfold Np.size in Hrange. rewrite HlM in Hrange.
  (* the transition annulus holds gas *)
  destruct (ListFacts.nth_error_ex (Sigma_G d) (Z.to_nat i)) as [si Hsi].
  { destruct Hshape as (_ & _ & HG). rewrite HG. lia. }
  destruct (ListFacts.nth_error_ex (R d) (Z.to_nat i)) as [ri Hri]; [lia|].
  assert (Hsipos : 0 < si).
  { destruct (Qlt_le_dec 0 si) as [Hlt|Hle]; [exact Hlt|]. exfalso.
    pose proof (table_rates_no_gas E self d t rates Ht Hrates _ _ Hsi Hle) as Hz.
    pose proof (Returns.finite_nth _ _ _ _ Hfin Hz) as Hz'.
    rewrite nth_error_map, Hz' in Hpeak. injection Hpeak as <-.
    destruct (ListFacts.nth_error_ex (map c Mdot) j0) as [y0 Hy0]; [lia|].
    assert (Hbi : Np.bool_index (map c Mdot) mask
                  = Ok (Np.compress mask (map c Mdot)))
      by (apply bool_index_same_length; congruence).
    pose proof (Hpos false self _ _ _ Hu Hbi) as Hsel.
    assert (Hy0pos : 0 < y0).
    { apply (Returns.compress_Forall_nth _ mask (map c Mdot) j0 y0 Hsel);
        [|exact Hy0].
      unfold mask. rewrite (GasFree.gt0_nth _ _ _ Hs0). f_equal.
      now apply NpFacts.Qltb_lt. }
    pose proof (Hall j0 y0 Hy0) as Hle'.
    assert (Hc00 : c 0 == 0) by (unfold c; field; lra).
    lra. }
  (* the weights *)
  assert (Hot : ot_radii d i = Ok (Np.ge (R d) ri)).
  { unfold ot_radii. rewrite (Returns.getitem_nonneg_Ok (R d) i ri); auto. }
  set (ot := Np.ge (R d) ri) in *.
  assert (Hlot : length ot = length (R d))
    by (unfold ot, Np.ge; apply length_map).
  set (s := Np.map2 Qmult (map (fun r => np_power r (3 # 2)) (R d)) (Sigma_G d)).
  assert (Hls : length s = length (R d)).
  { unfold s. destruct Hshape as (_ & _ & HG).
    rewrite NpFacts.map2_length; rewrite length_map; congruence. }
  assert (Hsnn : Forall (fun x => 0 <= x) s).
  { unfold s.
    apply (ListFacts.Forall_map2 (fun x => 0 < x) (fun y => 0 <= y));
      [|now rewrite Forall_map | exact Hgas].
    intros x y Hx Hy. simpl in *. apply Qmult_le_0_compat; lra. }
  assert (Hstot : 0 < Np.sum (Np.compress ot s)).
  { apply (Returns.selected_sum_pos ot s (Z.to_nat i) (np_power ri (3 # 2) * si)).
    - exact Hsnn.
    - unfold ot, Np.ge. rewrite nth_error_map, Hri. simpl. f_equal.
      apply Qle_bool_iff. lra.
    - unfold s. apply (NpFacts.map2_nth Qmult); [|exact Hsi].
      rewrite nth_error_map, Hri. reflexivity.
    - rewrite Forall_forall in Hpow.
      apply Qmult_lt_0_compat; [|exact Hsipos].
      apply Hpow. eapply nth_error_In; eauto. }
  assert (Hw : ot_weights d i
               = Ok (Np.map2 (fun w (b : bool) => w * bool_to_Q b)
                       (map (fun x => x / Np.sum (Np.compress ot s)) s) ot)).
  { unfold ot_weights. rewrite Hot. cbn [bind].
    rewrite SumFacts.broadcast_same_length
      by (destruct Hshape as (_ & _ & HG); rewrite length_map; congruence).
    cbn [bind]. fold s.
    rewrite bool_index_same_length by congruence. cbn [bind].
    rewrite Returns.divide_scalar_Ok by lra. cbn [bind].
    apply SumFacts.inplace_same_length. rewrite length_map. congruence. }
  unfold optically_thin_weighting. rewrite Hu. cbn [bind].
  rewrite Hi. cbn [bind]. rewrite Hw. cbn [bind].
  rewrite SumFacts.broadcast_same_length.
  - cbn [bind]. eauto.
  - rewrite length_map in HlM.
    rewrite NpFacts.map2_length; rewrite ?length_map; congruence.
Qed.

End WeightedReturns.

(** X15. A table provider completes its step on a disc without dust.  On
    a disc of the data contract with non-negative gas surface density
    and gas in at least one annulus, for a provider whose raw rates are
    positive where there is gas (and radii at which [R ** (3/2)] is
    positive), [weighted_removal] returns for every [dt], tracked or not:
    the transition lies in an annulus that holds gas, so the weights
    never divide by zero.  [__call__] on the providers keyed by surface
    density then returns the provider unchanged. *)
Theorem weighted_removal_returns :
  forall (E : Env) (L : EnvLaws E) (self : Evap) (d : Disc) (dt age : Q)
         (t : Q -> Q -> fval) (j0 : nat) (s0 : Q),
    table (cls self) = Some t ->
    positive_rates self d ->
    wf_shape d -> wf_edges d -> dust d = None ->
    Forall (fun s => 0 <= s) (Sigma_G d) ->
    nth_error (Sigma_G d) j0 = Some s0 -> 0 < s0 ->
    Forall (fun r => 0 < np_power r (3 # 2)) (R d) ->
    (forall Track : bool,
        exists (self' : Evap) (d' : Disc),
          weighted_removal self d dt Track = Ok (self', d')) /\
    ((forall t', cls self <> FRIEDExternalEvaporationM t') ->
     exists d' : Disc, call self d dt age = Ok (self, d')).
Proof.
  intros E L self d dt age t j0 s0 Ht Hpos Hshape Hedges Hnd Hgas Hs0 Hs0pos Hpow.
  assert (Hw : forall Track : bool,
             exists (self1 : Evap) (Sigma1 : list Q),
               weighted_removal self d dt Track = Ok (self1, set_Sigma d Sigma1) /\
               (Track = false -> self1 = self)).
  { intros Track.
    destruct (optically_thin_weighting_returns self d Track t j0 s0
                Ht Hpos Hshape Hgas Hs0 Hs0pos Hpow) as (self1 & eff & dM_gas & Ho).
    pose proof (optically_thin_weighting_length _ _ _ _ _ _ Ho) as Hl.
    pose proof (optically_thin_weighting_provider _ _ _ _ _ Ho) as Hself.
    exists self1. eexists. split.
    - unfold weighted_removal. rewrite Ho. cbn [bind]. rewrite Hnd.
      rewrite (gas_loss_Ok d eff dt Hshape Hedges Hl). reflexivity.
    - intros ->. exact Hself. }
  split.
  - intros Track. destruct (Hw Track) as (self1 & Sigma1 & Hr & _). eauto.
  - intros HnotM. destruct (Hw false) as (self1 & Sigma1 & Hr & Hself).
    rewrite (Hself eq_refl) in Hr.
    exists (set_Sigma d Sigma1). unfold call.
    destruct (cls self) eqn:Hc; simpl in Ht; try discriminate; try exact Hr.
    exfalso. now apply (HnotM PE_rate).
Qed.

Lemma weighted_removal_returns_witness :
  exists d' : Disc,
    call (E := cgs) fried_S_linear disc_peak 1 0 = Ok (fried_S_linear, d').
Proof.
  assert (Hrates : positive_rates (E := cgs) fried_S_linear disc_peak).
  { intros Track self1 dM_evap dM_gas e Hu He.
    apply unweighted_rates_untracked in Hu.
    vm_compute in Hu. injection Hu as <- _.
    vm_compute in He. injection He as <-.
    repeat constructor. }
  assert (Hpow : Forall (fun r => 0 < np_power (Env := cgs) r (3 # 2)) (R disc_peak))
    by (repeat constructor).
  destruct (weighted_removal_returns cgs cgs_laws fried_S_linear disc_peak 1 0
              table_linear 0%nat 1 eq_refl Hrates) as [_ Hcall].
  - repeat split.
  - split; repeat constructor; discriminate.
  - reflexivity.
  - repeat constructor; discriminate.
  - reflexivity.
  - reflexivity.
  - exact Hpow.
  - apply Hcall. intros t'. discriminate.
Defined.

(** ** A step that empties no annulus *)

Section ShortStep.
Import Np.



End ShortStep.


